(** * dirk: the entrypoint (main.go) and the slashing-protection rules

  A shallow embedding of [main.go] of the dirk remote signer, together
  with a model of the rules engine and of the signing pipeline that the
  entrypoint wires up.  The entrypoint is translated from the Go source
  function by function; the rules engine and the signer live in other
  packages and are modelled from the specification. *)

From Stdlib Require Import ZArith NArith Ascii String List Sorted Permutation Lia.
From stdpp Require Import base option list gmap strings fin_maps.

Local Open Scope string_scope.

(** ** The rules engine *)

Module Rules.

(** The verdict of a rule evaluation. *)
Inductive Result := APPROVED | DENIED | ERRORED.

#[global] Instance Result_eq_dec : EqDecision Result.
Proof. solve_decision. Defined.

(** The slashing-protection record of one account.  The three fields
    are unsigned 64-bit numbers or absent; the rules only compare
    them, so they are kept as [N]. *)
Record SlashingRecord := mkRecord {
  highest_proposed_slot : option N;
  latest_attestation_source_epoch : option N;
  latest_attestation_target_epoch : option N
}.

Definition no_history : SlashingRecord := mkRecord None None None.

(** The rules store: the persisted mapping from account path to
    record, and whether the underlying medium currently accepts
    writes. *)
Record RulesStore := mkStore {
  records : gmap string SlashingRecord;
  writable : bool
}.

Definition fresh_store : RulesStore := mkStore ∅ true.

(** Modelled from the spec: the persistence layer of the rules engine
    (a single atomic write of one record; it either commits or leaves
    the store as it was). *)
Definition persist (st : RulesStore) (path : string) (r : SlashingRecord)
  : option RulesStore :=
  if writable st
  then Some (mkStore (<[path := r]> (records st)) (writable st))
  else None.

Definition stored (st : RulesStore) (path : string) : SlashingRecord :=
  default no_history (records st !! path).

(** [at_least o n]: a stored value exists and is [>= n]. *)
Definition at_least (o : option N) (n : N) : bool :=
  match o with Some m => (n <=? m)%N | None => false end.

(** [above o n]: a stored value exists and is [> n]. *)
Definition above (o : option N) (n : N) : bool :=
  match o with Some m => (n <? m)%N | None => false end.

Definition max_existing_source (o : option N) (source : N) : N :=
  match o with Some m => N.max m source | None => source end.

(** Modelled from the spec: [evaluate_attestation] of the rules engine
    (package rules/standard, not part of the entrypoint). *)
Definition evaluate_attestation (st : RulesStore) (path : string)
    (source_epoch target_epoch : N) : Result * RulesStore :=
  let r := stored st path in
  if at_least (latest_attestation_target_epoch r) target_epoch then (DENIED, st)
  else if above (latest_attestation_source_epoch r) source_epoch then (DENIED, st)
  else if (target_epoch <? source_epoch)%N then (DENIED, st)
  else
    let r' := mkRecord (highest_proposed_slot r)
                (Some (max_existing_source (latest_attestation_source_epoch r) source_epoch))
                (Some target_epoch) in
    match persist st path r' with
    | Some st' => (APPROVED, st')
    | None => (ERRORED, st)
    end.

(** Modelled from the spec: [evaluate_proposal] of the rules engine. *)
Definition evaluate_proposal (st : RulesStore) (path : string) (slot : N)
  : Result * RulesStore :=
  let r := stored st path in
  if at_least (highest_proposed_slot r) slot then (DENIED, st)
  else
    let r' := mkRecord (Some slot)
                (latest_attestation_source_epoch r)
                (latest_attestation_target_epoch r) in
    match persist st path r' with
    | Some st' => (APPROVED, st')
    | None => (ERRORED, st)
    end.

(** The signable things.  Aggregation, randao, selection proofs and
    plain access do not touch the slashing state. *)
Inductive Request :=
| Attestation (source_epoch target_epoch : N)
| Proposal (slot : N)
| Stateless.

Definition evaluate (st : RulesStore) (path : string) (req : Request)
  : Result * RulesStore :=
  match req with
  | Attestation s t => evaluate_attestation st path s t
  | Proposal s => evaluate_proposal st path s
  | Stateless => (APPROVED, st)
  end.

(** A sequence of requests served one after the other: the log of
    verdicts and the final store. *)
Fixpoint run (st : RulesStore) (reqs : list (string * Request))
  : list (string * Request * Result) * RulesStore :=
  match reqs with
  | [] => ([], st)
  | (path, req) :: rest =>
      let '(res, st1) := evaluate st path req in
      let '(log, st2) := run st1 rest in
      ((path, req, res) :: log, st2)
  end.

Definition approved_slot (path : string) (e : string * Request * Result) : option N :=
  match e with
  | (p, Proposal s, APPROVED) => if decide (p = path) then Some s else None
  | _ => None
  end.

Definition approved_epochs (path : string) (e : string * Request * Result)
  : option (N * N) :=
  match e with
  | (p, Attestation s t, APPROVED) => if decide (p = path) then Some (s, t) else None
  | _ => None
  end.

(** The slots of the approved proposals for [path], in order. *)
Definition approved_slots (path : string) (log : list (string * Request * Result)) : list N :=
  omap (approved_slot path) log.

(** The (source, target) pairs of the approved attestations for [path]. *)
Definition approved_attestations (path : string)
    (log : list (string * Request * Result)) : list (N * N) :=
  omap (approved_epochs path) log.

End Rules.

(** ** The signing pipeline *)

Module Signer.
Import Rules.

(** The closed set of operations a permission can grant. *)
Inductive Operation :=
| OpSign | OpSignBeaconAttestation | OpSignBeaconProposal
| OpSignAggregationSlot | OpSignAggregateAndProof | OpSignRandao
| OpSignSelectionProof | OpAccessAccount | OpCreateAccount.

#[global] Instance Operation_eq_dec : EqDecision Operation.
Proof. solve_decision. Defined.

Inductive Permission := ALLOW | DENY.

(** The wallet part of an account path ["<wallet>/<account>"]. *)
Definition wallet_of (path : string) : string :=
  match String.index 0 "/" path with
  | Some i => String.substring 0 i path
  | None => path
  end.

(** Globs are the single token [*], a wallet followed by [/*], or a
    literal path. *)
Definition glob_matches (glob path : string) : bool :=
  if String.eqb glob "*" then true
  else
    let n := String.length glob in
    if (2 <=? n)%nat && String.eqb (String.substring (n - 2) 2 glob) "/*"
    then String.eqb (String.substring 0 (n - 2) glob) (wallet_of path)
    else String.eqb glob path.

(** Modelled from the spec: the static permission checker (package
    services/checker/static). *)
Definition Checker (permissions : gmap string (list (string * list Operation)))
    (client path : string) (op : Operation) : Permission :=
  match permissions !! client with
  | Some rules =>
      if existsb (fun '(glob, ops) =>
                    glob_matches glob path && bool_decide (op ∈ ops)) rules
      then ALLOW else DENY
  | None => DENY
  end.

(** An account handle: its key, the passphrase that opens it and
    whether it has been opened already. *)
Record Account := mkAccount {
  account_key : N;
  account_passphrase : string;
  account_unlocked : bool
}.

(** A BLS signature is kept symbolic: the key and the signing root. *)
Record Signature := mkSignature { signed_by : N; signed_root : N }.

Record Server := mkServer {
  permissions : gmap string (list (string * list Operation));
  accounts : gmap string Account;
  passphrases : list string;
  rules : RulesStore
}.

(** Modelled from the spec: the unlocker (package
    services/unlocker/local).  An account that is not yet open is
    tried against the configured passphrases. *)
Definition Unlocker (candidates : list string) (a : Account) : bool :=
  account_unlocked a || bool_decide (account_passphrase a ∈ candidates).

Definition operation_of (req : Request) : Operation :=
  match req with
  | Attestation _ _ => OpSignBeaconAttestation
  | Proposal _ => OpSignBeaconProposal
  | Stateless => OpSign
  end.

Inductive State :=
| SUCCEEDED | DENIED_STATE | NOT_FOUND | INTERNAL.

(** The ruler's verdict as the signer reports it. *)
Definition state_of (r : Result) : State :=
  match r with
  | APPROVED => SUCCEEDED
  | DENIED => DENIED_STATE
  | ERRORED => INTERNAL
  end.

(** Modelled from the spec: the signer's pipeline (package
    services/signer/standard): checker, fetcher, unlocker, ruler,
    then the signature. *)
Definition sign (sv : Server) (client path : string) (req : Request) (root : N)
  : State * option Signature * Server :=
  match Checker (permissions sv) client path (operation_of req) with
  | DENY => (DENIED_STATE, None, sv)
  | ALLOW =>
      match accounts sv !! path with
      | None => (NOT_FOUND, None, sv)
      | Some account =>
          if negb (Unlocker (passphrases sv) account)
          then (DENIED_STATE, None, sv)
          else
            let sv1 := mkServer (permissions sv)
                         (<[path := mkAccount (account_key account)
                                      (account_passphrase account) true]> (accounts sv))
                         (passphrases sv) (rules sv) in
            let '(decision, rules') := evaluate (rules sv1) path req in
            let sv2 := mkServer (permissions sv1) (accounts sv1) (passphrases sv1) rules' in
            match decision with
            | APPROVED =>
                (SUCCEEDED, Some (mkSignature (account_key account) root), sv2)
            | _ => (state_of decision, None, sv2)
            end
      end
  end.

End Signer.

(** ** The Go library functions the entrypoint calls *)

Module Go.

Definition is_empty (s : string) : bool :=
  match s with EmptyString => true | String _ _ => false end.

(** Go errors: [errors.New], [errors.Wrap] and [strconv.NumError]. *)
Inductive error :=
| New (msg : string)
| Wrap (cause : error) (msg : string)
| NumError (func input : string) (out_of_range : bool)
| ConfigFileNotFoundError.

(** *** strconv.ParseUint(s, 10, 64) *)

Definition maxUint64 : N := 2 ^ 64 - 1.
(** The smallest number such that [cutoff * 10 > maxUint64]. *)
Definition cutoff : N := maxUint64 / 10 + 1.

Definition digit (c : ascii) : option N :=
  let n := N_of_ascii c in
  if (48 <=? n)%N && (n <=? 57)%N then Some (n - 48)%N else None.

Fixpoint parse_digits (s0 s : string) (n : N) : error + N :=
  match s with
  | EmptyString => inr n
  | String c rest =>
      match digit c with
      | None => inl (NumError "ParseUint" s0 false)
      | Some d =>
          if (cutoff <=? n)%N then inl (NumError "ParseUint" s0 true)
          else
            let n10 := ((n * 10) mod 2 ^ 64)%N in
            let n1 := ((n10 + d) mod 2 ^ 64)%N in
            if (n1 <? n10)%N || (maxUint64 <? n1)%N
            then inl (NumError "ParseUint" s0 true)
            else parse_digits s0 rest n1
      end
  end.

Definition ParseUint (s : string) : error + N :=
  if is_empty s then inl (NumError "ParseUint" s false)
  else parse_digits s s 0%N.

(** *** path/filepath on Unix *)

(** [strings.HasPrefix(path, "/")] *)
Definition IsAbs (path : string) : bool :=
  match path with
  | String c _ => Ascii.eqb c "/"
  | EmptyString => false
  end.

(** The elements of a path between its separators. *)
Fixpoint elements (path : string) : list string :=
  match path with
  | EmptyString => [EmptyString]
  | String c rest =>
      if Ascii.eqb c "/" then EmptyString :: elements rest
      else match elements rest with
           | e :: es => String c e :: es
           | [] => [String c EmptyString]
           end
  end.

(** One element processed by [Clean]; [out] holds the elements kept so
    far, last first. *)
Definition clean_step (rooted : bool) (out : list string) (e : string) : list string :=
  if is_empty e || String.eqb e "." then out
  else if String.eqb e ".." then
    match out with
    | top :: below => if String.eqb top ".." then e :: out else below
    | [] => if rooted then [] else [e]
    end
  else e :: out.

Definition Clean (path : string) : string :=
  if is_empty path then "."
  else
    let rooted := IsAbs path in
    let out := fold_left (clean_step rooted) (elements path) [] in
    let body := String.concat "/" (rev out) in
    if rooted then "/" ++ body
    else if is_empty body then "." else body.

(** [filepath.Join] of two elements: empty elements are ignored, the
    result is cleaned, and it is empty when both elements are. *)
Definition Join (a b : string) : string :=
  if negb (is_empty a) then Clean (a ++ "/" ++ b)
  else if negb (is_empty b) then Clean b
  else EmptyString.

(** *** int arithmetic (64 bits, two's complement) *)

Definition wrap_int (z : Z) : Z := ((z + 2 ^ 63) mod 2 ^ 64 - 2 ^ 63)%Z.
Definition int_mul (a b : Z) : Z := wrap_int (a * b).

End Go.

(** ** The entrypoint: main.go *)

Module Dirk.
Import Go.

(** ReleaseVersion is the release version for the code. *)
Definition ReleaseVersion : string := "1.1.0-pre-3".

(** *** The world outside main.go *)

(** Calls into other packages (and into the other files of package
    main) whose outcome the entrypoint only inspects for an error. *)
Inductive Ext :=
| ParseFlags | BindPFlags | ReadInConfig
| NewMajordomo | NewDirectConfidant | RegisterDirectConfidant
| NewFileConfidant | RegisterFileConfidant
| NewGSMConfidant | RegisterGSMConfidant
| ShowCertificates | DumpPermissions
| ExportSlashingProtection | ImportSlashingProtection
| InitLogging | ListenAndServe | NewTracer | InitBLS
| NewPrometheus | RegisterMetrics
| UnmarshalStores | InitStores
| NewUnlocker | NewChecker | NewFetcher | NewLocker
| NewRules | NewRuler | NewLister | NewSigner | NewPeers
| NewSender | NewProcess | NewAccountManager | NewWalletManager
| NewAPI.

#[global] Instance Ext_eq_dec : EqDecision Ext.
Proof. solve_decision. Defined.

Inductive Signal := SIGHUP | SIGINT | SIGQUIT | SIGKILL | SIGUSR1 | SIGTERM.

#[global] Instance Signal_eq_dec : EqDecision Signal.
Proof. solve_decision. Defined.

(** The process-wide configuration store (viper): what flags, the
    environment and the configuration file set, and the registered
    defaults. *)
Record Viper := mkViper {
  set_strings : gmap string string;
  set_bools : gmap string bool;
  set_slices : gmap string (list string);
  set_maps : gmap string (gmap string string);
  defaults : gmap string string
}.

Definition GetString (v : Viper) (key : string) : string :=
  match set_strings v !! key with
  | Some s => s
  | None => default EmptyString (defaults v !! key)
  end.

Definition GetBool (v : Viper) (key : string) : bool :=
  default false (set_bools v !! key).

Definition GetStringSlice (v : Viper) (key : string) : list string :=
  default [] (set_slices v !! key).

Definition GetStringMapString (v : Viper) (key : string) : gmap string string :=
  default ∅ (set_maps v !! key).

Definition SetDefault (v : Viper) (key value : string) : Viper :=
  mkViper (set_strings v) (set_bools v) (set_slices v) (set_maps v)
          (<[key := value]> (defaults v)).

(** The two [range] statements over the peers map. *)
Inductive RangeSite := RangeStartPeers | RangeStartServices.

Record Env := mkEnv {
  (** what the user configured *)
  config : Viper;
  (** the error, if any, of each external call *)
  failure : Ext → option error;
  (** [homedir.Dir()] *)
  home : error + string;
  (** [runtime.NumCPU()] *)
  NumCPU : Z;
  (** [majordomo.Fetch]: the secret behind a key *)
  secret : string → error + string;
  (** the stores [core.InitStores] opens *)
  stores : list string;
  (** the order in which a [range] visits the entries of a map; Go
      leaves it unspecified *)
  visit : RangeSite → list (string * string) → list (string * string);
  (** the signals delivered on [sigCh], in order *)
  sigCh : list Signal
}.

(** Every [range] visits each entry of the map once. *)
Definition fair_ranges (env : Env) : Prop :=
  ∀ site entries, visit env site entries ≡ₚ entries.

(** *** Processes: what a run does, and how it ends *)

Inductive Level := LTrace | LDebug | LInfo | LError | LFatal.

Inductive Event :=
| ELog (level : Level) (msg : string) (err : option error)
| EPrintf (text : string)
| ECall (x : Ext)
| EFetch (key : string)
| EServe (address : string)
| ESetRelease (version : string)
| ESetReady (ready : bool)
| EGOMAXPROCS (n : Z)
| ESignal (sig : Signal)
| ECancel
| ESleep (nanoseconds : Z)
| EClose
| EGo (e : Event).

#[global] Instance Level_eq_dec : EqDecision Level.
Proof. solve_decision. Defined.
#[global] Instance error_eq_dec : EqDecision error.
Proof. solve_decision. Defined.
#[global] Instance Event_eq_dec : EqDecision Event.
Proof. solve_decision. Defined.

(** A computation returns, ends the process ([os.Exit]) or blocks
    for good. *)
Inductive Status (A : Type) :=
| Return (a : A)
| Exited (code : Z)
| Blocked.
Arguments Return {A} a.
Arguments Exited {A} code.
Arguments Blocked {A}.

Definition Proc (A : Type) : Type := list Event * Status A.

#[global] Instance Proc_ret : MRet Proc := λ A a, ([], Return a).

#[global] Instance Proc_bind : MBind Proc := λ A B f m,
  match m.2 with
  | Return a => let r := f a in ((m.1 ++ r.1)%list, r.2)
  | Exited code => (m.1, Exited code)
  | Blocked => (m.1, Blocked)
  end.

Definition emit (e : Event) : Proc unit := ([e], Return tt).
Definition os_Exit {A} (code : Z) : Proc A := ([], Exited code).

(** [log.Fatal()...Msg(msg)] logs and exits with status 1. *)
Definition Fatal {A} (msg : string) (err : option error) : Proc A :=
  emit (ELog LFatal msg err) ;; os_Exit 1.

(** A Go function with an [error] result. *)
Definition Call (A : Type) : Type := Proc (error + A).

Definition ok {A} (a : A) : Call A := ([], Return (inr a)).
Definition fail {A} (err : error) : Call A := ([], Return (inl err)).

(** [x, err := m; if err != nil { return err }; k x] *)
Definition try {A B} (m : Call A) (k : A → Call B) : Call B :=
  Proc_bind _ _ (λ r, match r with
                      | inl err => fail err
                      | inr a => k a
                      end) m.

#[global] Instance Call_ret : MRet Call := λ A a, ok a.
#[global] Instance Call_bind : MBind Call := λ A B k m, try m k.

(** A step that cannot fail, inside a function that can. *)
Definition lift {A} (m : Proc A) : Call A :=
  Proc_bind _ _ (λ a, ok a) m.

(** [if err != nil { return errors.Wrap(err, msg) }] *)
Definition wrapped {A} (msg : string) (m : Call A) : Call A :=
  Proc_bind _ _ (λ r, match r with
                      | inl err => fail (Wrap err msg)
                      | inr a => ok a
                      end) m.

(** [if err != nil { log.Fatal().Err(err).Msg(msg) }] *)
Definition or_fatal {A} (msg : string) (m : Call A) : Proc A :=
  Proc_bind _ _ (λ r, match r with
                      | inl err => Fatal msg (Some err)
                      | inr a => mret a
                      end) m.

(** A call into another package: it happens, and fails or not. *)
Definition call (env : Env) (x : Ext) : Call unit :=
  Proc_bind _ _ (λ _, match failure env x with
                      | Some err => fail err
                      | None => ok tt
                      end) (emit (ECall x)).

(** [majordomo.Fetch(ctx, key)] *)
Definition Fetch (env : Env) (key : string) : Call string :=
  Proc_bind _ _ (λ _, ([], Return (secret env key))) (emit (EFetch key)).

(** Deferred calls run when the function returns, not on [os.Exit]. *)
Definition defer {A} (deferred : list Event) (m : Proc A) : Proc A :=
  match m.2 with
  | Return a => ((m.1 ++ deferred)%list, Return a)
  | _ => m
  end.

(** [if err != nil { log.Error().Err(err).Msg(msg); return }] in main. *)
Definition or_return {A} (msg : string) (m : Call A) (k : A → Proc unit) : Proc unit :=
  Proc_bind _ _ (λ r, match r with
                      | inl err => emit (ELog LError msg (Some err))
                      | inr a => k a
                      end) m.

(** [go f()]: the goroutine runs concurrently with its caller, which
    goes on at once whatever becomes of the goroutine.  What the
    goroutine does is recorded, marked [EGo], at the point where it is
    started; where its steps fall among the later steps of the caller
    is not determined. *)
Definition go {A} (m : Proc A) : Proc unit := (EGo <$> m.1, Return tt).

(** [pflag.Parse()] parses the command line with the [ExitOnError]
    policy of [pflag.CommandLine]: when the command line does not
    parse, the library reports the error and ends the process with
    status 2.  What the library prints is not part of the trace. *)
Definition pflag_Parse (env : Env) : Proc unit :=
  Proc_bind _ _ (λ r, match r with
                      | inl _ => os_Exit 2
                      | inr _ => mret tt
                      end) (call env ParseFlags).

(** [viper.ReadInConfig()], where a missing file is not an error. *)
Definition read_configuration (env : Env) (v : Viper) : Call Viper :=
  Proc_bind _ _ (λ r, match r with
                      | inl ConfigFileNotFoundError => ok v
                      | inl err => fail (Wrap err "failed to read configuration file")
                      | inr _ => ok v
                      end) (call env ReadInConfig).

(** *** fetchConfig fetches configuration from various sources. *)
Definition fetchConfig (env : Env) : Call Viper :=
  (* the flags are declared, then parsed *)
  lift (pflag_Parse env) ;;
  wrapped "failed to bind pflags to viper" (call env BindPFlags) ;;
  (if negb (is_empty (GetString (config env) "base-dir"))
   then ok tt (* user-defined base directory *)
   else match home env with (* home directory *)
        | inl err => fail (Wrap err "failed to obtain home directory")
        | inr _ => ok tt
        end) ;;
  (* Defaults. *)
  read_configuration env (SetDefault (config env) "storage-path" "storage").

(** [http.ListenAndServe(address, nil)] serves until it fails; it
    never returns nil. *)
Definition serve (env : Env) (address : string) : Call unit :=
  Proc_bind _ _ (λ _, match failure env ListenAndServe with
                      | Some err => fail err
                      | None => ([], Blocked)
                      end) (emit (EServe address)).

(** *** initProfiling initialises the profiling server. *)
Definition initProfiling (v : Viper) (env : Env) : Call unit :=
  let profileAddress := GetString v "profile-address" in
  if negb (is_empty profileAddress)
  then (* the two profiling rates set here are read by nothing in main.go *)
       lift (emit (ELog LInfo "Starting profile server" None)) ;;
       lift (go (Proc_bind _ _
                   (λ r, match r with
                         | inl err =>
                             emit (ELog LError "Failed to start profile server" (Some err))
                         | inr _ => mret tt
                         end) (serve env profileAddress))) ;;
       ok tt
  else ok tt.

(** *** initTracing initialises the tracing; it returns the closer. *)
Definition initTracing (v : Viper) (env : Env) : Call (option unit) :=
  let tracingAddress := GetString v "tracing-address" in
  if is_empty tracingAddress then ok None
  else call env NewTracer ;; ok (Some tt).

(** *** resolvePath resolves a potentially relative path to an absolute path. *)
Definition resolvePath (v : Viper) (env : Env) (path : string) : Proc string :=
  if IsAbs path then mret path
  else
    let baseDir := GetString v "base-dir" in
    baseDir ← (if is_empty baseDir
               then match home env with
                    | inl err => Fatal "Could not determine a home directory" (Some err)
                    | inr homeDir => mret homeDir
                    end
               else mret baseDir);
    mret (Join baseDir path).

Definition newline : string := String (ascii_of_nat 10) EmptyString.

(** [exportSlashingProtection] and [importSlashingProtection] are in
    another file of package main; as the comment on their caller
    says, they do not return: the command runs and the process exits,
    with a status that tells whether it failed. *)
Definition run_to_exit (env : Env) (x : Ext) : Proc unit :=
  Proc_bind _ _ (λ r, match r with
                      | inl _ => os_Exit 1
                      | inr _ => os_Exit 0
                      end) (call env x).

(** *** runCommands will not return if a command is run. *)
Definition runCommands (v : Viper) (env : Env) : Proc unit :=
  if GetBool v "version"
  then emit (EPrintf (ReleaseVersion ++ newline)) ;; os_Exit 0
  else if GetBool v "show-certificates"
  then or_fatal "show-certificates failed" (call env ShowCertificates) ;; os_Exit 0
  else if GetBool v "show-permissions"
  then emit (ECall DumpPermissions) ;; os_Exit 0
  else if GetBool v "export-slashing-protection"
  then run_to_exit env ExportSlashingProtection
  else if GetBool v "import-slashing-protection"
  then run_to_exit env ImportSlashingProtection
  else mret tt.

Definition initMajordomo (v : Viper) (env : Env) : Call unit :=
  wrapped "failed to create majordomo service" (call env NewMajordomo) ;;
  wrapped "failed to create direct confidant" (call env NewDirectConfidant) ;;
  wrapped "failed to register direct confidant" (call env RegisterDirectConfidant) ;;
  wrapped "failed to create file confidant" (call env NewFileConfidant) ;;
  wrapped "failed to register file confidant" (call env RegisterFileConfidant) ;;
  (if negb (is_empty (GetString v "majordomo.gsm.credentials"))
   then
     lift (resolvePath v env (GetString v "majordomo.gsm.credentials")) ;;
     wrapped "failed to create Google secrets manager confidant" (call env NewGSMConfidant) ;;
     wrapped "failed to register Google secrets manager confidant"
             (call env RegisterGSMConfidant)
   else ok tt) ;;
  ok tt.

(** The monitor is [nil] when no listen address is configured. *)
Definition startMonitor (v : Viper) (env : Env) : Call (option unit) :=
  lift (emit (ELog LTrace "Starting metrics service" None)) ;;
  if is_empty (GetString v "metrics.listen-address")
  then lift (emit (ELog LDebug "No metrics listen address supplied; monitor not starting" None)) ;;
       ok None
  else wrapped "failed to start metrics service" (call env NewPrometheus) ;;
       ok (Some tt).

(** The dependencies are logged at trace level; the line for the main
    package stands for them. *)
Definition logModules : Proc unit :=
  emit (ELog LTrace "Main package" None).

(** *** initRules initialises a rules service; it is handed the
    resolved storage path. *)
Definition initRules (v : Viper) (env : Env) : Call string :=
  storagePath ← lift (resolvePath v env (GetString v "storage-path"));
  call env NewRules ;;
  ok storagePath.

Definition initStores (v : Viper) (env : Env) : Call (list string) :=
  wrapped "failed to obtain stores configuration" (call env UnmarshalStores) ;;
  wrapped "failed to initialise stores" (call env InitStores) ;;
  match stores env with
  | [] => fail (New "no stores")
  | _ => ok (stores env)
  end.

(** The options the unlocker service is constructed with. *)
Record UnlockerService := mkUnlocker {
  walletPassphrases : list string;
  accountPassphrases : list string
}.

(** [for _, key := range keys { value, err := majordomo.Fetch(ctx, key); ... }] *)
Fixpoint fetch_passphrases (env : Env) (msg : string) (keys : list string)
    (passphrases : list string) : Call (list string) :=
  match keys with
  | [] => ok passphrases
  | key :: rest =>
      value ← wrapped msg (Fetch env key);
      fetch_passphrases env msg rest (passphrases ++ [value])%list
  end.

Definition startUnlocker (v : Viper) (env : Env) : Call UnlockerService :=
  (* Set up the unlocker. *)
  walletPassphrases ←
    fetch_passphrases env "failed to obtain wallet passphrase for unlocker"
      (GetStringSlice v "unlocker.wallet-passphrases") [];
  accountPassphrases ←
    fetch_passphrases env "failed to obtain account passphrase for unlocker"
      (GetStringSlice v "unlocker.account-passphrases") [];
  call env NewUnlocker ;;
  ok (mkUnlocker walletPassphrases accountPassphrases).

Definition startChecker (env : Env) : Call unit := call env NewChecker.
Definition startFetcher (env : Env) : Call unit := call env NewFetcher.
Definition startLocker (env : Env) : Call unit := call env NewLocker.
Definition startLister (env : Env) : Call unit := call env NewLister.

Definition startRuler (v : Viper) (env : Env) : Call unit :=
  wrapped "failed to set up rules" (initRules v env) ;;
  call env NewRuler.

(** The loop of [startPeers] over the entries of the peers map, in
    the order they are visited. *)
Fixpoint startPeers_loop (peersInfo : list (string * string)) (peersMap : gmap N string)
  : error + gmap N string :=
  match peersInfo with
  | [] => inr peersMap
  | (k, v) :: rest =>
      match ParseUint k with
      | inl err => inl (Wrap err "failed to parse peers info")
      | inr id => startPeers_loop rest (<[id := v]> peersMap)
      end
  end.

Record PeersService := mkPeers { peersMap : gmap N string }.

Definition startPeers (v : Viper) (env : Env) : Call PeersService :=
  (* Keys are strings. *)
  let peersInfo := GetStringMapString v "peers" in
  match startPeers_loop (visit env RangeStartPeers (map_to_list peersInfo)) ∅ with
  | inl err => fail err
  | inr peersMap => call env NewPeers ;; ok (mkPeers peersMap)
  end.

(** The loop of [startServices] that builds [endpoints]. *)
Fixpoint endpoints_loop (peersInfo : list (string * string)) (endpoints : gmap N string)
  : Proc (gmap N string) :=
  match peersInfo with
  | [] => mret endpoints
  | (k, v) :: rest =>
      match ParseUint k with
      | inl err =>
          emit (ELog LError "Invalid peer ID" (Some err)) ;;
          endpoints_loop rest endpoints
      | inr peerID => endpoints_loop rest (<[peerID := v]> endpoints)
      end
  end.

Definition optional_secret (env : Env) (msg key : string) : Call string :=
  if negb (is_empty key) then wrapped msg (Fetch env key) else ok EmptyString.

Definition startServices (v : Viper) (env : Env) : Call unit :=
  initStores v env ;;
  wrapped "failed to initialise local unlocker" (startUnlocker v env) ;;
  wrapped "failed to start permissions checker" (startChecker env) ;;
  (* Set up the fetcher. *)
  wrapped "failed to initialise account fetcher" (startFetcher env) ;;
  (* Set up the locker. *)
  wrapped "failed to set up locker service" (startLocker env) ;;
  (* Set up the ruler. *)
  wrapped "failed to set up ruler service" (startRuler v env) ;;
  (* Set up the lister. *)
  wrapped "failed to initialise lister" (startLister env) ;;
  (* Set up the signer. *)
  wrapped "failed to create signer service" (call env NewSigner) ;;
  wrapped "failed to start peers service" (startPeers v env) ;;
  wrapped "failed to obtain server certificate"
          (Fetch env (GetString v "certificates.server-cert")) ;;
  wrapped "failed to obtain server key"
          (Fetch env (GetString v "certificates.server-key")) ;;
  optional_secret env "failed to obtain client CA certificate"
                  (GetString v "certificates.ca-cert") ;;
  wrapped "failed to create sender service" (call env NewSender) ;;
  wrapped "failed to obtain server ID"
          (mret (M := Proc) (ParseUint (GetString v "server.id"))) ;;
  lift (endpoints_loop
          (visit env RangeStartServices (map_to_list (GetStringMapString v "peers"))) ∅) ;;
  optional_secret env "failed to obtain account generation passphrase for process"
                  (GetString v "process.generation-passphrase") ;;
  wrapped "failed to create process service" (call env NewProcess) ;;
  wrapped "failed to create account manager service" (call env NewAccountManager) ;;
  wrapped "failed to create wallet manager service" (call env NewWalletManager) ;;
  (* Initialise the API service. *)
  wrapped "failed to create API service" (call env NewAPI) ;;
  ok tt.

(** [os.Interrupt] is SIGINT and [os.Kill] is SIGKILL. *)
Definition stops (sig : Signal) : bool :=
  bool_decide (sig = SIGINT) || bool_decide (sig = SIGTERM)
  || bool_decide (sig = SIGINT) || bool_decide (sig = SIGKILL).

(** [for { sig := <-sigCh; if ... { cancel(); break } }] *)
Fixpoint wait_for_signal (sigCh : list Signal) : Proc unit :=
  match sigCh with
  | [] => ([], Blocked)
  | sig :: rest =>
      emit (ESignal sig) ;;
      if stops sig then emit ECancel else wait_for_signal rest
  end.

Definition Second : Z := 1000000000.

(** The part of [main] that follows [defer closer.Close()]. *)
Definition main_deferred (v : Viper) (env : Env) : Proc unit :=
  emit (EGOMAXPROCS (int_mul (NumCPU env) 8)) ;;
  or_return "Failed to initialise BLS library" (call env InitBLS) (λ _,
  or_return "Failed to start metrics service" (startMonitor v env) (λ monitor,
  or_return "Failed to register metrics" (call env RegisterMetrics) (λ _,
  emit (ESetRelease ReleaseVersion) ;;
  emit (ESetReady false) ;;
  or_return "Failed to initialise services" (startServices v env) (λ _,
  emit (ESetReady true) ;;
  emit (ELog LInfo "All services operational" None) ;;
  (* Wait for signal. *)
  wait_for_signal (sigCh env) ;;
  emit (ELog LInfo "Stopping dirk" None) ;;
  emit (ESetReady false) ;;
  (* Give services a chance to stop cleanly before we exit. *)
  emit (ESleep (2 * Second)))))).

(** [main], up to the initialisation of logging: configuration,
    majordomo, one-shot commands, logging. *)
Definition main_preflight (env : Env) : Proc Viper :=
  v ← or_fatal "Failed to fetch configuration" (fetchConfig env);
  or_fatal "Failed to initialise majordomo" (initMajordomo v env) ;;
  (* runCommands will not return if a command is run. *)
  runCommands v env ;;
  or_fatal "Failed to initialise logging" (call env InitLogging) ;;
  mret v.

(** [main], from the check of the server name to [initTracing],
    whose result it hands on. *)
Definition main_initialise (v : Viper) (env : Env) : Call (option unit) :=
  Proc_bind _ _ (λ _, initTracing v env)
    ((if is_empty (GetString v "server.name")
      then Fatal "No server name set; cannot start" None
      else mret tt) ;;
     logModules ;;
     emit (ELog LInfo "Starting dirk" None) ;;
     or_fatal "Failed to initialise profiling" (initProfiling v env)).

Definition main (env : Env) : Proc unit :=
  v ← main_preflight env;
  or_return "Failed to initialise tracing" (main_initialise v env) (λ closer,
  defer (match closer with Some _ => [EClose] | None => [] end)
        (main_deferred v env)).

End Dirk.

(** ** The vocabulary of the properties *)

Section Vocabulary.
Import Rules Signer Go Dirk.

(** The three ways an attestation is refused. *)
Definition attestation_refused (st : RulesStore) (path : string) (source target : N) : Prop :=
  (∃ r t0, records st !! path = Some r ∧
           latest_attestation_target_epoch r = Some t0 ∧ (target ≤ t0)%N)
  ∨ (∃ r s0, records st !! path = Some r ∧
             latest_attestation_source_epoch r = Some s0 ∧ (source < s0)%N)
  ∨ (target < source)%N.

(** The record an approved attestation leaves behind. *)
Definition attested (st : RulesStore) (path : string) (source target : N) : SlashingRecord :=
  mkRecord (highest_proposed_slot (stored st path))
           (Some (max_existing_source
                    (latest_attestation_source_epoch (stored st path)) source))
           (Some target).

Definition after_5_10 (path : string) : RulesStore :=
  mkStore {[path := mkRecord None (Some 5%N) (Some 10%N)]} true.

(** A store that holds a proposal at slot 100 for [path]. *)
Definition after_100 (path : string) : RulesStore :=
  mkStore {[path := mkRecord (Some 100%N) None None]} true.

(** A store whose medium does not take writes. *)
Definition read_only_store : RulesStore := mkStore ∅ false.

Definition proposal_refused (st : RulesStore) (path : string) (slot : N) : Prop :=
  ∃ r s0, records st !! path = Some r ∧
          highest_proposed_slot r = Some s0 ∧ (slot ≤ s0)%N.

Definition proposed (st : RulesStore) (path : string) (slot : N) : SlashingRecord :=
  mkRecord (Some slot)
           (latest_attestation_source_epoch (stored st path))
           (latest_attestation_target_epoch (stored st path)).

(** What the rules store must hold once a request has been approved. *)
Definition persisted (before after : RulesStore) (path : string) (req : Request) : Prop :=
  match req with
  | Attestation s t => records after !! path = Some (attested before path s t)
  | Proposal slot => records after !! path = Some (proposed before path slot)
  | Stateless => after = before
  end.

(** A server with one client, one open account and healthy storage. *)
Definition demo_server (writable : bool) : Server :=
  mkServer {["client1" := [("w1/*", [OpSignBeaconAttestation])]]}
           {["w1/acct1" := mkAccount 7 "secret" true]}
           []
           (mkStore ∅ writable).

(** The directory a relative path is joined onto. *)
Definition base_of (v : Viper) (env : Env) : error + string :=
  if is_empty (GetString v "base-dir") then home env else inr (GetString v "base-dir").

(** A configuration whose base directory is relative. *)
Definition relative_base_dir : Viper :=
  SetDefault (mkViper {["base-dir" := "conf"]} ∅ ∅ ∅ ∅) "storage-path" "storage".

(** The entries whose key parses, with the parsed id. *)
Definition parsed_entry (e : string * string) : option (N * string) :=
  match ParseUint e.1 with
  | inr id => Some (id, e.2)
  | inl _ => None
  end.

Definition parsed (entries : list (string * string)) : list (N * string) :=
  omap parsed_entry entries.

(** Assigning the entries to a map one after the other. *)
Definition assign (m : gmap N string) (kvs : list (N * string)) : gmap N string :=
  fold_left (λ m kv, <[kv.1 := kv.2]> m) kvs m.

Definition parses (k : string) : bool :=
  match ParseUint k with inr _ => true | inl _ => false end.

(** A configuration with one peer, visited in the order of the map. *)
Definition one_peer : Viper :=
  mkViper ∅ ∅ ∅ {["peers" := {["1" := "signer-1:13141"]}]} ∅.

Definition one_peer_named : Viper :=
  mkViper {["server.name" := "signer-1"; "server.id" := "1"]} ∅ ∅
          {["peers" := {["1" := "signer-1:13141"]}]} ∅.

Definition quiet_env (v : Viper) : Env :=
  mkEnv v (λ _, None) (inr "/home/dirk") 4 (λ key, inr key) ["store"]
        (λ _ entries, entries) [SIGTERM].

(** [only P m]: every event of [m] is of the kind [P]. *)
Definition only {A} (P : Event → bool) (m : Proc A) : Prop :=
  forallb P m.1 = true.

(** The calls made before the server name is looked at. *)
Definition preflight_calls : list Ext :=
  [ParseFlags; BindPFlags; ReadInConfig; NewMajordomo; NewDirectConfidant;
   RegisterDirectConfidant; NewFileConfidant; RegisterFileConfidant;
   NewGSMConfidant; RegisterGSMConfidant; ShowCertificates; DumpPermissions;
   ExportSlashingProtection; ImportSlashingProtection; InitLogging].

(** The calls with which [startServices] builds the services. *)
Definition service_calls : list Ext :=
  [UnmarshalStores; InitStores; NewUnlocker; NewChecker; NewFetcher; NewLocker;
   NewRules; NewRuler; NewLister; NewSigner; NewPeers; NewSender; NewProcess;
   NewAccountManager; NewWalletManager; NewAPI].

Definition preflight_event (e : Event) : bool :=
  match e with
  | ELog _ _ _ | EPrintf _ => true
  | ECall x => bool_decide (x ∈ preflight_calls)
  | _ => false
  end.

Definition initialise_event (e : Event) : bool :=
  match e with
  | ELog _ _ _ | EGo _ => true
  | ECall x => bool_decide (x = NewTracer)
  | _ => false
  end.

Definition service_event (e : Event) : bool :=
  match e with
  | ELog _ _ _ | EFetch _ => true
  | ECall x => bool_decide (x ∈ service_calls)
  | _ => false
  end.

Definition signal_event (e : Event) : bool :=
  match e with
  | ESignal _ | ECancel => true
  | _ => false
  end.

(** The values the readiness flag is set to, in order. *)
Definition readiness (t : list Event) : list bool :=
  omap (λ e, match e with ESetReady b => Some b | _ => None end) t.

(** The arguments [runtime.GOMAXPROCS] is called with, in order. *)
Definition gomaxprocs (t : list Event) : list Z :=
  omap (λ e, match e with EGOMAXPROCS n => Some n | _ => None end) t.

(** The calls of a trace that start a subsystem: the profile server,
    tracing, BLS, metrics and the services. *)
Definition starts_subsystem (e : Event) : bool :=
  match e with
  | EServe _ | EGo _ | ESetReady _ | ESetRelease _ | EGOMAXPROCS _ => true
  | ECall x =>
      bool_decide (x ∈ [ListenAndServe; NewTracer; InitBLS; NewPrometheus; RegisterMetrics])
      || bool_decide (x ∈ service_calls)
  | _ => false
  end.

(** Events that neither touch the readiness flag nor start a service. *)
Definition before_services (e : Event) : bool :=
  match e with
  | ESetReady _ => false
  | ECall x => negb (bool_decide (x ∈ service_calls))
  | _ => true
  end.

(** The signals read from the channel: up to and including the
    first that stops the server. *)
Fixpoint received (sigCh : list Signal) : list Signal :=
  match sigCh with
  | [] => []
  | sig :: rest => if stops sig then [sig] else sig :: received rest
  end.

(** The configuration [main] works with, once it has one. *)
Definition configured (env : Env) : Viper :=
  SetDefault (config env) "storage-path" "storage".

(** What follows [setReady(ctx, false)] in [main], given how
    [startServices] ended and what is deferred. *)
Definition after_services (env : Env) (services : Status (error + unit))
    (closing : list Event) : Proc unit :=
  match services with
  | Return (inr _) =>
      ((ESetReady true :: ELog LInfo "All services operational" None
          :: (ESignal <$> received (sigCh env))
          ++ (if existsb stops (sigCh env)
              then [ECancel; ELog LInfo "Stopping dirk" None; ESetReady false;
                    ESleep (2 * Second)] ++ closing
              else []))%list,
       if existsb stops (sigCh env) then Return tt else Blocked)
  | Return (inl err) =>
      ((ELog LError "Failed to initialise services" (Some err) :: closing)%list, Return tt)
  | Exited code => ([], Exited code)
  | Blocked => ([], Blocked)
  end.

Definition not_gomaxprocs (e : Event) : bool :=
  match e with EGOMAXPROCS _ => false | _ => true end.

(** A computation that returns or exits, and does not block. *)
Definition finishes {A} (m : Proc A) : Prop := m.2 ≠ Blocked.

(** No server name, no flags. *)
Definition unnamed : Viper := mkViper ∅ ∅ ∅ ∅ ∅.

(** A named server that sends tracing data. *)
Definition traced : Viper :=
  mkViper {["server.name" := "signer-1"; "tracing-address" := "jaeger:6831"]} ∅ ∅ ∅ ∅.

(** No server name, and [--version] on the command line. *)
Definition version_only : Viper := mkViper ∅ {["version" := true]} ∅ ∅ ∅.

Definition is_fatal (e : Event) : bool :=
  match e with ELog LFatal _ _ => true | _ => false end.

(** Whether the secret store yields the secret behind a key. *)
Definition fetches (env : Env) (key : string) : bool :=
  match secret env key with inr _ => true | inl _ => false end.

Definition secrets_of (env : Env) (keys : list string) : list string :=
  omap (λ key, match secret env key with inr value => Some value | inl _ => None end) keys.

(** Two wallet passphrases and one account passphrase, all present. *)
Definition three_passphrases : Viper :=
  mkViper {["server.name" := "signer-1"]} ∅
          {["unlocker.wallet-passphrases" := ["wallet-a"; "wallet-b"];
            "unlocker.account-passphrases" := ["account-a"]]} ∅ ∅.

End Vocabulary.

(** ** The vocabulary of the start-up properties *)

Section StartupVocabulary.
Import Go Dirk.

(** A call that returned without error. *)
Definition succeeds {A} (m : Call A) : Prop := ∃ a, m.2 = Return (inr a).

(** A secret that is fetched only when its key is configured. *)
Definition optional_key (key : string) : list string :=
  if is_empty key then [] else [key].

Definition unlocker_keys (v : Viper) : list string :=
  (GetStringSlice v "unlocker.wallet-passphrases"
     ++ GetStringSlice v "unlocker.account-passphrases")%list.

Definition certificate_keys (v : Viper) : list string :=
  ([GetString v "certificates.server-cert"; GetString v "certificates.server-key"]
     ++ optional_key (GetString v "certificates.ca-cert"))%list.

Definition process_keys (v : Viper) : list string :=
  optional_key (GetString v "process.generation-passphrase").

(** What [startServices] needs from the configuration and from the
    world to return without error. *)
Definition services_can_start (v : Viper) (env : Env) : Prop :=
  (∀ x, x ∈ service_calls → failure env x = None) ∧
  stores env ≠ [] ∧
  forallb (fetches env) (unlocker_keys v ++ certificate_keys v ++ process_keys v) = true ∧
  (IsAbs (GetString v "storage-path") = true ∨ ∃ dir, base_of v env = inr dir) ∧
  parses (GetString v "server.id") = true ∧
  forallb (λ e, parses e.1)
          (visit env RangeStartPeers (map_to_list (GetStringMapString v "peers"))) = true.

(** The flags of the commands that [runCommands] runs itself. *)
Definition one_shot (v : Viper) : bool :=
  GetBool v "version" || GetBool v "show-certificates" || GetBool v "show-permissions".

(** The flags of all the commands of [runCommands]. *)
Definition command_requested (v : Viper) : bool :=
  one_shot v || GetBool v "export-slashing-protection"
  || GetBool v "import-slashing-protection".

(** How a computation may end the process: with status 1 exactly when
    it logged a fatal error, and otherwise only with a status that
    satisfies [Q]. *)
Definition exits_on_fatal {A} (Q : Z → Prop) (m : Proc A) : Prop :=
  (existsb is_fatal m.1 = true ↔ m.2 = Exited 1)
  ∧ ∀ code, m.2 = Exited code → code = 1%Z ∨ Q code.

(** The statuses other than 1 with which [main] ends the process: 0
    after a one-shot command, 2 when [pflag.Parse] rejects the
    command line. *)
Definition other_exit (env : Env) (code : Z) : Prop :=
  (code = 0%Z ∧ one_shot (config env) = true)
  ∨ (code = 2%Z ∧ failure env ParseFlags ≠ None).

(** What [startServices] needs to get as far as the construction of
    the API service: everything it needs to return without error,
    but for the outcome of that last constructor. *)
Definition api_can_be_built (v : Viper) (env : Env) : Prop :=
  (∀ x, x ∈ service_calls → x ≠ NewAPI → failure env x = None) ∧
  stores env ≠ [] ∧
  forallb (fetches env) (unlocker_keys v ++ certificate_keys v ++ process_keys v) = true ∧
  (IsAbs (GetString v "storage-path") = true ∨ ∃ dir, base_of v env = inr dir) ∧
  parses (GetString v "server.id") = true ∧
  forallb (λ e, parses e.1)
          (visit env RangeStartPeers (map_to_list (GetStringMapString v "peers"))) = true.

(** The five steps of [main] whose failure is logged at error level,
    each reached only when the steps before it succeeded: the message
    [main] logs and the error it logs with it. *)
Inductive startup_failure (v : Viper) (env : Env) : string → error → Prop :=
| tracing_failed err :
    (initTracing v env).2 = Return (inl err) →
    startup_failure v env "Failed to initialise tracing" err
| bls_failed err :
    succeeds (initTracing v env) →
    failure env InitBLS = Some err →
    startup_failure v env "Failed to initialise BLS library" err
| monitor_failed err :
    succeeds (initTracing v env) →
    failure env InitBLS = None →
    (startMonitor v env).2 = Return (inl err) →
    startup_failure v env "Failed to start metrics service" err
| metrics_failed err :
    succeeds (initTracing v env) →
    failure env InitBLS = None →
    succeeds (startMonitor v env) →
    failure env RegisterMetrics = Some err →
    startup_failure v env "Failed to register metrics" err
| services_failed err :
    succeeds (initTracing v env) →
    failure env InitBLS = None →
    succeeds (startMonitor v env) →
    failure env RegisterMetrics = None →
    (startServices v env).2 = Return (inl err) →
    startup_failure v env "Failed to initialise services" err.

(** What is deferred once [initTracing] has returned: the close of
    the tracer, if one was created. *)
Definition deferred_close (v : Viper) (env : Env) : list Event :=
  match (initTracing v env).2 with
  | Return (inr (Some _)) => [EClose]
  | _ => []
  end.

(** A world in which one external call fails. *)
Definition failing (x : Ext) (err : error) (v : Viper) : Env :=
  mkEnv v (λ y, if decide (y = x) then Some err else None)
        (inr "/home/dirk") 4 (λ key, inr key) ["store"]
        (λ _ entries, entries) [SIGTERM].

(** A computation that runs to its end. *)
Definition returns {A} (m : Proc A) : Prop := ∃ a, m.2 = Return a.

(** The number a string of decimal digits denotes when read after the
    digits of [n]; [None] when a character is not a digit. *)
Fixpoint decimal (s : string) (n : N) : option N :=
  match s with
  | EmptyString => Some n
  | String c rest =>
      match digit c with
      | Some d => decimal rest (n * 10 + d)
      | None => None
      end
  end.

(** The world [env], except that the configuration file is there and
    is read without error. *)
Definition with_configuration_file (env : Env) : Env :=
  mkEnv (config env)
        (λ x, if decide (x = ReadInConfig) then None else failure env x)
        (home env) (NumCPU env) (secret env) (stores env) (visit env) (sigCh env).
(** Whether a string holds a path separator. *)
Fixpoint has_separator (s : string) : bool :=
  match s with
  | EmptyString => false
  | String c rest => Ascii.eqb c "/" || has_separator rest
  end.

(** The name of a file or directory, as opposed to an empty element,
    [.], [..] or something with a separator in it. *)
Definition proper_name (e : string) : Prop :=
  is_empty e = false ∧ e ≠ "." ∧ e ≠ ".." ∧ has_separator e = false.
End StartupVocabulary.

(** * Properties *)

(** ** The rules engine *)

Section RulesFacts.
Import Rules.

Lemma persist_writable st path r :
  writable st = true →
  persist st path r = Some (mkStore (<[path := r]> (records st)) true).
Proof. unfold persist. intros ->. reflexivity. Qed.

Lemma persist_read_only st path r :
  writable st = false → persist st path r = None.
Proof. unfold persist. intros ->. reflexivity. Qed.

Lemma persist_Some st path r st' :
  persist st path r = Some st' →
  writable st = true ∧ writable st' = true ∧
  records st' = <[path := r]> (records st).
Proof.
  unfold persist. destruct (writable st) eqn:W; [|discriminate].
  intros [= <-]. simpl. auto.
Qed.

Lemma stored_persist_same st path r st' :
  persist st path r = Some st' → stored st' path = r.
Proof.
  intros (_ & _ & E)%persist_Some. unfold stored.
  rewrite E, lookup_insert_eq. reflexivity.
Qed.

Lemma stored_persist_other st path r st' other :
  persist st path r = Some st' → other ≠ path → stored st' other = stored st other.
Proof.
  intros (_ & _ & E)%persist_Some Hne. unfold stored.
  rewrite E, lookup_insert_ne by congruence. reflexivity.
Qed.

Lemma at_least_true o n :
  at_least o n = true ↔ ∃ m, o = Some m ∧ (n ≤ m)%N.
Proof.
  destruct o as [m|]; simpl.
  - rewrite N.leb_le. split; [eauto|]. intros (m' & [= ->] & H). exact H.
  - split; [discriminate|]. intros (m' & [=] & _).
Qed.

Lemma above_true o n :
  above o n = true ↔ ∃ m, o = Some m ∧ (n < m)%N.
Proof.
  destruct o as [m|]; simpl.
  - rewrite N.ltb_lt. split; [eauto|]. intros (m' & [= ->] & H). exact H.
  - split; [discriminate|]. intros (m' & [=] & _).
Qed.

Lemma stored_lookup st path r :
  records st !! path = Some r → stored st path = r.
Proof. unfold stored. intros ->. reflexivity. Qed.

Lemma attestation_refused_dec st path source target :
  attestation_refused st path source target ↔
  at_least (latest_attestation_target_epoch (stored st path)) target
  || above (latest_attestation_source_epoch (stored st path)) source
  || (target <? source)%N = true.
Proof.
  unfold attestation_refused.
  rewrite !orb_true_iff, at_least_true, above_true, N.ltb_lt.
  unfold stored. destruct (records st !! path) as [r|] eqn:E; simpl.
  - split.
    + intros [(r' & t0 & [= <-] & H1 & H2)|[(r' & s0 & [= <-] & H1 & H2)|H]]; eauto.
    + intros [[(t0 & H1 & H2)|(s0 & H1 & H2)]|H]; eauto 10.
  - split.
    + intros [(r' & t0 & [=] & _)|[(r' & s0 & [=] & _)|H]]; eauto.
    + intros [[(t0 & [=] & _)|(s0 & [=] & _)]|H]; eauto.
Qed.

Lemma evaluate_attestation_refused st path source target :
  attestation_refused st path source target →
  evaluate_attestation st path source target = (DENIED, st).
Proof.
  rewrite attestation_refused_dec, !orb_true_iff. unfold evaluate_attestation.
  cbv zeta.
  destruct (at_least _ _); [reflexivity|].
  destruct (above _ _); [reflexivity|].
  destruct (_ <? _)%N; [reflexivity|].
  intros [[H|H]|H]; discriminate H.
Qed.

Lemma evaluate_attestation_accepted st path source target :
  ¬ attestation_refused st path source target →
  evaluate_attestation st path source target =
    match persist st path (attested st path source target) with
    | Some st' => (APPROVED, st')
    | None => (ERRORED, st)
    end.
Proof.
  rewrite attestation_refused_dec. unfold evaluate_attestation, attested.
  destruct (at_least _ _); [intros []; reflexivity|].
  destruct (above _ _); [intros []; reflexivity|].
  destruct (_ <? _)%N; [intros []; reflexivity|]. reflexivity.
Qed.

Lemma attestation_refused_or st path source target :
  attestation_refused st path source target ∨
  ¬ attestation_refused st path source target.
Proof.
  rewrite attestation_refused_dec.
  destruct (_ || _ || _); [left; reflexivity|right; discriminate].
Qed.

(** When nothing refuses the attestation, the request's source is the
    larger of the two. *)
Lemma max_existing_source_accepted st path source target :
  ¬ attestation_refused st path source target →
  max_existing_source (latest_attestation_source_epoch (stored st path)) source = source.
Proof.
  rewrite attestation_refused_dec, !orb_true_iff. intros H.
  destruct (latest_attestation_source_epoch (stored st path)) as [s0|] eqn:E;
    simpl; [|reflexivity].
  apply N.max_r. apply N.le_ngt. intros Hlt. apply H. left. right.
  simpl. apply N.ltb_lt. exact Hlt.
Qed.

(** An approval comes with the record already in the store. *)
Lemma evaluate_attestation_approved st path source target :
  (evaluate_attestation st path source target).1 = APPROVED →
  records (evaluate_attestation st path source target).2 !! path
  = Some (attested st path source target).
Proof.
  intros Happ.
  destruct (attestation_refused_or st path source target) as [R|R].
  - rewrite (evaluate_attestation_refused _ _ _ _ R) in Happ. discriminate.
  - rewrite (evaluate_attestation_accepted _ _ _ _ R) in *.
    destruct (persist st path _) as [st'|] eqn:P; [|discriminate].
    apply persist_Some in P as (_ & _ & E). simpl. rewrite E.
    apply lookup_insert_eq.
Qed.

End RulesFacts.

Section AttestationClaims.
Import Rules.

(** C1 (with the failure of persistence).  Every call of
    [evaluate_attestation] on an account path: a stored target epoch
    at or above the request's target refuses it, a stored source
    epoch above the request's source refuses it, and a source above
    the target refuses it, each time leaving the store as it was.
    Otherwise, when the store takes the write, the verdict is
    APPROVED and the record of the path holds (max of the stored and
    the requested source, requested target) in the store the call
    returns; when the store does not take the write, the verdict is
    ERRORED and the store is as it was.  An APPROVED verdict never
    comes without that record being stored. *)
Theorem evaluate_attestation_decision (st : RulesStore) (path : string)
    (source target : N) :
  let res := evaluate_attestation st path source target in
  (∀ r t0, records st !! path = Some r →
           latest_attestation_target_epoch r = Some t0 →
           (target ≤ t0)%N → res = (DENIED, st)) ∧
  (∀ r s0, records st !! path = Some r →
           latest_attestation_source_epoch r = Some s0 →
           (source < s0)%N → res = (DENIED, st)) ∧
  ((target < source)%N → res = (DENIED, st)) ∧
  (¬ attestation_refused st path source target →
     (writable st = true →
        res.1 = APPROVED ∧
        records res.2 !! path = Some (attested st path source target) ∧
        ∀ other, other ≠ path → records res.2 !! other = records st !! other) ∧
     (writable st = false → res = (ERRORED, st))) ∧
  (res.1 = APPROVED →
     records res.2 !! path = Some (attested st path source target) ∧
     latest_attestation_source_epoch (attested st path source target) = Some source).
Proof.
  cbv zeta. split; [|split; [|split; [|split]]].
  - intros r t0 H1 H2 H3. apply evaluate_attestation_refused. left. eauto.
  - intros r s0 H1 H2 H3. apply evaluate_attestation_refused. right. left. eauto.
  - intros H. apply evaluate_attestation_refused. right. right. exact H.
  - intros H. rewrite (evaluate_attestation_accepted _ _ _ _ H). split; intros W.
    + rewrite persist_writable by assumption. simpl.
      split; [reflexivity|]. split; [apply lookup_insert_eq|].
      intros other Hne. apply lookup_insert_ne. congruence.
    + rewrite persist_read_only by assumption. reflexivity.
  - intros Happ.
    destruct (attestation_refused_or st path source target) as [R|R].
    + rewrite (evaluate_attestation_refused _ _ _ _ R) in Happ. discriminate.
    + split.
      * apply evaluate_attestation_approved. exact Happ.
      * unfold attested. simpl. f_equal.
        apply (max_existing_source_accepted _ _ _ _ R).
Qed.

Lemma evaluate_attestation_decision_witness :
  evaluate_attestation (after_5_10 "w1/acct1") "w1/acct1" 5 10
  = (DENIED, after_5_10 "w1/acct1") ∧
  evaluate_attestation (after_5_10 "w1/acct1") "w1/acct1" 4 11
  = (DENIED, after_5_10 "w1/acct1") ∧
  evaluate_attestation fresh_store "w1/acct1" 11 10 = (DENIED, fresh_store) ∧
  (evaluate_attestation (after_5_10 "w1/acct1") "w1/acct1" 6 11).1 = APPROVED ∧
  records (evaluate_attestation (after_5_10 "w1/acct1") "w1/acct1" 6 11).2 !! "w1/acct1"
  = Some (mkRecord None (Some 6%N) (Some 11%N)) ∧
  evaluate_attestation read_only_store "w1/acct1" 5 10 = (ERRORED, read_only_store).
Proof.
  pose proof (evaluate_attestation_decision (after_5_10 "w1/acct1") "w1/acct1" 5 10) as A.
  pose proof (evaluate_attestation_decision (after_5_10 "w1/acct1") "w1/acct1" 4 11) as B.
  pose proof (evaluate_attestation_decision fresh_store "w1/acct1" 11 10) as C.
  pose proof (evaluate_attestation_decision (after_5_10 "w1/acct1") "w1/acct1" 6 11) as D.
  pose proof (evaluate_attestation_decision read_only_store "w1/acct1" 5 10) as E.
  cbv zeta in A, B, C, D, E.
  destruct A as (A & _). destruct B as (_ & B & _). destruct C as (_ & _ & C & _).
  destruct D as (_ & _ & _ & D & _). destruct E as (_ & _ & _ & E & _).
  split; [apply (A (mkRecord None (Some 5%N) (Some 10%N)) 10%N);
          [apply lookup_singleton_eq|reflexivity|lia]|].
  split; [apply (B (mkRecord None (Some 5%N) (Some 10%N)) 5%N);
          [apply lookup_singleton_eq|reflexivity|lia]|].
  split; [apply C; lia|].
  destruct D as [D _]; [rewrite attestation_refused_dec; vm_compute; discriminate|].
  destruct (D eq_refl) as (D1 & D2 & _).
  split; [exact D1|]. split; [rewrite D2; vm_compute; reflexivity|].
  destruct E as [_ E]; [rewrite attestation_refused_dec; vm_compute; discriminate|].
  exact (E eq_refl).
Defined.

(** The claim as worded fails where the store does not take the
    write: a first attestation is not refused, yet the verdict is
    ERRORED, not APPROVED, and nothing is stored. *)
Lemma attestation_on_read_only_store_not_approved :
  ¬ attestation_refused read_only_store "w1/acct1" 5 10 ∧
  evaluate_attestation read_only_store "w1/acct1" 5 10 = (ERRORED, read_only_store) ∧
  (evaluate_attestation read_only_store "w1/acct1" 5 10).1 ≠ APPROVED ∧
  records (evaluate_attestation read_only_store "w1/acct1" 5 10).2 !! "w1/acct1" = None.
Proof.
  split; [rewrite attestation_refused_dec; vm_compute; discriminate|].
  split; [reflexivity|]. split; [discriminate|reflexivity].
Qed.

Lemma first_attestation_5_10 path :
  evaluate_attestation fresh_store path 5 10 = (APPROVED, after_5_10 path).
Proof.
  unfold evaluate_attestation, stored, fresh_store, after_5_10. simpl.
  rewrite lookup_empty. simpl. unfold persist. simpl.
  rewrite insert_empty. reflexivity.
Qed.

Lemma next_attestation_4_11 path :
  evaluate_attestation (after_5_10 path) path 4 11 = (DENIED, after_5_10 path).
Proof.
  apply evaluate_attestation_refused. right. left.
  exists (mkRecord None (Some 5%N) (Some 10%N)), 5%N. unfold after_5_10. simpl.
  rewrite lookup_singleton_eq. split; [reflexivity|]. split; [reflexivity|]. lia.
Qed.

(** The rule on the source epoch at work: after (source 5, target
    10) has been approved on a fresh account, the attestation
    (source 4, target 11) is refused, since the stored source 5 is
    above 4, and the record stays (5, 10). *)
Example attestation_4_11_after_5_10 (path : string) :
  (run fresh_store [(path, Attestation 5 10); (path, Attestation 4 11)]).1
  = [(path, Attestation 5 10, APPROVED); (path, Attestation 4 11, DENIED)].
Proof.
  cbn [run evaluate]. rewrite first_attestation_5_10, next_attestation_4_11. reflexivity.
Qed.
End AttestationClaims.

Section ProposalClaims.
Import Rules.

Lemma proposal_refused_dec st path slot :
  proposal_refused st path slot ↔
  at_least (highest_proposed_slot (stored st path)) slot = true.
Proof.
  unfold proposal_refused. rewrite at_least_true. unfold stored.
  destruct (records st !! path) as [r|]; simpl.
  - split.
    + intros (r' & s0 & [= <-] & H1 & H2). eauto.
    + intros (s0 & H1 & H2). eauto.
  - split.
    + intros (r' & s0 & [=] & _).
    + intros (s0 & [=] & _).
Qed.

Lemma evaluate_proposal_refused st path slot :
  proposal_refused st path slot → evaluate_proposal st path slot = (DENIED, st).
Proof.
  rewrite proposal_refused_dec. unfold evaluate_proposal. cbv zeta.
  intros ->. reflexivity.
Qed.

Lemma evaluate_proposal_accepted st path slot :
  ¬ proposal_refused st path slot →
  evaluate_proposal st path slot =
    match persist st path (proposed st path slot) with
    | Some st' => (APPROVED, st')
    | None => (ERRORED, st)
    end.
Proof.
  rewrite proposal_refused_dec. unfold evaluate_proposal, proposed. cbv zeta.
  destruct (at_least _ _); [intros []; reflexivity|]. reflexivity.
Qed.

Lemma proposal_refused_or st path slot :
  proposal_refused st path slot ∨ ¬ proposal_refused st path slot.
Proof.
  rewrite proposal_refused_dec.
  destruct (at_least _ _); [left; reflexivity|right; discriminate].
Qed.

(** What one evaluation does to the stored slot of [path]: it never
    goes down, and an approved proposal for [path] raises it to the
    proposed slot. *)
Lemma evaluate_slot_step st q req res st1 path :
  evaluate st q req = (res, st1) →
  (∀ s0, highest_proposed_slot (stored st path) = Some s0 →
         ∃ s1, highest_proposed_slot (stored st1 path) = Some s1 ∧ (s0 ≤ s1)%N) ∧
  (∀ s, approved_slot path (q, req, res) = Some s →
        highest_proposed_slot (stored st1 path) = Some s ∧
        ∀ s0, highest_proposed_slot (stored st path) = Some s0 → (s0 < s)%N).
Proof.
  intros E. destruct req as [src tgt|slot|]; simpl in E.
  - (* an attestation keeps the slot *)
    split; [|intros s; simpl; discriminate].
    intros s0 H0.
    destruct (attestation_refused_or st q src tgt) as [R|R].
    + rewrite (evaluate_attestation_refused _ _ _ _ R) in E.
      injection E as <- <-. exists s0. split; [exact H0|lia].
    + rewrite (evaluate_attestation_accepted _ _ _ _ R) in E.
      destruct (persist st q _) as [st'|] eqn:P; injection E as <- <-.
      * exists s0. split; [|lia].
        destruct (decide (path = q)) as [->|Hne].
        -- rewrite (stored_persist_same _ _ _ _ P). exact H0.
        -- rewrite (stored_persist_other _ _ _ _ _ P Hne). exact H0.
      * exists s0. split; [exact H0|lia].
  - destruct (proposal_refused_or st q slot) as [R|R].
    + rewrite (evaluate_proposal_refused _ _ _ R) in E. injection E as <- <-.
      split; [|intros s; simpl; discriminate].
      intros s0 H0. exists s0. split; [exact H0|lia].
    + rewrite (evaluate_proposal_accepted _ _ _ R) in E.
      assert (Hlt : ∀ s0, highest_proposed_slot (stored st q) = Some s0 → (s0 < slot)%N).
      { intros s0 H0. apply N.lt_nge. intros Hle. apply R.
        apply proposal_refused_dec. rewrite H0. simpl. apply N.leb_le. exact Hle. }
      destruct (persist st q _) as [st'|] eqn:P; injection E as <- <-.
      * split.
        -- intros s0 H0. destruct (decide (path = q)) as [->|Hne].
           ++ rewrite (stored_persist_same _ _ _ _ P). simpl.
              exists slot. split; [reflexivity|]. apply N.lt_le_incl. auto.
           ++ rewrite (stored_persist_other _ _ _ _ _ P Hne).
              exists s0. split; [exact H0|lia].
        -- intros s. simpl. destruct (decide (q = path)) as [->|]; [|discriminate].
           intros [= <-]. rewrite (stored_persist_same _ _ _ _ P). simpl.
           split; [reflexivity|exact Hlt].
      * split; [|intros s; simpl; discriminate].
        intros s0 H0. exists s0. split; [exact H0|lia].
  - injection E as <- <-. split; [|intros s; simpl; discriminate].
    intros s0 H0. exists s0. split; [exact H0|lia].
Qed.

Lemma run_cons st q req rest :
  run st ((q, req) :: rest) =
    ((q, req, (evaluate st q req).1) :: (run (evaluate st q req).2 rest).1,
     (run (evaluate st q req).2 rest).2).
Proof.
  simpl. destruct (evaluate st q req) as [res st1]. simpl.
  destruct (run st1 rest) as [log st2]. reflexivity.
Qed.

(** Along a run the approved slots of a path climb strictly, and all
    of them lie above the slot stored at the start. *)
Lemma approved_slots_climb reqs : ∀ st path,
  StronglySorted N.lt (approved_slots path (run st reqs).1) ∧
  ∀ s0, highest_proposed_slot (stored st path) = Some s0 →
        Forall (λ s, (s0 < s)%N) (approved_slots path (run st reqs).1).
Proof.
  induction reqs as [|[q req] rest IH]; intros st path.
  - simpl. split; [constructor|]. intros. constructor.
  - rewrite run_cons. cbn [fst].
    destruct (evaluate st q req) as [res st1] eqn:E. cbn [fst snd].
    destruct (evaluate_slot_step _ _ _ _ _ path E) as [Hmono Happ].
    destruct (IH st1 path) as [Hsorted Hfloor].
    unfold approved_slots in *. cbn [omap list_omap].
    destruct (approved_slot path (q, req, res)) as [s|] eqn:A.
    + destruct (Happ s eq_refl) as [Hs Hlt]. split.
      * constructor; [exact Hsorted|]. apply Hfloor. exact Hs.
      * intros s0 H0. constructor; [apply Hlt; exact H0|].
        eapply Forall_impl; [apply Hfloor; exact Hs|].
        intros x Hx. simpl in *. specialize (Hlt _ H0).
        eapply N.lt_trans; eassumption.
    + split; [exact Hsorted|].
      intros s0 H0. destruct (Hmono s0 H0) as (s1 & H1 & Hle).
      eapply Forall_impl; [apply Hfloor; exact H1|].
      intros x Hx. simpl in *. eapply N.le_lt_trans; eassumption.
Qed.

End ProposalClaims.

Section ProposalTheorem.
Import Rules.

(** C3 (with the failure of persistence).  Every call of
    [evaluate_proposal] on an account path with slot [s]: a stored
    highest proposed slot at or above [s] gives DENIED and leaves the
    record unchanged; otherwise, when the store takes the write, the
    verdict is APPROVED and [s] is stored as the new highest proposed
    slot, and when the store does not take the write, the verdict is
    ERRORED and nothing is changed.  Consequently, in every sequence
    of requests and for every account path, the slots of the approved
    proposals are strictly increasing. *)
Theorem evaluate_proposal_decision (st : RulesStore) (path : string) (slot : N) :
  let res := evaluate_proposal st path slot in
  (∀ r s0, records st !! path = Some r →
           highest_proposed_slot r = Some s0 →
           (slot ≤ s0)%N → res = (DENIED, st)) ∧
  (¬ proposal_refused st path slot →
     (writable st = true →
        res.1 = APPROVED ∧
        records res.2 !! path = Some (proposed st path slot) ∧
        ∀ other, other ≠ path → records res.2 !! other = records st !! other) ∧
     (writable st = false → res = (ERRORED, st))) ∧
  (res.1 = APPROVED →
     highest_proposed_slot (stored res.2 path) = Some slot) ∧
  (∀ st0 reqs account,
     StronglySorted N.lt (approved_slots account (run st0 reqs).1)).
Proof.
  cbv zeta. split; [|split; [|split]].
  - intros r s0 H1 H2 H3. apply evaluate_proposal_refused.
    exists r, s0. auto.
  - intros H. rewrite (evaluate_proposal_accepted _ _ _ H). split; intros W.
    + rewrite persist_writable by assumption. simpl.
      split; [reflexivity|]. split; [apply lookup_insert_eq|].
      intros other Hne. apply lookup_insert_ne. congruence.
    + rewrite persist_read_only by assumption. reflexivity.
  - intros Happ. destruct (proposal_refused_or st path slot) as [R|R].
    + rewrite (evaluate_proposal_refused _ _ _ R) in Happ. discriminate.
    + rewrite (evaluate_proposal_accepted _ _ _ R) in *.
      destruct (persist st path _) as [st'|] eqn:P; [|discriminate].
      simpl. rewrite (stored_persist_same _ _ _ _ P). reflexivity.
  - intros st0 reqs account. apply approved_slots_climb.
Qed.

Lemma evaluate_proposal_decision_witness :
  evaluate_proposal (after_100 "w1/acct1") "w1/acct1" 100
  = (DENIED, after_100 "w1/acct1") ∧
  (evaluate_proposal (after_100 "w1/acct1") "w1/acct1" 101).1 = APPROVED ∧
  highest_proposed_slot
    (stored (evaluate_proposal (after_100 "w1/acct1") "w1/acct1" 101).2 "w1/acct1")
  = Some 101%N ∧
  evaluate_proposal read_only_store "w1/acct1" 100 = (ERRORED, read_only_store) ∧
  approved_slots "w1/acct1"
    (run fresh_store
       [("w1/acct1", Proposal 100); ("w1/acct1", Proposal 100);
        ("w1/acct2", Proposal 7); ("w1/acct1", Proposal 101);
        ("w1/acct1", Proposal 99); ("w1/acct1", Proposal 150)]).1
  = [100%N; 101%N; 150%N] ∧
  StronglySorted N.lt [100%N; 101%N; 150%N].
Proof.
  pose proof (evaluate_proposal_decision (after_100 "w1/acct1") "w1/acct1" 100) as A.
  pose proof (evaluate_proposal_decision (after_100 "w1/acct1") "w1/acct1" 101) as B.
  pose proof (evaluate_proposal_decision read_only_store "w1/acct1" 100) as C.
  cbv zeta in A, B, C.
  destruct A as (A & _). destruct B as (_ & B & B' & S). destruct C as (_ & C & _).
  split; [apply (A (mkRecord (Some 100%N) None None) 100%N);
          [apply lookup_singleton_eq|reflexivity|lia]|].
  destruct B as [B _]; [rewrite proposal_refused_dec; vm_compute; discriminate|].
  destruct (B eq_refl) as (B1 & _).
  split; [exact B1|]. split; [exact (B' B1)|].
  destruct C as [_ C]; [rewrite proposal_refused_dec; vm_compute; discriminate|].
  split; [exact (C eq_refl)|].
  assert (E : approved_slots "w1/acct1"
                (run fresh_store
                   [("w1/acct1", Proposal 100); ("w1/acct1", Proposal 100);
                    ("w1/acct2", Proposal 7); ("w1/acct1", Proposal 101);
                    ("w1/acct1", Proposal 99); ("w1/acct1", Proposal 150)]).1
              = [100%N; 101%N; 150%N]) by (vm_compute; reflexivity).
  split; [exact E|]. rewrite <- E. apply S.
Defined.

Lemma proposal_on_read_only_store_not_approved :
  ¬ proposal_refused read_only_store "w1/acct1" 100 ∧
  evaluate_proposal read_only_store "w1/acct1" 100 = (ERRORED, read_only_store) ∧
  (evaluate_proposal read_only_store "w1/acct1" 100).1 ≠ APPROVED ∧
  highest_proposed_slot
    (stored (evaluate_proposal read_only_store "w1/acct1" 100).2 "w1/acct1") = None.
Proof.
  split; [rewrite proposal_refused_dec; vm_compute; discriminate|].
  split; [reflexivity|]. split; [discriminate|reflexivity].
Qed.

(** Boundary scenario: slot 100 twice on a fresh account. *)
Example proposal_100_twice (path : string) :
  (run fresh_store [(path, Proposal 100); (path, Proposal 100)]).1
  = [(path, Proposal 100, APPROVED); (path, Proposal 100, DENIED)].
Proof.
  rewrite !run_cons. simpl.
  assert (E1 : evaluate_proposal fresh_store path 100
               = (APPROVED, mkStore {[path := mkRecord (Some 100%N) None None]} true)).
  { unfold evaluate_proposal, stored, fresh_store. simpl.
    rewrite lookup_empty. simpl. unfold persist. simpl.
    rewrite insert_empty. reflexivity. }
  rewrite E1. simpl.
  rewrite evaluate_proposal_refused; [reflexivity|].
  exists (mkRecord (Some 100%N) None None), 100%N. simpl.
  rewrite lookup_singleton_eq. split; [reflexivity|]. split; [reflexivity|]. lia.
Qed.
End ProposalTheorem.

(** ** The signing pipeline *)

Section SignerClaims.
Import Rules Signer.

Lemma evaluate_approved_persisted st path req :
  (evaluate st path req).1 = APPROVED →
  persisted st (evaluate st path req).2 path req.
Proof.
  destruct req as [s t|slot|]; simpl; intros H.
  - apply (evaluate_attestation_approved st path s t H).
  - destruct (proposal_refused_or st path slot) as [R|R].
    + rewrite (evaluate_proposal_refused _ _ _ R) in H. discriminate.
    + rewrite (evaluate_proposal_accepted _ _ _ R) in *.
      destruct (persist st path _) as [st'|] eqn:P; [|discriminate].
      apply persist_Some in P as (_ & _ & E). simpl. rewrite E.
      apply lookup_insert_eq.
  - reflexivity.
Qed.

Lemma evaluate_unchanged_unless_approved st path req :
  (evaluate st path req).1 ≠ APPROVED → (evaluate st path req).2 = st.
Proof.
  destruct req as [s t|slot|]; simpl.
  - destruct (attestation_refused_or st path s t) as [R|R].
    + rewrite (evaluate_attestation_refused _ _ _ _ R). reflexivity.
    + rewrite (evaluate_attestation_accepted _ _ _ _ R).
      destruct (persist st path _); simpl; [congruence|reflexivity].
  - destruct (proposal_refused_or st path slot) as [R|R].
    + rewrite (evaluate_proposal_refused _ _ _ R). reflexivity.
    + rewrite (evaluate_proposal_accepted _ _ _ R).
      destruct (persist st path _); simpl; [congruence|reflexivity].
  - congruence.
Qed.

Lemma evaluate_read_only st path req :
  writable st = false → req ≠ Stateless → (evaluate st path req).1 ≠ APPROVED.
Proof.
  intros W Hreq. destruct req as [s t|slot|]; simpl; [| |congruence].
  - destruct (attestation_refused_or st path s t) as [R|R].
    + rewrite (evaluate_attestation_refused _ _ _ _ R). discriminate.
    + rewrite (evaluate_attestation_accepted _ _ _ _ R).
      rewrite persist_read_only by assumption. discriminate.
  - destruct (proposal_refused_or st path slot) as [R|R].
    + rewrite (evaluate_proposal_refused _ _ _ R). discriminate.
    + rewrite (evaluate_proposal_accepted _ _ _ R).
      rewrite persist_read_only by assumption. discriminate.
Qed.

(** The pipeline, step by step. *)
Lemma sign_unfold sv client path req root :
  sign sv client path req root =
    match Checker (permissions sv) client path (operation_of req) with
    | DENY => (DENIED_STATE, None, sv)
    | ALLOW =>
        match accounts sv !! path with
        | None => (NOT_FOUND, None, sv)
        | Some account =>
            if Unlocker (passphrases sv) account then
              let decision := (evaluate (rules sv) path req).1 in
              let sv2 := mkServer (permissions sv)
                           (<[path := mkAccount (account_key account)
                                        (account_passphrase account) true]> (accounts sv))
                           (passphrases sv) (evaluate (rules sv) path req).2 in
              match decision with
              | APPROVED => (SUCCEEDED, Some (mkSignature (account_key account) root), sv2)
              | _ => (state_of decision, None, sv2)
              end
            else (DENIED_STATE, None, sv)
        end
    end.
Proof.
  unfold sign. destruct (Checker _ _ _ _); [|reflexivity].
  destruct (accounts sv !! path) as [account|]; [|reflexivity].
  destruct (Unlocker _ _); simpl; [|reflexivity].
  destruct (evaluate (rules sv) path req) as [decision rules']. reflexivity.
Qed.

(** C4.  In every run of the signing pipeline a signature comes out
    only if the checker said ALLOW, the ruler's verdict was APPROVED
    and the slashing record of the request is in the rules store the
    run leaves behind.  When the rules engine cannot persist its
    update (its verdict is ERRORED) the operation reports INTERNAL,
    gives no signature and leaves the rules store as it was; with a
    store that takes no writes no attestation or proposal is ever
    signed. *)
Theorem signature_needs_allow_approval_persistence
    (sv : Server) (client path : string) (req : Request) (root : N) :
  let out := sign sv client path req root in
  (∀ sig, out.1.2 = Some sig →
     Checker (permissions sv) client path (operation_of req) = ALLOW ∧
     (evaluate (rules sv) path req).1 = APPROVED ∧
     rules out.2 = (evaluate (rules sv) path req).2 ∧
     persisted (rules sv) (rules out.2) path req ∧
     out.1.1 = SUCCEEDED ∧
     ∃ account, accounts sv !! path = Some account ∧
                Unlocker (passphrases sv) account = true ∧
                sig = mkSignature (account_key account) root) ∧
  (∀ account,
     Checker (permissions sv) client path (operation_of req) = ALLOW →
     accounts sv !! path = Some account →
     Unlocker (passphrases sv) account = true →
     (evaluate (rules sv) path req).1 = ERRORED →
     out.1 = (INTERNAL, None) ∧ rules out.2 = rules sv) ∧
  (writable (rules sv) = false → req ≠ Stateless → out.1.2 = None).
Proof.
  cbv zeta. rewrite sign_unfold. split; [|split].
  - intros sig.
    destruct (Checker _ _ _ _) eqn:C; [|simpl; discriminate].
    destruct (accounts sv !! path) as [account|] eqn:A; [|simpl; discriminate].
    destruct (Unlocker _ _) eqn:U; [|simpl; discriminate].
    cbv zeta.
    destruct ((evaluate (rules sv) path req).1) eqn:D; simpl; try discriminate.
    intros [= <-]. split; [reflexivity|]. split; [reflexivity|].
    split; [reflexivity|]. split; [|split; [reflexivity|eauto]].
    apply evaluate_approved_persisted. exact D.
  - intros account C A U D. rewrite C, A, U. cbv zeta. rewrite D. simpl.
    split; [reflexivity|]. apply evaluate_unchanged_unless_approved.
    rewrite D. discriminate.
  - intros W Hreq.
    destruct (Checker _ _ _ _); [|reflexivity].
    destruct (accounts sv !! path) as [account|]; [|reflexivity].
    destruct (Unlocker _ _); [|reflexivity]. cbv zeta.
    pose proof (evaluate_read_only (rules sv) path req W Hreq) as N.
    destruct ((evaluate (rules sv) path req).1); [congruence| |]; reflexivity.
Qed.

Lemma signature_needs_allow_approval_persistence_witness :
  (sign (demo_server true) "client1" "w1/acct1" (Attestation 5 10) 99).1.2
    = Some (mkSignature 7 99)
  ∧ (sign (demo_server false) "client1" "w1/acct1" (Attestation 5 10) 99).1
    = (INTERNAL, None).
Proof.
  split; [vm_compute; reflexivity|].
  pose proof (signature_needs_allow_approval_persistence
                (demo_server false) "client1" "w1/acct1" (Attestation 5 10) 99) as H.
  cbv zeta in H. destruct H as (_ & H & _).
  apply (H (mkAccount 7 "secret" true)); vm_compute; reflexivity.
Defined.

End SignerClaims.

(** ** The entrypoint *)

Section PathFacts.
Import Go Dirk.

Lemma IsAbs_cons c rest : IsAbs (String c rest) = Ascii.eqb c "/".
Proof. reflexivity. Qed.

Lemma IsAbs_app a b : IsAbs a = true → IsAbs (a ++ b) = true.
Proof. destruct a as [|c rest]; [discriminate|]. simpl. auto. Qed.

Lemma is_empty_app a b : is_empty a = false → is_empty (a ++ b) = false.
Proof. destruct a; [discriminate|reflexivity]. Qed.

Lemma IsAbs_not_empty a : IsAbs a = true → is_empty a = false.
Proof. destruct a; [discriminate|reflexivity]. Qed.

(** Cleaning a rooted path gives a rooted path. *)
Lemma Clean_rooted path : IsAbs path = true → IsAbs (Clean path) = true.
Proof.
  intros H. unfold Clean. rewrite (IsAbs_not_empty _ H), H. reflexivity.
Qed.

(** Joining onto a rooted directory gives a rooted path. *)
Lemma Join_rooted dir path : IsAbs dir = true → IsAbs (Join dir path) = true.
Proof.
  intros H. unfold Join. rewrite (IsAbs_not_empty _ H). simpl.
  apply Clean_rooted, IsAbs_app, H.
Qed.

(** An absolute path is returned unchanged. *)
Lemma resolvePath_absolute v env path :
  IsAbs path = true → resolvePath v env path = ([], Return path).
Proof. unfold resolvePath. intros ->. reflexivity. Qed.

Lemma resolvePath_relative v env path :
  IsAbs path = false →
  resolvePath v env path =
    match base_of v env with
    | inr dir => ([], Return (Join dir path))
    | inl err => ([ELog LFatal "Could not determine a home directory" (Some err)], Exited 1)
    end.
Proof.
  unfold resolvePath, base_of. intros ->.
  destruct (is_empty (GetString v "base-dir")); [|reflexivity].
  destruct (home env); reflexivity.
Qed.

(** What [fetchConfig] does, step by step: the command line is
    parsed, the flags are bound, the home directory is looked up when
    no base directory is configured, and the configuration file is
    read; the first of these to fail ends it. *)
Lemma fetchConfig_eq env :
  fetchConfig env
  = match failure env ParseFlags with
    | Some _ => ([ECall ParseFlags], Exited 2)
    | None =>
        match failure env BindPFlags with
        | Some err =>
            ([ECall ParseFlags; ECall BindPFlags],
             Return (inl (Wrap err "failed to bind pflags to viper")))
        | None =>
            match base_of (config env) env with
            | inl err =>
                ([ECall ParseFlags; ECall BindPFlags],
                 Return (inl (Wrap err "failed to obtain home directory")))
            | inr _ =>
                ([ECall ParseFlags; ECall BindPFlags; ECall ReadInConfig],
                 Return (match failure env ReadInConfig with
                         | None | Some ConfigFileNotFoundError => inr (configured env)
                         | Some err => inl (Wrap err "failed to read configuration file")
                         end))
            end
        end
    end.
Proof.
  unfold fetchConfig, read_configuration, pflag_Parse, base_of, configured.
  unfold lift, wrapped, call, emit, os_Exit, ok, fail.
  unfold mbind, mret, Call_bind, Proc_ret, try, Proc_bind.
  destruct (failure env ParseFlags); [reflexivity|].
  destruct (failure env BindPFlags); [reflexivity|]. cbn.
  destruct (is_empty (GetString (config env) "base-dir")); cbn.
  - destruct (home env); [reflexivity|]. cbn.
    destruct (failure env ReadInConfig) as [[]|]; reflexivity.
  - destruct (failure env ReadInConfig) as [[]|]; reflexivity.
Qed.

(** [fetchConfig] returns nil exactly when the command line parses,
    the flags are bound, there is a base directory (configured, or
    the home directory), and the configuration file is read or is
    not there. *)
Lemma fetchConfig_returns_nil env v :
  (fetchConfig env).2 = Return (inr v) ↔
    v = configured env
    ∧ failure env ParseFlags = None
    ∧ failure env BindPFlags = None
    ∧ (∃ dir, base_of (config env) env = inr dir)
    ∧ (failure env ReadInConfig = None
       ∨ failure env ReadInConfig = Some ConfigFileNotFoundError).
Proof.
  rewrite fetchConfig_eq.
  destruct (failure env ParseFlags); cbn [snd].
  { split; [discriminate|]. intros (_ & [=] & _). }
  destruct (failure env BindPFlags); cbn [snd].
  { split; [discriminate|]. intros (_ & _ & [=] & _). }
  destruct (base_of (config env) env) as [err|dir]; cbn [snd].
  { split; [discriminate|]. intros (_ & _ & _ & [dir [=]] & _). }
  destruct (failure env ReadInConfig) as [[]|]; split;
    try discriminate;
    try (intros (_ & _ & _ & _ & [K|K]); discriminate K);
    try (intros [= <-]; repeat split; eauto);
    intros (-> & _); reflexivity.
Qed.

(** After [fetchConfig], a storage path that nobody configured reads
    as ["storage"]. *)
Lemma fetchConfig_default_storage_path env v :
  (fetchConfig env).2 = Return (inr v) →
  v = SetDefault (config env) "storage-path" "storage" ∧
  (set_strings (config env) !! "storage-path" = None →
   GetString v "storage-path" = "storage").
Proof.
  intros H. apply fetchConfig_returns_nil in H as [-> _].
  split; [reflexivity|]. intros N. unfold GetString, configured, SetDefault. simpl.
  rewrite N, lookup_insert_eq. reflexivity.
Qed.

(** C10 (where the code falls short).  With [base-dir] set to the
    relative directory [conf] and no storage path configured, the
    storage path reads ["storage"], [resolvePath] returns the relative
    path [conf/storage] for it, and resolving that result again gives
    [conf/conf/storage]: the rules store location is not absolute and
    [resolvePath] is not idempotent there. *)
Theorem resolvePath_relative_base_dir (env : Env) :
  GetString relative_base_dir "storage-path" = "storage" ∧
  resolvePath relative_base_dir env "storage" = ([], Return "conf/storage") ∧
  IsAbs "conf/storage" = false ∧
  resolvePath relative_base_dir env "conf/storage" = ([], Return "conf/conf/storage").
Proof. repeat split; vm_compute; reflexivity. Qed.

(** X1.  When the base directory in force (the configured [base-dir],
    or else the home directory) is absolute, [resolvePath] logs
    nothing and returns its input as it is when that is absolute,
    and otherwise the input joined onto the base directory; either
    way the result is absolute, and resolving it again returns it
    unchanged. *)
Theorem resolvePath_absolute_base_dir v env path dir :
  base_of v env = inr dir → IsAbs dir = true →
  resolvePath v env path
  = ([], Return (if IsAbs path then path else Join dir path)) ∧
  IsAbs (if IsAbs path then path else Join dir path) = true ∧
  resolvePath v env (if IsAbs path then path else Join dir path)
  = ([], Return (if IsAbs path then path else Join dir path)).
Proof.
  intros B A. destruct (IsAbs path) eqn:P.
  - rewrite resolvePath_absolute by assumption. auto.
  - rewrite resolvePath_relative, B by assumption.
    split; [reflexivity|]. split; [apply Join_rooted, A|].
    apply resolvePath_absolute, Join_rooted, A.
Qed.

Lemma resolvePath_absolute_base_dir_witness :
  base_of unnamed (quiet_env unnamed) = inr "/home/dirk" ∧
  IsAbs "/home/dirk" = true ∧
  resolvePath unnamed (quiet_env unnamed) "storage"
  = ([], Return "/home/dirk/storage") ∧
  resolvePath unnamed (quiet_env unnamed) "/home/dirk/storage"
  = ([], Return "/home/dirk/storage") ∧
  resolvePath unnamed (quiet_env unnamed) "/etc/dirk/storage"
  = ([], Return "/etc/dirk/storage").
Proof.
  split; [reflexivity|]. split; [reflexivity|].
  destruct (resolvePath_absolute_base_dir unnamed (quiet_env unnamed)
              "storage" "/home/dirk" eq_refl eq_refl) as (H1 & _ & H2).
  destruct (resolvePath_absolute_base_dir unnamed (quiet_env unnamed)
              "/etc/dirk/storage" "/home/dirk" eq_refl eq_refl) as (H3 & _ & _).
  split; [exact H1|]. split; [exact H2|exact H3].
Defined.

(** X2.  When [fetchConfig] returns nil, the configuration it leaves
    is what the user configured with ["storage"] registered as the
    default of [storage-path]: that key reads ["storage"] when nobody
    configured it, and reads the configured value otherwise. *)
Theorem storage_path_defaults_to_storage env v :
  (fetchConfig env).2 = Return (inr v) →
  v = SetDefault (config env) "storage-path" "storage" ∧
  (set_strings (config env) !! "storage-path" = None →
   GetString v "storage-path" = "storage") ∧
  (∀ path, set_strings (config env) !! "storage-path" = Some path →
           GetString v "storage-path" = path).
Proof.
  intros H. destruct (fetchConfig_default_storage_path env v H) as [E D].
  split; [exact E|]. split; [exact D|].
  intros path S. subst v. unfold GetString, SetDefault. simpl. rewrite S. reflexivity.
Qed.

Lemma storage_path_defaults_to_storage_witness :
  (fetchConfig (quiet_env unnamed)).2
    = Return (inr (SetDefault unnamed "storage-path" "storage")) ∧
  GetString (SetDefault unnamed "storage-path" "storage") "storage-path" = "storage".
Proof.
  split; [reflexivity|].
  destruct (storage_path_defaults_to_storage (quiet_env unnamed)
              (SetDefault unnamed "storage-path" "storage") eq_refl) as (_ & H & _).
  apply H. reflexivity.
Defined.

End PathFacts.

Section PeersFacts.
Import Go Dirk.

Lemma parsed_cons_ok k v rest id :
  ParseUint k = inr id → parsed ((k, v) :: rest) = (id, v) :: parsed rest.
Proof. unfold parsed, parsed_entry. simpl. intros ->. reflexivity. Qed.

Lemma parsed_cons_bad k v rest err :
  ParseUint k = inl err → parsed ((k, v) :: rest) = parsed rest.
Proof. unfold parsed, parsed_entry. simpl. intros ->. reflexivity. Qed.

(** [startPeers]: all keys parse and the map is assigned in order, or
    the first key that does not parse ends the loop with an error. *)
Lemma startPeers_loop_ok entries : ∀ m,
  forallb (λ e, parses e.1) entries = true →
  startPeers_loop entries m = inr (assign m (parsed entries)).
Proof.
  induction entries as [|[k v] rest IH]; intros m H; [reflexivity|].
  cbn [forallb fst] in H. apply andb_true_iff in H as [Hk H].
  unfold parses in Hk. cbn [startPeers_loop].
  destruct (ParseUint k) as [err|id] eqn:P; [discriminate|].
  rewrite (parsed_cons_ok _ _ _ _ P). rewrite IH by exact H. reflexivity.
Qed.

Lemma startPeers_loop_bad entries : ∀ m,
  forallb (λ e, parses e.1) entries = false →
  ∃ err, startPeers_loop entries m = inl (Wrap err "failed to parse peers info").
Proof.
  induction entries as [|[k v] rest IH]; intros m H; [discriminate|].
  cbn [forallb fst] in H. unfold parses at 1 in H. cbn [startPeers_loop].
  destruct (ParseUint k) as [err|id] eqn:P.
  - exists err. reflexivity.
  - apply IH. exact H.
Qed.

(** The loop of [startServices] always runs to the end: it assigns
    the entries that parse and logs one error for each that does not. *)
Lemma endpoints_loop_result entries : ∀ m,
  (endpoints_loop entries m).2 = Return (assign m (parsed entries)) ∧
  length (endpoints_loop entries m).1
  = length (filter (λ e, parses e.1 = false) entries) ∧
  (forallb (λ e, parses e.1) entries = true → (endpoints_loop entries m).1 = []).
Proof.
  induction entries as [|[k v] rest IH]; intros m.
  - repeat split.
  - cbn [endpoints_loop forallb fst]. rewrite filter_cons. cbn [fst].
    destruct (ParseUint k) as [err|id] eqn:P.
    + assert (Hk : parses k = false) by (unfold parses; rewrite P; reflexivity).
      rewrite (parsed_cons_bad _ _ _ _ P), Hk.
      destruct (IH m) as (H1 & H2 & H3).
      rewrite decide_True by reflexivity.
      unfold mbind, Proc_bind, emit. cbn [fst snd]. cbv zeta. cbn [fst snd app length].
      split; [exact H1|]. split; [f_equal; exact H2|discriminate].
    + assert (Hk : parses k = true) by (unfold parses; rewrite P; reflexivity).
      rewrite (parsed_cons_ok _ _ _ _ P), Hk.
      destruct (IH (<[id := v]> m)) as (H1 & H2 & H3).
      rewrite decide_False by discriminate. cbn [andb]. auto.
Qed.

(** With pairwise distinct ids the order of assignment is immaterial. *)
Lemma assign_list_to_map kvs : ∀ m,
  NoDup kvs.*1 → assign m kvs = list_to_map kvs ∪ m.
Proof.
  induction kvs as [|[id v] rest IH]; intros m; simpl.
  - intros _. rewrite (left_id_L ∅ (∪)). reflexivity.
  - intros [Hnotin Hrest]%NoDup_cons. unfold assign in *. simpl.
    rewrite IH by exact Hrest.
    rewrite <- insert_union_l. symmetry. apply insert_union_r.
    apply not_elem_of_list_to_map_1. exact Hnotin.
Qed.

Lemma assign_permutation l1 l2 :
  l1 ≡ₚ l2 → NoDup (parsed l1).*1 →
  assign ∅ (parsed l1) = assign ∅ (parsed l2).
Proof.
  intros Hp Hnd.
  assert (Hpp : parsed l1 ≡ₚ parsed l2) by (unfold parsed; rewrite Hp; reflexivity).
  rewrite !assign_list_to_map; [|rewrite <- Hpp; exact Hnd|exact Hnd].
  rewrite (list_to_map_proper _ _ Hnd Hpp). reflexivity.
Qed.

Lemma forallb_permutation {A} (f : A → bool) l1 l2 :
  l1 ≡ₚ l2 → forallb f l1 = forallb f l2.
Proof.
  induction 1; simpl; try congruence.
  destruct (f x), (f y); reflexivity.
Qed.

End PeersFacts.

Section PeersClaim.
Import Go Dirk.

Lemma endpoints_loop_logs entries : ∀ m,
  forallb (λ e, parses e.1) entries = false → (endpoints_loop entries m).1 ≠ [].
Proof.
  induction entries as [|[k v] rest IH]; intros m H; [discriminate|].
  cbn [forallb fst] in H. cbn [endpoints_loop].
  destruct (ParseUint k) as [err|id] eqn:P.
  - unfold mbind, Proc_bind, emit. cbn [fst snd]. cbv zeta. discriminate.
  - assert (Hk : parses k = true) by (unfold parses; rewrite P; reflexivity).
    rewrite Hk in H. apply IH. exact H.
Qed.

Lemma endpoints_loop_quiet entries m :
  forallb (λ e, parses e.1) entries = true →
  endpoints_loop entries m = ([], Return (assign m (parsed entries))).
Proof.
  intros H. destruct (endpoints_loop_result entries m) as (H1 & _ & H3).
  destruct (endpoints_loop entries m) as [log status]. simpl in *.
  rewrite H1, (H3 H). reflexivity.
Qed.

(** C9 (as the code behaves).  The two loops over the peers map,
    each visiting its entries in an order of its own.  When some key
    does not parse as a uint64, [startPeers] returns the error
    "failed to parse peers info" without constructing the peers
    service, whereas the loop of [startServices] logs the entry,
    skips it and finishes with the map of the entries that parse.
    When every key parses, each loop ends with the map assigned in
    its order of visit; the two maps are equal when the loops visit
    the entries in the same order, and in any orders when the parsed
    ids are pairwise distinct. *)
Theorem peers_loops_compared (v : Viper) (env : Env) :
  fair_ranges env →
  let peers := map_to_list (GetStringMapString v "peers") in
  let visited1 := visit env RangeStartPeers peers in
  let visited2 := visit env RangeStartServices peers in
  (forallb (λ e, parses e.1) peers = false →
     (∃ err, startPeers v env
             = ([], Return (inl (Wrap err "failed to parse peers info")))) ∧
     (endpoints_loop visited2 ∅).2 = Return (assign ∅ (parsed visited2)) ∧
     (endpoints_loop visited2 ∅).1 ≠ []) ∧
  (forallb (λ e, parses e.1) peers = true →
     startPeers_loop visited1 ∅ = inr (assign ∅ (parsed visited1)) ∧
     endpoints_loop visited2 ∅ = ([], Return (assign ∅ (parsed visited2))) ∧
     (visited1 = visited2 ∨ NoDup (parsed peers).*1 →
      assign ∅ (parsed visited1) = assign ∅ (parsed visited2))).
Proof.
  intros Hfair. cbv zeta.
  pose proof (Hfair RangeStartPeers (map_to_list (GetStringMapString v "peers"))) as P1.
  pose proof (Hfair RangeStartServices (map_to_list (GetStringMapString v "peers"))) as P2.
  split; intros H.
  - rewrite <- (forallb_permutation _ _ _ P1) in H.
    pose proof H as H'. rewrite (forallb_permutation _ _ _ P1) in H'.
    rewrite <- (forallb_permutation _ _ _ P2) in H'.
    split; [|split].
    + destruct (startPeers_loop_bad _ ∅ H) as [err E]. exists err.
      unfold startPeers. rewrite E. reflexivity.
    + apply endpoints_loop_result.
    + apply endpoints_loop_logs. exact H'.
  - pose proof H as H1. rewrite <- (forallb_permutation _ _ _ P1) in H1.
    pose proof H as H2. rewrite <- (forallb_permutation _ _ _ P2) in H2.
    split; [apply startPeers_loop_ok; exact H1|].
    split; [apply endpoints_loop_quiet; exact H2|].
    intros [->|Hnd]; [reflexivity|].
    rewrite (assign_permutation _ _ P1).
    + symmetry. apply (assign_permutation _ _ P2).
      unfold parsed. rewrite P2. exact Hnd.
    + unfold parsed. rewrite P1. exact Hnd.
Qed.

Lemma peers_loops_compared_witness :
  fair_ranges (quiet_env one_peer) ∧
  startPeers_loop (map_to_list (GetStringMapString one_peer "peers")) ∅
  = inr (assign ∅ (parsed (map_to_list (GetStringMapString one_peer "peers")))).
Proof.
  assert (F : fair_ranges (quiet_env one_peer)) by (intros site entries; reflexivity).
  split; [exact F|].
  pose proof (peers_loops_compared one_peer (quiet_env one_peer) F) as H.
  cbv zeta in H. destruct H as [_ H].
  destruct H as (H & _); [vm_compute; reflexivity|exact H].
Defined.

(** Two keys for one id: ["1"] and ["01"] both parse to 1, and the
    entry that survives is the one visited last.  Visiting the map
    in opposite orders, the two loops end with different maps. *)
Lemma aliased_peer_ids_disagree :
  let peers : gmap string string := {["1" := "a:13141"; "01" := "b:13141"]} in
  let order1 := [("1", "a:13141"); ("01", "b:13141")] in
  let order2 := [("01", "b:13141"); ("1", "a:13141")] in
  order1 ≡ₚ map_to_list peers ∧ order2 ≡ₚ map_to_list peers ∧
  forallb (λ e, parses e.1) (map_to_list peers) = true ∧
  startPeers_loop order1 ∅ = inr {[1%N := "b:13141"]} ∧
  endpoints_loop order2 ∅ = ([], Return {[1%N := "a:13141"]}) ∧
  ({[1%N := "b:13141"]} : gmap N string) ≠ {[1%N := "a:13141"]}.
Proof.
  cbv zeta.
  assert (E : map_to_list ({["1" := "a:13141"; "01" := "b:13141"]} : gmap string string)
              = [("1", "a:13141"); ("01", "b:13141")]
            ∨ map_to_list ({["1" := "a:13141"; "01" := "b:13141"]} : gmap string string)
              = [("01", "b:13141"); ("1", "a:13141")]).
  { vm_compute. first [left; reflexivity | right; reflexivity]. }
  split; [|split; [|split; [|split; [|split]]]].
  - destruct E as [-> | ->]; [reflexivity|apply perm_swap].
  - destruct E as [-> | ->]; [apply perm_swap|reflexivity].
  - destruct E as [-> | ->]; vm_compute; reflexivity.
  - cbn [startPeers_loop].
    change (ParseUint "1") with (inr 1%N : error + N).
    change (ParseUint "01") with (inr 1%N : error + N).
    cbn [startPeers_loop]. rewrite insert_insert_eq, insert_empty. reflexivity.
  - cbn [endpoints_loop].
    change (ParseUint "1") with (inr 1%N : error + N).
    change (ParseUint "01") with (inr 1%N : error + N).
    cbn [endpoints_loop]. rewrite insert_insert_eq, insert_empty. reflexivity.
  - intros H. apply (f_equal (λ m : gmap N string, m !! 1%N)) in H.
    rewrite !lookup_singleton_eq in H. discriminate.
Qed.

End PeersClaim.

Section ProcFacts.
Import Go Dirk.

Lemma bind_trace {A B} (m : Proc A) (f : A → Proc B) :
  (Proc_bind A B f m).1
  = (m.1 ++ match m.2 with Return a => (f a).1 | _ => [] end)%list.
Proof.
  unfold Proc_bind. destruct m as [t [a|code|]]; simpl;
    rewrite ?app_nil_r; reflexivity.
Qed.

Lemma bind_status {A B} (m : Proc A) (f : A → Proc B) :
  (Proc_bind A B f m).2
  = match m.2 with
    | Return a => (f a).2
    | Exited code => Exited code
    | Blocked => Blocked
    end.
Proof. unfold Proc_bind. destruct m as [t [a|code|]]; reflexivity. Qed.

Lemma bind_return {A B} t (a : A) (f : A → Proc B) :
  Proc_bind A B f (t, Return a) = ((t ++ (f a).1)%list, (f a).2).
Proof. reflexivity. Qed.

Lemma bind_exited {A B} t code (f : A → Proc B) :
  Proc_bind A B f (t, Exited code) = (t, Exited code).
Proof. reflexivity. Qed.

Lemma bind_blocked {A B} t (f : A → Proc B) :
  Proc_bind A B f (t, Blocked) = (t, Blocked).
Proof. reflexivity. Qed.

Lemma only_bind {A B} P (m : Proc A) (f : A → Proc B) :
  only P m → (∀ a, m.2 = Return a → only P (f a)) → only P (Proc_bind A B f m).
Proof.
  unfold only. intros Hm Hf. rewrite bind_trace, forallb_app, Hm. simpl.
  destruct m.2 as [a|code|]; [apply Hf; reflexivity|reflexivity|reflexivity].
Qed.

Lemma only_mbind {A B} P (m : Proc A) (f : A → Proc B) :
  only P m → (∀ a, m.2 = Return a → only P (f a)) → only P (m ≫= f).
Proof. apply only_bind. Qed.

Lemma only_try {A B} P (m : Call A) (k : A → Call B) :
  only P m → (∀ a, m.2 = Return (inr a) → only P (k a)) → only P (try m k).
Proof.
  intros Hm Hk. unfold try. apply only_bind; [exact Hm|].
  intros [err|a] E; [reflexivity|]. apply Hk. exact E.
Qed.

Lemma only_cbind {A B} P (m : Call A) (k : A → Call B) :
  only P m → (∀ a, m.2 = Return (inr a) → only P (k a)) → only P (m ≫= k).
Proof. apply only_try. Qed.

Lemma only_nil {A} P (s : Status A) : only P (([], s) : Proc A).
Proof. reflexivity. Qed.

Lemma only_emit P e : P e = true → only P (emit e).
Proof. unfold only. simpl. intros ->. reflexivity. Qed.

Lemma only_Fatal {A} P msg err :
  P (ELog LFatal msg err) = true → only P (Fatal msg err : Proc A).
Proof. unfold only. simpl. intros ->. reflexivity. Qed.

Lemma only_call P env x : P (ECall x) = true → only P (call env x).
Proof.
  intros H. unfold call. apply only_bind; [apply only_emit, H|].
  intros _ _. destruct (failure env x); reflexivity.
Qed.

Lemma only_Fetch P env key : P (EFetch key) = true → only P (Fetch env key).
Proof.
  intros H. unfold Fetch. apply only_bind; [apply only_emit, H|]. reflexivity.
Qed.

Lemma only_wrapped {A} P msg (m : Call A) : only P m → only P (wrapped msg m).
Proof.
  intros H. unfold wrapped. apply only_bind; [exact H|].
  intros [err|a] _; reflexivity.
Qed.

Lemma only_lift {A} P (m : Proc A) : only P m → only P (lift m).
Proof. intros H. unfold lift. apply only_bind; [exact H|]. reflexivity. Qed.

Lemma only_go {A} P (m : Proc A) : (∀ e, P (EGo e) = true) → only P (go m).
Proof.
  intros H. unfold only, go. cbn [fst]. induction m.1 as [|e t IH]; [reflexivity|].
  cbn [fmap list_fmap forallb]. rewrite H. exact IH.
Qed.

Lemma only_or_fatal {A} P msg (m : Call A) :
  (∀ err, P (ELog LFatal msg err) = true) → only P m → only P (or_fatal msg m).
Proof.
  intros HF H. unfold or_fatal. apply only_bind; [exact H|].
  intros [err|a] _; [apply only_Fatal, HF|reflexivity].
Qed.

Lemma only_weaken {A} (P Q : Event → bool) (m : Proc A) :
  (∀ e, P e = true → Q e = true) → only P m → only Q m.
Proof.
  unfold only. intros H. induction m.1 as [|e t IH]; simpl; [reflexivity|].
  intros [He Ht]%andb_true_iff. rewrite (H e He), (IH Ht). reflexivity.
Qed.

(** Events of one kind leave no trace under a projection that
    ignores that kind. *)
Lemma omap_only {B} (P : Event → bool) (g : Event → option B) t :
  (∀ e, P e = true → g e = None) → forallb P t = true → omap g t = [].
Proof.
  intros H. induction t as [|e t IH]; simpl; [reflexivity|].
  intros [He Ht]%andb_true_iff. rewrite (H e He). apply IH, Ht.
Qed.

Lemma not_in_only (P : Event → bool) t e :
  forallb P t = true → P e = false → e ∉ t.
Proof.
  intros Ht He Hin. rewrite forallb_forall in Ht.
  apply list_elem_of_In in Hin. rewrite (Ht e Hin) in He. discriminate.
Qed.

End ProcFacts.

Section EventKinds.
Import Go Dirk.

Ltac only_step :=
  first
    [ apply only_nil
    | apply only_emit; reflexivity
    | apply only_Fatal; reflexivity
    | apply only_call; reflexivity
    | apply only_Fetch; reflexivity
    | apply only_wrapped
    | apply only_lift
    | apply only_or_fatal; [intros; reflexivity|]
    | apply only_cbind; [|intros ? _]
    | apply only_mbind; [|intros ? _]
    | apply only_try; [|intros ? _]
    | apply only_bind; [|intros ? _]
    | case_match
    | reflexivity ].

Lemma resolvePath_only P v env path :
  (∀ msg err, P (ELog LFatal msg err) = true) → only P (resolvePath v env path).
Proof.
  intros HF. unfold resolvePath. destruct (IsAbs path); [reflexivity|].
  apply only_mbind; [|intros; reflexivity].
  destruct (is_empty _); [|reflexivity].
  destruct (home env); [apply only_Fatal, HF|reflexivity].
Qed.

Lemma fetchConfig_only env : only preflight_event (fetchConfig env).
Proof. unfold fetchConfig. repeat only_step. Qed.

Lemma initMajordomo_only v env : only preflight_event (initMajordomo v env).
Proof.
  unfold initMajordomo.
  repeat first [apply resolvePath_only; intros; reflexivity | only_step].
Qed.

Lemma runCommands_only v env : only preflight_event (runCommands v env).
Proof. unfold runCommands, run_to_exit, os_Exit. repeat only_step. Qed.

Lemma main_preflight_only env : only preflight_event (main_preflight env).
Proof.
  unfold main_preflight.
  repeat first [ apply fetchConfig_only | apply initMajordomo_only
               | apply runCommands_only | only_step ].
Qed.

Lemma main_initialise_only v env : only initialise_event (main_initialise v env).
Proof.
  unfold main_initialise, initTracing, initProfiling, logModules.
  repeat first [apply only_go; reflexivity | only_step].
Qed.

Lemma fetch_passphrases_only env msg keys : ∀ acc,
  only service_event (fetch_passphrases env msg keys acc).
Proof.
  induction keys as [|key rest IH]; intros acc; simpl; [reflexivity|].
  apply only_cbind; [repeat only_step|]. intros value _. apply IH.
Qed.

Lemma endpoints_loop_only entries : ∀ m,
  only service_event (endpoints_loop entries m).
Proof.
  induction entries as [|[k v] rest IH]; intros m; simpl; [reflexivity|].
  destruct (ParseUint k); [|apply IH].
  apply only_mbind; [apply only_emit; reflexivity|]. intros _ _. apply IH.
Qed.

Lemma startServices_only v env : only service_event (startServices v env).
Proof.
  unfold startServices, initStores, startUnlocker, startChecker, startFetcher,
    startLocker, startRuler, initRules, startLister, startPeers, optional_secret.
  repeat first [ apply fetch_passphrases_only | apply endpoints_loop_only
               | apply resolvePath_only; intros; reflexivity | only_step ].
Qed.

Lemma wait_for_signal_only sigs : only signal_event (wait_for_signal sigs).
Proof.
  induction sigs as [|sig rest IH]; simpl; [reflexivity|].
  apply only_mbind; [apply only_emit; reflexivity|]. intros _ _.
  destruct (stops sig); [apply only_emit; reflexivity|exact IH].
Qed.

End EventKinds.

Section MainFacts.
Import Go Dirk.

Lemma preflight_before_services e : preflight_event e = true → before_services e = true.
Proof. destruct e as [| |x| | | | | | | | | |]; try (intros; reflexivity || discriminate).
       destruct x; vm_compute; congruence. Qed.

Lemma initialise_before_services e : initialise_event e = true → before_services e = true.
Proof. destruct e as [| |x| | | | | | | | | |]; try (intros; reflexivity || discriminate).
       destruct x; vm_compute; congruence. Qed.

Lemma forallb_imp t (P Q : Event → bool) :
  forallb P t = true → (∀ e, P e = true → Q e = true) → forallb Q t = true.
Proof.
  intros Ht H. induction t as [|e t IH]; simpl in *; [reflexivity|].
  apply andb_true_iff in Ht as [He Ht]. rewrite (H e He), (IH Ht). reflexivity.
Qed.

Lemma before_services_readiness t :
  forallb before_services t = true → readiness t = [].
Proof. apply omap_only. intros [] H; try reflexivity. discriminate. Qed.

Lemma before_services_no_service t x :
  forallb before_services t = true → x ∈ service_calls → ECall x ∉ t.
Proof.
  intros Ht Hx. apply (not_in_only _ _ _ Ht). simpl.
  rewrite bool_decide_eq_true_2 by exact Hx. reflexivity.
Qed.

Lemma service_readiness t : forallb service_event t = true → readiness t = [].
Proof. apply omap_only. intros [] H; try reflexivity. discriminate. Qed.

Lemma signal_readiness t : forallb signal_event t = true → readiness t = [].
Proof. apply omap_only. intros [] H; try reflexivity. discriminate. Qed.

Lemma startMonitor_only_of P v env :
  (∀ level msg err, P (ELog level msg err) = true) →
  P (ECall NewPrometheus) = true →
  only P (startMonitor v env).
Proof.
  intros HL HC. unfold startMonitor.
  repeat first
    [ apply only_nil | apply only_emit, HL | apply only_call, HC
    | apply only_wrapped | apply only_lift
    | apply only_cbind; [|intros ? _] | case_match | reflexivity ].
Qed.

Lemma startMonitor_only v env : only before_services (startMonitor v env).
Proof. apply startMonitor_only_of; reflexivity. Qed.

Lemma wait_for_signal_eq sigCh :
  wait_for_signal sigCh =
    if existsb stops sigCh
    then ((ESignal <$> received sigCh) ++ [ECancel], Return tt)%list
    else (ESignal <$> received sigCh, Blocked).
Proof.
  induction sigCh as [|sig rest IH]; [reflexivity|].
  cbn [wait_for_signal existsb received].
  destruct (stops sig) eqn:S; [reflexivity|].
  change (emit (ESignal sig) ;; wait_for_signal rest)
    with (Proc_bind _ _ (λ _, wait_for_signal rest) (emit (ESignal sig))).
  unfold emit. rewrite bind_return, IH. cbn [orb].
  destruct (existsb stops rest); reflexivity.
Qed.

Lemma stops_iff sig : stops sig = true ↔ sig = SIGINT ∨ sig = SIGTERM ∨ sig = SIGKILL.
Proof. destruct sig; vm_compute; intuition congruence. Qed.

Lemma GetString_SetDefault_other v key value other :
  other ≠ key → GetString (SetDefault v key value) other = GetString v other.
Proof.
  intros H. unfold GetString, SetDefault. simpl.
  rewrite lookup_insert_ne by congruence. reflexivity.
Qed.

Lemma or_fatal_status {A} msg (m : Call A) a :
  (or_fatal msg m).2 = Return a → m.2 = Return (inr a).
Proof.
  unfold or_fatal. rewrite bind_status.
  destruct m.2 as [[err|a']|code|]; simpl; congruence.
Qed.

Lemma main_preflight_returns env v :
  (main_preflight env).2 = Return v → v = configured env.
Proof.
  unfold main_preflight.
  change (?m ≫= ?f) with (Proc_bind _ _ f m).
  rewrite bind_status.
  destruct ((or_fatal "Failed to fetch configuration" (fetchConfig env)).2)
    as [v0|code|] eqn:E; [|discriminate|discriminate].
  apply or_fatal_status in E.
  apply fetchConfig_default_storage_path in E as [-> _].
  repeat (rewrite bind_status; case_match; try discriminate).
  intros [= <-]. reflexivity.
Qed.

End MainFacts.

Section MainShape.
Import Go Dirk.

Lemma defer_return {A} closing t (a : A) :
  defer closing (t, Return a) = ((t ++ closing)%list, Return a).
Proof. reflexivity. Qed.

Lemma defer_exited {A} closing t code :
  defer closing ((t, Exited code) : Proc A) = (t, Exited code).
Proof. reflexivity. Qed.

Lemma defer_blocked {A} closing t :
  defer closing ((t, Blocked) : Proc A) = (t, Blocked).
Proof. reflexivity. Qed.

Ltac run_proc :=
  repeat (first [ rewrite bind_return | rewrite bind_exited | rewrite bind_blocked
                | rewrite defer_return | rewrite defer_exited | rewrite defer_blocked ];
          cbn [fst snd app]).

Ltac same_trace :=
  f_equal; simpl; repeat (rewrite <- app_assoc; simpl);
  rewrite ?app_nil_r; reflexivity.

Lemma main_deferred_shape v env closing :
  forallb before_services closing = true →
  forallb before_services (defer closing (main_deferred v env)).1 = true
  ∨ ∃ pre, forallb before_services pre = true ∧
      defer closing (main_deferred v env) =
        ((pre ++ ESetReady false :: (startServices v env).1
            ++ (after_services env (startServices v env).2 closing).1)%list,
         (after_services env (startServices v env).2 closing).2).
Proof.
  intros Hc. unfold main_deferred, or_return, call, fail, ok, mbind, emit.
  run_proc.
  destruct (failure env InitBLS) as [err|]; run_proc.
  { left. simpl. exact Hc. }
  pose proof (startMonitor_only v env) as Hm. unfold only in Hm.
  destruct (startMonitor v env) as [t2 [[err|monitor]|code|]];
    cbn [fst snd] in Hm; run_proc.
  { left. simpl. rewrite !forallb_app, Hm, Hc. reflexivity. }
  2:{ left. simpl. rewrite ?app_nil_r, ?forallb_app, ?Hm. reflexivity. }
  2:{ left. simpl. rewrite ?app_nil_r, ?forallb_app, ?Hm. reflexivity. }
  destruct (failure env RegisterMetrics) as [err|]; run_proc.
  { left. simpl. rewrite !forallb_app, Hm, Hc. reflexivity. }
  right. exists ([EGOMAXPROCS (int_mul (NumCPU env) 8); ECall InitBLS] ++ t2
                 ++ [ECall RegisterMetrics; ESetRelease ReleaseVersion])%list.
  split; [simpl; rewrite forallb_app, Hm; reflexivity|].
  destruct (startServices v env) as [t3 [[err|[]]|code|]];
    cbn [fst snd after_services]; run_proc.
  - same_trace.
  - rewrite wait_for_signal_eq.
    destruct (existsb stops (sigCh env)); run_proc; same_trace.
  - same_trace.
  - same_trace.
Qed.

End MainShape.

Section ReadinessClaim.
Import Go Dirk.

Lemma main_shape env :
  forallb before_services (main env).1 = true
  ∨ ∃ pre closing,
      forallb before_services pre = true ∧ (closing = [] ∨ closing = [EClose]) ∧
      main env =
        ((pre ++ ESetReady false :: (startServices (configured env) env).1
            ++ (after_services env (startServices (configured env) env).2 closing).1)%list,
         (after_services env (startServices (configured env) env).2 closing).2).
Proof.
  unfold main, or_return, mbind.
  pose proof (main_preflight_only env) as H0. unfold only in H0.
  pose proof (main_preflight_returns env) as Hv.
  destruct (main_preflight env) as [t0 [v|code|]]; cbn [fst snd] in *;
    [|left; exact (forallb_imp _ _ _ H0 preflight_before_services)|left; exact (forallb_imp _ _ _ H0 preflight_before_services)].
  specialize (Hv v eq_refl). subst v. rewrite bind_return.
  pose proof (main_initialise_only (configured env) env) as H1. unfold only in H1.
  destruct (main_initialise (configured env) env) as [t1 [[err|closer]|code|]];
    cbn [fst snd] in *.
  - left. rewrite bind_return. cbn [fst snd]. rewrite !forallb_app.
    rewrite (forallb_imp _ _ _ H0 preflight_before_services), (forallb_imp _ _ _ H1 initialise_before_services). reflexivity.
  - rewrite bind_return. cbn [fst snd].
    set (closing := match closer with Some _ => [EClose] | None => [] end).
    assert (Hc : forallb before_services closing = true) by (destruct closer; reflexivity).
    destruct (main_deferred_shape (configured env) env closing Hc) as [Q|(pre & Hpre & E)].
    + left. rewrite !forallb_app.
      rewrite (forallb_imp _ _ _ H0 preflight_before_services), (forallb_imp _ _ _ H1 initialise_before_services), Q. reflexivity.
    + right. exists (t0 ++ t1 ++ pre)%list, closing.
      split; [rewrite !forallb_app, (forallb_imp _ _ _ H0 preflight_before_services), (forallb_imp _ _ _ H1 initialise_before_services), Hpre;
              reflexivity|].
      split; [destruct closer; auto|].
      rewrite E. cbn [fst snd]. f_equal. rewrite <- !app_assoc. reflexivity.
  - left. rewrite bind_exited. cbn [fst snd]. rewrite !forallb_app.
    rewrite (forallb_imp _ _ _ H0 preflight_before_services), (forallb_imp _ _ _ H1 initialise_before_services). reflexivity.
  - left. rewrite bind_blocked. cbn [fst snd]. rewrite !forallb_app.
    rewrite (forallb_imp _ _ _ H0 preflight_before_services), (forallb_imp _ _ _ H1 initialise_before_services). reflexivity.
Qed.

Lemma in_readiness t b : ESetReady b ∈ t → b ∈ readiness t.
Proof.
  intros H. unfold readiness. apply list_elem_of_omap.
  exists (ESetReady b). split; [exact H|reflexivity].
Qed.

(** The flag is set to true only after [startServices] has returned
    without error. *)
Lemma ready_needs_services env :
  ESetReady true ∈ (main env).1 →
  (startServices (configured env) env).2 = Return (inr tt).
Proof.
  pose proof (startServices_only (configured env) env) as Hs. unfold only in Hs.
  intros Hin. destruct (main_shape env) as [Q|(pre & closing & Hpre & Hc & E)].
  - exfalso. exact (not_in_only _ _ (ESetReady true) Q eq_refl Hin).
  - rewrite E in Hin. cbn [fst] in Hin.
    destruct ((startServices (configured env) env).2) as [[err|[]]|code|];
      [|reflexivity| |]; exfalso; cbn [after_services fst] in Hin;
      rewrite ?app_nil_r in Hin;
      repeat (apply elem_of_app in Hin as [Hin|Hin]
              || apply elem_of_cons in Hin as [Hin|Hin]);
      try discriminate Hin;
      try exact (not_in_only _ _ (ESetReady true) Hpre eq_refl Hin);
      try exact (not_in_only _ _ (ESetReady true) Hs eq_refl Hin);
      destruct Hc as [-> | ->]; inversion Hin; subst;
      try discriminate; try match goal with H : _ ∈ [] |- _ => inversion H end.
Qed.

(** C5.  Every run of [main] either never touches the readiness flag
    and starts no service, or has the shape

      pre, setReady(false), startServices, rest

    where [pre] neither sets the flag nor starts a service and
    [startServices] does not set the flag.  When [startServices]
    returns without error, [rest] is: setReady(true), the log line,
    the signals read up to the first termination signal, and, once
    one is received, cancel, the log line, setReady(false), a sleep
    of 2 seconds and the return from [main] (with the deferred close
    of the tracer, if any); without such a signal the process keeps
    waiting.  When [startServices] fails, [rest] logs the error and
    the flag is never set to true.  In particular the flag is set to
    true only if [startServices] returned without error. *)
Theorem readiness_protocol (env : Env) :
  let services := startServices (configured env) env in
  (ESetReady true ∈ (main env).1 → services.2 = Return (inr tt)) ∧
  readiness services.1 = [] ∧
  ((readiness (main env).1 = [] ∧ ∀ x, x ∈ service_calls → ECall x ∉ (main env).1)
   ∨ ∃ pre closing,
       readiness pre = [] ∧ (∀ x, x ∈ service_calls → ECall x ∉ pre) ∧
       (closing = [] ∨ closing = [EClose]) ∧
       main env =
         match services.2 with
         | Return (inr _) =>
             ((pre ++ ESetReady false :: services.1
                 ++ ESetReady true :: ELog LInfo "All services operational" None
                 :: (ESignal <$> received (sigCh env))
                 ++ (if existsb stops (sigCh env)
                     then [ECancel; ELog LInfo "Stopping dirk" None; ESetReady false;
                           ESleep (2 * 1000000000)] ++ closing
                     else []))%list,
              if existsb stops (sigCh env) then Return tt else Blocked)
         | Return (inl err) =>
             ((pre ++ ESetReady false :: services.1
                 ++ ELog LError "Failed to initialise services" (Some err) :: closing)%list,
              Return tt)
         | Exited code => ((pre ++ ESetReady false :: services.1)%list, Exited code)
         | Blocked => ((pre ++ ESetReady false :: services.1)%list, Blocked)
         end).
Proof.
  cbv zeta.
  pose proof (startServices_only (configured env) env) as Hs. unfold only in Hs.
  assert (Hshape := main_shape env).
  split; [|split; [exact (service_readiness _ Hs)|]].
  - apply ready_needs_services.
  - destruct Hshape as [Q|(pre & closing & Hpre & Hc & E)].
    + left. split; [exact (before_services_readiness _ Q)|].
      intros x Hx. exact (before_services_no_service _ _ Q Hx).
    + right. exists pre, closing.
      split; [exact (before_services_readiness _ Hpre)|].
      split; [intros x Hx; exact (before_services_no_service _ _ Hpre Hx)|].
      split; [exact Hc|].
      rewrite E.
      destruct ((startServices (configured env) env).2) as [[err|[]]|code|];
        cbn [after_services fst snd]; rewrite ?app_nil_r; reflexivity.
Qed.

(** A run with everything in order and a SIGTERM at the end. *)
Example quiet_run_readiness :
  readiness (main (quiet_env one_peer_named)).1 = [false; true; false]
  ∧ (main (quiet_env one_peer_named)).2 = Return tt.
Proof. split; vm_compute; reflexivity. Qed.

End ReadinessClaim.

Section ProcessorsClaim.
Import Go Dirk.

Lemma only_or_return {A} P msg (m : Call A) (k : A → Proc unit) :
  (∀ err, P (ELog LError msg err) = true) →
  only P m → (∀ a, only P (k a)) → only P (or_return msg m k).
Proof.
  intros HE Hm Hk. unfold or_return. apply only_bind; [exact Hm|].
  intros [err|a] _; [apply only_emit, HE|apply Hk].
Qed.

Lemma main_unfold env :
  main env =
    Proc_bind _ _
      (λ v, Proc_bind _ _
              (λ r, match r with
                    | inl err => emit (ELog LError "Failed to initialise tracing" (Some err))
                    | inr closer =>
                        defer (match closer with Some _ => [EClose] | None => [] end)
                              (main_deferred v env)
                    end)
              (main_initialise v env))
      (main_preflight env).
Proof. reflexivity. Qed.

(** [main_deferred] starts by setting GOMAXPROCS, and never sets it again. *)
Lemma main_deferred_head v env :
  ∃ rest : Proc unit,
    main_deferred v env
    = (EGOMAXPROCS (int_mul (NumCPU env) 8) :: rest.1, rest.2) ∧
    only not_gomaxprocs rest.
Proof.
  unfold main_deferred, mbind.
  match goal with
  | |- context [Proc_bind _ _ ?f (emit (EGOMAXPROCS _))] => exists (f tt)
  end.
  split; [reflexivity|].
  pose proof (only_weaken service_event not_gomaxprocs (startServices v env)) as Hs.
  pose proof (only_weaken signal_event not_gomaxprocs (wait_for_signal (sigCh env))) as Hw.
  repeat first
    [ apply Hs; [intros []; simpl; congruence|apply startServices_only]
    | apply startMonitor_only_of; reflexivity
    | apply Hw; [intros []; simpl; congruence|apply wait_for_signal_only]
    | apply only_or_return; [intros; reflexivity| |intros ?]
    | apply only_call; reflexivity
    | apply only_emit; reflexivity
    | apply only_bind; [|intros ? _] ].
Qed.

Lemma int_mul_8 n : (0 ≤ n < 2 ^ 60)%Z → int_mul n 8 = (n * 8)%Z.
Proof.
  intros H. unfold int_mul, wrap_int.
  rewrite Z.mod_small; lia.
Qed.

Lemma not_gomaxprocs_of (P : Event → bool) t n :
  forallb P t = true → (∀ m, P (EGOMAXPROCS m) = false) → EGOMAXPROCS n ∉ t.
Proof. intros Ht HP. exact (not_in_only _ _ _ Ht (HP n)). Qed.

(** C6.  Whenever [main] sets GOMAXPROCS it passes the Go [int]
    product [NumCPU() * 8]; it does so as its first step after
    initialisation (configuration, majordomo, logging, profiling and
    tracing) has succeeded, and at no other time; for any processor
    count below 2^60 the product does not overflow, so the value is
    exactly NumCPU multiplied by 8. *)
Theorem gomaxprocs_is_numcpu_times_8 (env : Env) :
  (∀ n, EGOMAXPROCS n ∈ (main env).1 → n = int_mul (NumCPU env) 8) ∧
  (∀ v closer,
     (main_preflight env).2 = Return v →
     (main_initialise v env).2 = Return (inr closer) →
     ∃ rest,
       (main env).1
       = ((main_preflight env).1 ++ (main_initialise v env).1
            ++ EGOMAXPROCS (int_mul (NumCPU env) 8) :: rest)%list ∧
       gomaxprocs ((main_preflight env).1 ++ (main_initialise v env).1) = [] ∧
       gomaxprocs rest = []) ∧
  ((0 ≤ NumCPU env < 2 ^ 60)%Z → int_mul (NumCPU env) 8 = (NumCPU env * 8)%Z).
Proof.
  split; [|split; [|apply int_mul_8]].
  - intros n. rewrite main_unfold.
    pose proof (main_preflight_only env) as H0. unfold only in H0.
    destruct (main_preflight env) as [t0 [v|code|]]; cbn [fst snd] in *;
      [|intros Hin; exfalso; exact (not_gomaxprocs_of _ _ _ H0 (λ _, eq_refl) Hin)..].
    rewrite bind_return. cbn [fst].
    pose proof (main_initialise_only v env) as H1. unfold only in H1.
    destruct (main_deferred_head v env) as (rest & E & Hrest). unfold only in Hrest.
    destruct (main_initialise v env) as [t1 [[err|closer]|code|]]; cbn [fst snd] in *.
    + rewrite bind_return. cbn [fst]. intros Hin. exfalso.
      repeat (apply elem_of_app in Hin as [Hin|Hin]).
      * exact (not_gomaxprocs_of _ _ _ H0 (λ _, eq_refl) Hin).
      * exact (not_gomaxprocs_of _ _ _ H1 (λ _, eq_refl) Hin).
      * inversion Hin; subst. match goal with H : _ ∈ [] |- _ => inversion H end.
    + rewrite bind_return, E. cbn [fst]. intros Hin.
      apply elem_of_app in Hin as [Hin|Hin];
        [exfalso; exact (not_gomaxprocs_of _ _ _ H0 (λ _, eq_refl) Hin)|].
      apply elem_of_app in Hin as [Hin|Hin];
        [exfalso; exact (not_gomaxprocs_of _ _ _ H1 (λ _, eq_refl) Hin)|].
      assert (Hd : EGOMAXPROCS n ∈ EGOMAXPROCS (int_mul (NumCPU env) 8) :: rest.1
                   ∨ EGOMAXPROCS n ∈ [EClose]).
      { unfold defer in Hin. cbn [fst snd] in Hin.
        destruct rest.2; cbn [fst] in Hin; [|left; exact Hin..].
        apply elem_of_app in Hin as [Hin|Hin]; [left; exact Hin|].
        destruct closer; [right; exact Hin|inversion Hin]. }
      destruct Hd as [Hd|Hd].
      * apply elem_of_cons in Hd as [Hd|Hd]; [congruence|].
        exfalso. exact (not_gomaxprocs_of _ _ _ Hrest (λ _, eq_refl) Hd).
      * inversion Hd; subst. match goal with H : _ ∈ [] |- _ => inversion H end.
    + rewrite bind_exited. cbn [fst]. intros Hin. exfalso.
      apply elem_of_app in Hin as [Hin|Hin].
      * exact (not_gomaxprocs_of _ _ _ H0 (λ _, eq_refl) Hin).
      * exact (not_gomaxprocs_of _ _ _ H1 (λ _, eq_refl) Hin).
    + rewrite bind_blocked. cbn [fst]. intros Hin. exfalso.
      apply elem_of_app in Hin as [Hin|Hin].
      * exact (not_gomaxprocs_of _ _ _ H0 (λ _, eq_refl) Hin).
      * exact (not_gomaxprocs_of _ _ _ H1 (λ _, eq_refl) Hin).
  - intros v closer E0 E1. rewrite main_unfold.
    pose proof (main_preflight_only env) as H0. unfold only in H0.
    pose proof (main_initialise_only v env) as H1. unfold only in H1.
    destruct (main_deferred_head v env) as (rest & E & Hrest). unfold only in Hrest.
    destruct (main_preflight env) as [t0 s0]. cbn [fst snd] in *. subst s0.
    rewrite bind_return. cbn [fst].
    destruct (main_initialise v env) as [t1 s1]. cbn [fst snd] in *. subst s1.
    rewrite bind_return, E. cbn [fst].
    exists (defer (match closer with Some _ => [EClose] | None => [] end)
                  (rest.1, rest.2)).1.
    split; [|split].
    + do 2 f_equal. unfold defer. cbn [fst snd]. destruct rest.2; reflexivity.
    + unfold gomaxprocs. rewrite omap_app.
      rewrite (omap_only preflight_event _ t0), (omap_only initialise_event _ t1);
        [reflexivity| |exact H1| |exact H0]; intros []; simpl; congruence.
    + unfold defer. cbn [fst snd]. unfold gomaxprocs.
      destruct rest.2; cbn [fst]; rewrite ?omap_app;
        rewrite (omap_only not_gomaxprocs _ rest.1);
        try exact Hrest; try (intros []; simpl; congruence);
        destruct closer; reflexivity.
Qed.

Lemma gomaxprocs_is_numcpu_times_8_witness :
  gomaxprocs (main (quiet_env one_peer_named)).1 = [32%Z]
  ∧ int_mul (NumCPU (quiet_env one_peer_named)) 8 = 32%Z.
Proof.
  destruct (gomaxprocs_is_numcpu_times_8 (quiet_env one_peer_named)) as (_ & _ & H).
  split; [vm_compute; reflexivity|].
  rewrite H; [reflexivity|]. simpl. lia.
Defined.

End ProcessorsClaim.

Section ServerNameClaim.
Import Go Dirk.

Lemma finishes_bind {A B} (m : Proc A) (f : A → Proc B) :
  finishes m → (∀ a, finishes (f a)) → finishes (Proc_bind A B f m).
Proof.
  unfold finishes. intros Hm Hf. rewrite bind_status.
  destruct m.2 as [a|code|]; [apply Hf|discriminate|congruence].
Qed.

Lemma finishes_try {A B} (m : Call A) (k : A → Call B) :
  finishes m → (∀ a, finishes (k a)) → finishes (try m k).
Proof.
  intros Hm Hk. unfold try. apply finishes_bind; [exact Hm|].
  intros [err|a]; [discriminate|apply Hk].
Qed.

Lemma finishes_pair {A} t (s : Status A) : s ≠ Blocked → finishes ((t, s) : Proc A).
Proof. intros H. exact H. Qed.

Ltac finishes_step :=
  first
    [ apply finishes_pair; discriminate
    | apply (finishes_try _ _); [|intros ?]
    | apply (finishes_bind _ _); [|intros ?]
    | case_match ].

Lemma resolvePath_finishes v env path : finishes (resolvePath v env path).
Proof.
  unfold resolvePath, Fatal, os_Exit, emit, mbind, mret, Proc_ret.
  repeat finishes_step.
Qed.

Lemma main_preflight_finishes env : finishes (main_preflight env).
Proof.
  unfold main_preflight, fetchConfig, initMajordomo, runCommands, run_to_exit.
  unfold or_fatal, wrapped, lift, call, Fatal, os_Exit, emit, ok, fail.
  unfold mbind, mret, Call_bind, Call_ret, Proc_ret, ok.
  repeat first [apply resolvePath_finishes | finishes_step].
Qed.

Lemma preflight_starts_nothing e :
  preflight_event e = true → negb (starts_subsystem e) = true.
Proof.
  destruct e as [| |x| | | | | | | | | |]; try (intros; reflexivity || discriminate).
  destruct x; vm_compute; congruence.
Qed.

Lemma main_initialise_unnamed v env :
  is_empty (GetString v "server.name") = true →
  main_initialise v env
  = ([ELog LFatal "No server name set; cannot start" None], Exited 1).
Proof. unfold main_initialise. intros ->. reflexivity. Qed.

End ServerNameClaim.

Section UnlockerClaim.
Import Go Dirk.

Lemma wrapped_Fetch env msg key :
  wrapped msg (Fetch env key)
  = ([EFetch key],
     Return (match secret env key with
             | inl err => inl (Wrap err msg)
             | inr value => inr value
             end)).
Proof.
  unfold wrapped, Fetch, emit, ok, fail. rewrite !bind_return. cbn [fst snd app].
  destruct (secret env key); reflexivity.
Qed.

Lemma fetch_passphrases_cons env msg key rest acc :
  fetch_passphrases env msg (key :: rest) acc
  = match secret env key with
    | inl err => ([EFetch key], Return (inl (Wrap err msg)))
    | inr value =>
        (EFetch key :: (fetch_passphrases env msg rest (acc ++ [value])%list).1,
         (fetch_passphrases env msg rest (acc ++ [value])%list).2)
    end.
Proof.
  cbn [fetch_passphrases]. unfold mbind, Call_bind, try.
  rewrite wrapped_Fetch, bind_return.
  destruct (secret env key); reflexivity.
Qed.

(** Every key is fetched once, in order, when all fetches succeed. *)
Lemma fetch_passphrases_ok env msg keys : ∀ acc,
  forallb (fetches env) keys = true →
  fetch_passphrases env msg keys acc
  = (EFetch <$> keys, Return (inr (acc ++ secrets_of env keys)%list)).
Proof.
  induction keys as [|key rest IH]; intros acc H.
  - simpl. rewrite app_nil_r. reflexivity.
  - rewrite fetch_passphrases_cons. cbn [forallb] in H.
    apply andb_true_iff in H as [Hk H]. unfold fetches in Hk.
    unfold secrets_of. cbn [omap list_omap].
    destruct (secret env key) as [err|value]; [discriminate|].
    rewrite (IH _ H). cbn [fst snd fmap list_fmap]. unfold secrets_of.
    rewrite <- app_assoc. reflexivity.
Qed.

(** The first fetch that fails ends the loop: the keys before it
    were fetched once, the keys after it are not fetched. *)
Lemma fetch_passphrases_fail env msg keys : ∀ acc,
  forallb (fetches env) keys = false →
  ∃ fetched err,
    fetch_passphrases env msg keys acc
    = (EFetch <$> fetched, Return (inl (Wrap err msg))) ∧
    fetched `prefix_of` keys.
Proof.
  induction keys as [|key rest IH]; intros acc H; [discriminate|].
  rewrite fetch_passphrases_cons. cbn [forallb] in H. unfold fetches at 1 in H.
  destruct (secret env key) as [err|value].
  - exists [key], err. split; [reflexivity|]. exists rest. reflexivity.
  - destruct (IH (acc ++ [value])%list H) as (fetched & err & E & Hp).
    exists (key :: fetched), err. rewrite E. split; [reflexivity|].
    apply prefix_cons. exact Hp.
Qed.

Lemma startUnlocker_unfold v env :
  startUnlocker v env
  = try (fetch_passphrases env "failed to obtain wallet passphrase for unlocker"
           (GetStringSlice v "unlocker.wallet-passphrases") [])
        (λ walletPassphrases,
           try (fetch_passphrases env "failed to obtain account passphrase for unlocker"
                  (GetStringSlice v "unlocker.account-passphrases") [])
               (λ accountPassphrases,
                  try (call env NewUnlocker)
                      (λ _, ok (mkUnlocker walletPassphrases accountPassphrases)))).
Proof. reflexivity. Qed.

Lemma try_status {A B} (m : Call A) (k : A → Call B) b :
  (try m k).2 = Return (inr b) → ∃ a, m.2 = Return (inr a) ∧ (k a).2 = Return (inr b).
Proof.
  unfold try. rewrite bind_status.
  destruct m.2 as [[err|a]|code|]; try discriminate. eauto.
Qed.

Lemma wrapped_status {A} msg (m : Call A) a :
  (wrapped msg m).2 = Return (inr a) → m.2 = Return (inr a).
Proof.
  unfold wrapped. rewrite bind_status.
  destruct m.2 as [[err|a']|code|]; try discriminate. exact id.
Qed.

Lemma startUnlocker_all_fetched v env unlocker :
  (startUnlocker v env).2 = Return (inr unlocker) →
  forallb (fetches env)
    (GetStringSlice v "unlocker.wallet-passphrases"
       ++ GetStringSlice v "unlocker.account-passphrases") = true.
Proof.
  rewrite startUnlocker_unfold. intros H.
  apply try_status in H as (w & Hw & H). apply try_status in H as (a & Ha & _).
  rewrite forallb_app. apply andb_true_iff. split.
  - destruct (forallb _ (GetStringSlice v "unlocker.wallet-passphrases")) eqn:F;
      [reflexivity|].
    destruct (fetch_passphrases_fail env
                "failed to obtain wallet passphrase for unlocker" _ [] F)
      as (f & err & E & _).
    rewrite E in Hw. discriminate.
  - destruct (forallb _ (GetStringSlice v "unlocker.account-passphrases")) eqn:F;
      [reflexivity|].
    destruct (fetch_passphrases_fail env
                "failed to obtain account passphrase for unlocker" _ [] F)
      as (f & err & E & _).
    rewrite E in Ha. discriminate.
Qed.

Lemma startServices_started_unlocker v env :
  (startServices v env).2 = Return (inr tt) →
  ∃ unlocker, (startUnlocker v env).2 = Return (inr unlocker).
Proof.
  unfold startServices. unfold mbind at 1. unfold Call_bind.
  intros H. apply try_status in H as (stores & _ & H).
  unfold mbind at 1 in H. unfold Call_bind in H.
  apply try_status in H as (unlocker & H & _).
  apply wrapped_status in H. eauto.
Qed.

(** C7.  [startUnlocker] fetches the configured wallet passphrases
    and then the account passphrases, each entry once and in order,
    and only then constructs the unlocker service, handing it the
    fetched values.  When a fetch fails it returns the wrapped error
    at once: the entries before the failing one were fetched once,
    no later entry is fetched and no unlocker service is
    constructed; [startServices] then fails too and [main] never
    sets the readiness flag to true. *)
Theorem startUnlocker_fetches_each_once (v : Viper) (env : Env) :
  let wallet := GetStringSlice v "unlocker.wallet-passphrases" in
  let account := GetStringSlice v "unlocker.account-passphrases" in
  (forallb (fetches env) (wallet ++ account) = true →
     (startUnlocker v env).1
     = ((EFetch <$> wallet ++ account) ++ [ECall NewUnlocker])%list ∧
     (startUnlocker v env).2
     = Return (match failure env NewUnlocker with
               | Some err => inl err
               | None => inr (mkUnlocker (secrets_of env wallet) (secrets_of env account))
               end)) ∧
  (forallb (fetches env) (wallet ++ account) = false →
     ∃ fetched err msg,
       startUnlocker v env = (EFetch <$> fetched, Return (inl (Wrap err msg))) ∧
       fetched `prefix_of` (wallet ++ account)%list ∧
       ECall NewUnlocker ∉ (startUnlocker v env).1) ∧
  (forallb (fetches env)
     (GetStringSlice (configured env) "unlocker.wallet-passphrases"
        ++ GetStringSlice (configured env) "unlocker.account-passphrases") = false →
   (∀ unlocker, (startUnlocker (configured env) env).2 ≠ Return (inr unlocker)) ∧
   (startServices (configured env) env).2 ≠ Return (inr tt) ∧
   ESetReady true ∉ (main env).1).
Proof.
  cbv zeta. split; [|split].
  - rewrite forallb_app. intros [Hw Ha]%andb_true_iff.
    rewrite startUnlocker_unfold.
    rewrite (fetch_passphrases_ok _ _ _ [] Hw), (fetch_passphrases_ok _ _ _ [] Ha).
    unfold try, call, emit, ok, fail.
    destruct (failure env NewUnlocker);
      repeat (rewrite bind_return; cbn [fst snd app]);
      rewrite ?app_nil_r, ?fmap_app, <- ?app_assoc; split; reflexivity.
  - rewrite forallb_app. intros H.
    rewrite startUnlocker_unfold.
    destruct (forallb (fetches env) (GetStringSlice v "unlocker.wallet-passphrases"))
      eqn:Hw.
    + simpl in H.
      destruct (fetch_passphrases_fail env
                  "failed to obtain account passphrase for unlocker" _ [] H)
        as (fetched & err & E & Hp).
      exists (GetStringSlice v "unlocker.wallet-passphrases" ++ fetched)%list, err,
        "failed to obtain account passphrase for unlocker".
      rewrite (fetch_passphrases_ok _ _ _ [] Hw), E.
      unfold try, fail. rewrite !bind_return. cbn [fst snd app].
      rewrite app_nil_r, fmap_app.
      split; [reflexivity|]. split; [apply prefix_app, Hp|].
      intros Hin. apply elem_of_app in Hin as [Hin|Hin];
        apply list_elem_of_fmap in Hin as (k & [=] & _).
    + destruct (fetch_passphrases_fail env
                  "failed to obtain wallet passphrase for unlocker" _ [] Hw)
        as (fetched & err & E & Hp).
      exists fetched, err, "failed to obtain wallet passphrase for unlocker".
      rewrite E. unfold try, fail. rewrite !bind_return. cbn [fst snd app].
      rewrite app_nil_r.
      split; [reflexivity|]. split; [apply prefix_app_r, Hp|].
      intros Hin. apply list_elem_of_fmap in Hin as (k & [=] & _).
  - intros H.
    assert (Hu : ∀ unlocker,
               (startUnlocker (configured env) env).2 ≠ Return (inr unlocker)).
    { intros unlocker E. apply startUnlocker_all_fetched in E. congruence. }
    assert (Hs : (startServices (configured env) env).2 ≠ Return (inr tt)).
    { intros E. apply startServices_started_unlocker in E as [unlocker E].
      exact (Hu unlocker E). }
    split; [exact Hu|]. split; [exact Hs|].
    intros Hin. apply Hs. apply ready_needs_services. exact Hin.
Qed.

Lemma startUnlocker_fetches_each_once_witness :
  (startUnlocker three_passphrases (quiet_env three_passphrases)).1
  = [EFetch "wallet-a"; EFetch "wallet-b"; EFetch "account-a"; ECall NewUnlocker].
Proof.
  pose proof (startUnlocker_fetches_each_once three_passphrases
                (quiet_env three_passphrases)) as H.
  cbv zeta in H. destruct H as (H & _).
  destruct H as [H _]; [vm_compute; reflexivity|].
  rewrite H. vm_compute. reflexivity.
Defined.

End UnlockerClaim.

(** ** Start-up: what the services need, and in what order they are built *)

Section Outcomes.
Import Go Dirk.

Lemma call_eq env x :
  call env x
  = ([ECall x],
     Return (match failure env x with Some err => inl err | None => inr tt end)).
Proof.
  unfold call, emit, fail, ok. rewrite bind_return.
  destruct (failure env x); reflexivity.
Qed.

Lemma succeeds_bind {A B} (m : Call A) (k : A → Call B) :
  succeeds (m ≫= k) ↔ ∃ a, m.2 = Return (inr a) ∧ succeeds (k a).
Proof.
  unfold succeeds, mbind, Call_bind, try. rewrite bind_status. split.
  - intros [b H]. destruct m.2 as [[err|a]|code|]; try discriminate. eauto.
  - intros (a & -> & b & H). eauto.
Qed.

Lemma succeeds_seq {A B} (m : Call A) (k : Call B) :
  succeeds (m ;; k) ↔ succeeds m ∧ succeeds k.
Proof.
  rewrite succeeds_bind. unfold succeeds. split.
  - intros (a & H & K). eauto.
  - intros [[a H] K]. eauto.
Qed.

Lemma succeeds_wrapped {A} msg (m : Call A) : succeeds (wrapped msg m) ↔ succeeds m.
Proof.
  unfold succeeds, wrapped. rewrite bind_status.
  destruct m.2 as [[err|a]|code|]; simpl; split; intros [b H]; try discriminate; eauto.
Qed.

Lemma succeeds_call env x : succeeds (call env x) ↔ failure env x = None.
Proof.
  unfold succeeds. rewrite call_eq. simpl.
  destruct (failure env x); split; try discriminate; eauto.
  intros [a H]. discriminate.
Qed.

Lemma succeeds_ok {A} (a : A) : succeeds (ok a).
Proof. exists a. reflexivity. Qed.

Lemma succeeds_lift {A} (m : Proc A) : succeeds (lift m) ↔ ∃ a, m.2 = Return a.
Proof.
  unfold succeeds, lift. rewrite bind_status.
  destruct m.2 as [a|code|]; simpl; split; intros [b H]; try discriminate; eauto.
Qed.

Lemma succeeds_Fetch env key : succeeds (Fetch env key) ↔ fetches env key = true.
Proof.
  unfold succeeds, Fetch, fetches, emit. rewrite bind_return. simpl.
  destruct (secret env key); split; try discriminate; eauto.
  intros [a H]. discriminate.
Qed.

Lemma succeeds_optional_secret env msg key :
  succeeds (optional_secret env msg key)
  ↔ forallb (fetches env) (optional_key key) = true.
Proof.
  unfold optional_secret, optional_key. destruct (is_empty key); simpl.
  - split; [reflexivity|]. intros _. apply succeeds_ok.
  - rewrite succeeds_wrapped, succeeds_Fetch, andb_true_r. reflexivity.
Qed.

Lemma succeeds_fetch_passphrases env msg keys acc :
  succeeds (fetch_passphrases env msg keys acc) ↔ forallb (fetches env) keys = true.
Proof.
  split.
  - intros [a H]. destruct (forallb (fetches env) keys) eqn:F; [reflexivity|].
    destruct (fetch_passphrases_fail env msg keys acc F) as (f & err & E & _).
    rewrite E in H. discriminate.
  - intros F. rewrite (fetch_passphrases_ok _ _ _ _ F). eexists. reflexivity.
Qed.

Lemma succeeds_initStores v env :
  succeeds (initStores v env)
  ↔ failure env UnmarshalStores = None ∧ failure env InitStores = None
    ∧ stores env ≠ [].
Proof.
  unfold initStores.
  rewrite !succeeds_seq, !succeeds_wrapped, !succeeds_call.
  destruct (stores env) as [|s l]; unfold succeeds; simpl.
  - split; [intros (_ & _ & a & H); discriminate|]. intros (_ & _ & H). congruence.
  - split; intros (H1 & H2 & _); (split; [exact H1|split; [exact H2|]]);
      [discriminate|eauto].
Qed.

Lemma succeeds_startUnlocker v env :
  succeeds (startUnlocker v env)
  ↔ forallb (fetches env) (unlocker_keys v) = true ∧ failure env NewUnlocker = None.
Proof.
  unfold startUnlocker, unlocker_keys. rewrite succeeds_bind. split.
  - intros (w & Hw & H). apply succeeds_bind in H as (a & Ha & H).
    apply succeeds_seq in H as [H _]. apply succeeds_call in H.
    rewrite forallb_app. split; [|exact H]. apply andb_true_iff. split.
    + eapply succeeds_fetch_passphrases. eexists. exact Hw.
    + eapply succeeds_fetch_passphrases. eexists. exact Ha.
  - rewrite forallb_app. intros [[Hw Ha]%andb_true_iff H].
    rewrite (fetch_passphrases_ok _ _ _ _ Hw). eexists. split; [reflexivity|].
    rewrite succeeds_bind, (fetch_passphrases_ok _ _ _ _ Ha).
    eexists. split; [reflexivity|].
    rewrite succeeds_seq, succeeds_call. split; [exact H|apply succeeds_ok].
Qed.

Lemma resolvePath_returns_iff v env path :
  (∃ resolved, (resolvePath v env path).2 = Return resolved)
  ↔ IsAbs path = true ∨ ∃ dir, base_of v env = inr dir.
Proof.
  destruct (IsAbs path) eqn:P.
  - rewrite resolvePath_absolute by exact P. simpl. split; eauto.
  - rewrite resolvePath_relative by exact P.
    destruct (base_of v env) as [err|dir]; simpl; split.
    + intros [r H]. discriminate.
    + intros [H|[dir H]]; discriminate.
    + eauto.
    + eauto.
Qed.

Lemma succeeds_startRuler v env :
  succeeds (startRuler v env)
  ↔ (IsAbs (GetString v "storage-path") = true ∨ ∃ dir, base_of v env = inr dir)
    ∧ failure env NewRules = None ∧ failure env NewRuler = None.
Proof.
  unfold startRuler, initRules.
  rewrite succeeds_seq, succeeds_wrapped, succeeds_call, succeeds_bind.
  rewrite <- resolvePath_returns_iff. split.
  - intros [(p & Hp & H) Hr]. apply succeeds_seq in H as [H _].
    apply succeeds_call in H. split; [|auto].
    assert (L : succeeds (lift (resolvePath v env (GetString v "storage-path"))))
      by (eexists; exact Hp).
    apply succeeds_lift in L. exact L.
  - intros (L & H1 & H2). split; [|exact H2].
    apply succeeds_lift in L as [p Hp]. exists p. split; [exact Hp|].
    rewrite succeeds_seq, succeeds_call. split; [exact H1|apply succeeds_ok].
Qed.

Lemma succeeds_startPeers v env :
  succeeds (startPeers v env)
  ↔ forallb (λ e, parses e.1)
            (visit env RangeStartPeers (map_to_list (GetStringMapString v "peers"))) = true
    ∧ failure env NewPeers = None.
Proof.
  unfold startPeers.
  destruct (forallb _ (visit env RangeStartPeers _)) eqn:F.
  - rewrite (startPeers_loop_ok _ _ F), succeeds_seq, succeeds_call.
    split; [intros [H _]; auto|]. intros [_ H]. split; [exact H|apply succeeds_ok].
  - destruct (startPeers_loop_bad _ ∅ F) as [err ->].
    split; [intros [a H]; discriminate|]. intros [H _]. discriminate.
Qed.

Lemma succeeds_server_id s :
  succeeds (mret (M := Proc) (ParseUint s)) ↔ parses s = true.
Proof.
  unfold succeeds, parses, mret, Proc_ret. simpl.
  destruct (ParseUint s); split; try discriminate; eauto.
  intros [a H]. discriminate.
Qed.

Lemma succeeds_endpoints_loop entries m : succeeds (lift (endpoints_loop entries m)).
Proof.
  apply succeeds_lift. destruct (endpoints_loop_result entries m) as [H _]. eauto.
Qed.

Lemma succeeds_unit (m : Call unit) : m.2 = Return (inr tt) ↔ succeeds m.
Proof.
  unfold succeeds. split; [eauto|]. intros [a H]. destruct a. exact H.
Qed.

(** [startServices] returns without error exactly when each of its
    steps does. *)
Lemma succeeds_startServices v env :
  succeeds (startServices v env) ↔
    (failure env UnmarshalStores = None ∧ failure env InitStores = None
     ∧ stores env ≠ [])
    ∧ (forallb (fetches env) (unlocker_keys v) = true ∧ failure env NewUnlocker = None)
    ∧ failure env NewChecker = None
    ∧ failure env NewFetcher = None
    ∧ failure env NewLocker = None
    ∧ ((IsAbs (GetString v "storage-path") = true ∨ ∃ dir, base_of v env = inr dir)
       ∧ failure env NewRules = None ∧ failure env NewRuler = None)
    ∧ failure env NewLister = None
    ∧ failure env NewSigner = None
    ∧ (forallb (λ e, parses e.1)
               (visit env RangeStartPeers (map_to_list (GetStringMapString v "peers")))
       = true ∧ failure env NewPeers = None)
    ∧ fetches env (GetString v "certificates.server-cert") = true
    ∧ fetches env (GetString v "certificates.server-key") = true
    ∧ forallb (fetches env) (optional_key (GetString v "certificates.ca-cert")) = true
    ∧ failure env NewSender = None
    ∧ parses (GetString v "server.id") = true
    ∧ forallb (fetches env) (process_keys v) = true
    ∧ failure env NewProcess = None
    ∧ failure env NewAccountManager = None
    ∧ failure env NewWalletManager = None
    ∧ failure env NewAPI = None.
Proof.
  unfold startServices, startChecker, startFetcher, startLocker, startLister, process_keys.
  split.
  - intros H. repeat (apply succeeds_seq in H as [?H H]).
    repeat match goal with
           | K : succeeds (wrapped _ _) |- _ => apply succeeds_wrapped in K
           end.
    repeat match goal with
           | K : succeeds (call _ _) |- _ => apply succeeds_call in K
           | K : succeeds (Fetch _ _) |- _ => apply succeeds_Fetch in K
           | K : succeeds (optional_secret _ _ _) |- _ => apply succeeds_optional_secret in K
           | K : succeeds (initStores _ _) |- _ => apply succeeds_initStores in K
           | K : succeeds (startUnlocker _ _) |- _ => apply succeeds_startUnlocker in K
           | K : succeeds (startRuler _ _) |- _ => apply succeeds_startRuler in K
           | K : succeeds (startPeers _ _) |- _ => apply succeeds_startPeers in K
           | K : succeeds (mret (ParseUint _)) |- _ => apply succeeds_server_id in K
           end.
    repeat split; tauto.
  - intros H. decompose [and] H. clear H.
    repeat match goal with
           | |- succeeds (_ ≫= _) => apply succeeds_seq; split
           | |- succeeds (wrapped _ _) => apply succeeds_wrapped
           end;
      first [ apply succeeds_ok | apply succeeds_endpoints_loop
            | apply succeeds_call; assumption
            | apply succeeds_Fetch; assumption
            | apply succeeds_optional_secret; assumption
            | apply succeeds_initStores; auto
            | apply succeeds_startUnlocker; auto
            | apply succeeds_startRuler; auto
            | apply succeeds_startPeers; auto
            | apply succeeds_server_id; assumption ].
Qed.

(** X3.  [startServices] returns without error exactly when every
    constructor it calls succeeds, at least one store is configured,
    every secret it asks for (the unlocker passphrases, the server
    certificate and key, and the CA certificate and the generation
    passphrase when configured) can be fetched, the storage path can
    be resolved, [server.id] parses as a uint64, and every key of the
    peers map parses as a uint64. *)
Theorem startServices_succeeds_iff (v : Viper) (env : Env) :
  (startServices v env).2 = Return (inr tt) ↔ services_can_start v env.
Proof.
  rewrite succeeds_unit, succeeds_startServices.
  unfold services_can_start, certificate_keys.
  rewrite <- Forall_forall. unfold service_calls. rewrite !Forall_cons, Forall_nil.
  rewrite !forallb_app. cbn [forallb]. rewrite !andb_true_iff.
  tauto.
Qed.

Lemma seq_trace {A B} (m : Call A) (k : Call B) :
  succeeds m → (m ;; k).1 = (m.1 ++ k.1)%list.
Proof.
  intros [a H]. unfold mbind, Call_bind, try. rewrite bind_trace, H. reflexivity.
Qed.

Lemma wrapped_trace {A} msg (m : Call A) : (wrapped msg m).1 = m.1.
Proof.
  unfold wrapped. rewrite bind_trace.
  destruct m.2 as [[err|a]|code|]; simpl; apply app_nil_r.
Qed.

Lemma lift_trace {A} (m : Proc A) : (lift m).1 = m.1.
Proof.
  unfold lift. rewrite bind_trace. destruct m.2 as [a|code|]; simpl; apply app_nil_r.
Qed.

Lemma call_trace env x : (call env x).1 = [ECall x].
Proof. rewrite call_eq. reflexivity. Qed.

Lemma Fetch_trace env key : (Fetch env key).1 = [EFetch key].
Proof. reflexivity. Qed.

Lemma optional_secret_trace env msg key :
  (optional_secret env msg key).1 = EFetch <$> optional_key key.
Proof.
  unfold optional_secret, optional_key. destruct (is_empty key); [reflexivity|].
  cbn [negb]. rewrite wrapped_trace. reflexivity.
Qed.

Lemma initStores_trace v env :
  succeeds (initStores v env) →
  (initStores v env).1 = [ECall UnmarshalStores; ECall InitStores].
Proof.
  intros H. unfold initStores in *.
  apply succeeds_seq in H as [H1 H]. rewrite (seq_trace _ _ H1).
  apply succeeds_seq in H as [H2 H]. rewrite (seq_trace _ _ H2).
  rewrite !wrapped_trace, !call_trace. destruct (stores env); reflexivity.
Qed.

Lemma startUnlocker_trace v env :
  succeeds (startUnlocker v env) →
  (startUnlocker v env).1 = ((EFetch <$> unlocker_keys v) ++ [ECall NewUnlocker])%list.
Proof.
  intros H. apply succeeds_startUnlocker in H as [F H].
  unfold unlocker_keys in *. rewrite forallb_app in F.
  apply andb_true_iff in F as [Fw Fa].
  rewrite startUnlocker_unfold.
  rewrite (fetch_passphrases_ok _ _ _ [] Fw), (fetch_passphrases_ok _ _ _ [] Fa).
  unfold try. rewrite !bind_return, call_eq. cbn [fst snd].
  rewrite bind_return, fmap_app, <- app_assoc. cbn [fst snd].
  destruct (failure env NewUnlocker); reflexivity.
Qed.

Lemma resolvePath_quiet v env path :
  IsAbs path = true ∨ (∃ dir, base_of v env = inr dir) →
  ∃ resolved, resolvePath v env path = ([], Return resolved).
Proof.
  intros H. destruct (IsAbs path) eqn:A.
  - exists path. apply resolvePath_absolute, A.
  - destruct H as [H|[dir H]]; [discriminate|].
    exists (Join dir path). rewrite resolvePath_relative, H by exact A. reflexivity.
Qed.

Lemma initRules_trace v env :
  IsAbs (GetString v "storage-path") = true ∨ (∃ dir, base_of v env = inr dir) →
  (initRules v env).1 = [ECall NewRules].
Proof.
  intros H. apply (resolvePath_quiet v env (GetString v "storage-path")) in H as [p E].
  unfold initRules. rewrite E. unfold mbind, Call_bind, try, lift, ok.
  rewrite !bind_return, call_eq. cbn [fst snd app].
  rewrite bind_return. destruct (failure env NewRules); reflexivity.
Qed.

Lemma startRuler_trace v env :
  succeeds (startRuler v env) →
  (startRuler v env).1 = [ECall NewRules; ECall NewRuler].
Proof.
  intros H. pose proof H as H'. apply succeeds_startRuler in H' as (P & _ & _).
  unfold startRuler in *. apply succeeds_seq in H as [H1 _].
  rewrite (seq_trace _ _ H1), wrapped_trace, call_trace, (initRules_trace _ _ P).
  reflexivity.
Qed.

Lemma startPeers_trace v env :
  succeeds (startPeers v env) → (startPeers v env).1 = [ECall NewPeers].
Proof.
  intros H. unfold startPeers in *.
  destruct (startPeers_loop _ ∅) as [err|m]; [destruct H as [a H]; discriminate|].
  apply succeeds_seq in H as [H _]. rewrite (seq_trace _ _ H), call_trace. reflexivity.
Qed.

(** X4.  When [startServices] returns without error its steps were,
    in this order and nothing else: the stores, the unlocker
    passphrases, the unlocker, checker, fetcher, locker, rules, ruler,
    lister, signer and peers, the certificates, the sender, the
    generation passphrase, and the process, account manager, wallet
    manager and API services. *)
Theorem startServices_construction_order (v : Viper) (env : Env) :
  fair_ranges env →
  (startServices v env).2 = Return (inr tt) →
  (startServices v env).1
  = ((ECall <$> [UnmarshalStores; InitStores])
       ++ (EFetch <$> unlocker_keys v)
       ++ (ECall <$> [NewUnlocker; NewChecker; NewFetcher; NewLocker; NewRules;
                      NewRuler; NewLister; NewSigner; NewPeers])
       ++ (EFetch <$> certificate_keys v)
       ++ [ECall NewSender]
       ++ (EFetch <$> process_keys v)
       ++ (ECall <$> [NewProcess; NewAccountManager; NewWalletManager; NewAPI]))%list.
Proof.
  intros Hfair H. apply succeeds_unit in H.
  pose proof H as Hs. apply succeeds_startServices in Hs.
  destruct Hs as (_ & _ & _ & _ & _ & _ & _ & _ & [Hp _] & _).
  unfold startServices in *.
  repeat (apply succeeds_seq in H as [?H H]; rewrite seq_trace by assumption).
  rewrite !wrapped_trace, !optional_secret_trace.
  apply succeeds_wrapped in H1, H5, H8.
  rewrite (initStores_trace _ _ H0), (startUnlocker_trace _ _ H1),
    (startRuler_trace _ _ H5), (startPeers_trace _ _ H8).
  unfold startChecker, startFetcher, startLocker, startLister.
  rewrite !call_trace, !Fetch_trace, lift_trace, endpoints_loop_quiet.
  - unfold certificate_keys, process_keys.
    rewrite !fmap_app, <- !app_assoc. reflexivity.
  - rewrite (forallb_permutation _ _ _ (Hfair RangeStartServices _)).
    rewrite <- (forallb_permutation _ _ _ (Hfair RangeStartPeers _)). exact Hp.
Qed.

Lemma startServices_construction_order_witness :
  fair_ranges (quiet_env one_peer_named) ∧
  (startServices one_peer_named (quiet_env one_peer_named)).1
  = ((ECall <$> [UnmarshalStores; InitStores; NewUnlocker; NewChecker; NewFetcher;
                 NewLocker; NewRules; NewRuler; NewLister; NewSigner; NewPeers])
       ++ [EFetch EmptyString; EFetch EmptyString]
       ++ (ECall <$> [NewSender; NewProcess; NewAccountManager; NewWalletManager;
                      NewAPI]))%list.
Proof.
  assert (F : fair_ranges (quiet_env one_peer_named)) by (intros site entries; reflexivity).
  split; [exact F|].
  rewrite (startServices_construction_order one_peer_named (quiet_env one_peer_named));
    [reflexivity|exact F|vm_compute; reflexivity].
Defined.

End Outcomes.

(** ** Where the events of a run come from *)

Section Membership.
Import Go Dirk.

Lemma in_bind {A B} e (m : Proc A) (f : A → Proc B) :
  e ∈ (Proc_bind A B f m).1 → e ∈ m.1 ∨ ∃ a, m.2 = Return a ∧ e ∈ (f a).1.
Proof.
  rewrite bind_trace. intros [H|H]%elem_of_app; [auto|].
  destruct m.2 as [a|code|]; [eauto|inversion H|inversion H].
Qed.

Lemma in_mbind {A B} e (m : Proc A) (f : A → Proc B) :
  e ∈ (m ≫= f).1 → e ∈ m.1 ∨ ∃ a, m.2 = Return a ∧ e ∈ (f a).1.
Proof. apply in_bind. Qed.

Lemma in_try {A B} e (m : Call A) (k : A → Call B) :
  e ∈ (try m k).1 → e ∈ m.1 ∨ ∃ a, m.2 = Return (inr a) ∧ e ∈ (k a).1.
Proof.
  unfold try. intros [H|([err|a] & Hs & H)]%in_bind; [auto|inversion H|eauto].
Qed.

Lemma in_cbind {A B} e (m : Call A) (k : A → Call B) :
  e ∈ (m ≫= k).1 → e ∈ m.1 ∨ ∃ a, m.2 = Return (inr a) ∧ e ∈ (k a).1.
Proof. apply in_try. Qed.

Lemma in_wrapped {A} e msg (m : Call A) : e ∈ (wrapped msg m).1 → e ∈ m.1.
Proof. rewrite wrapped_trace. exact id. Qed.

Lemma in_lift {A} e (m : Proc A) : e ∈ (lift m).1 → e ∈ m.1.
Proof. rewrite lift_trace. exact id. Qed.

Lemma in_call e env x : e ∈ (call env x).1 → e = ECall x.
Proof. rewrite call_trace. intros H. inversion H; subst; [reflexivity|]. inversion H2. Qed.

Lemma in_emit e e' : e ∈ (emit e').1 → e = e'.
Proof. intros H. inversion H; subst; [reflexivity|]. inversion H2. Qed.

Lemma in_Fatal {A} e msg err : e ∈ (Fatal msg err : Proc A).1 → e = ELog LFatal msg err.
Proof. intros H. inversion H; subst; [reflexivity|]. inversion H2. Qed.

Lemma in_Fetch e env key : e ∈ (Fetch env key).1 → e = EFetch key.
Proof. intros H. inversion H; subst; [reflexivity|]. inversion H2. Qed.

Lemma in_nil {A} e (s : Status A) : e ∈ (([], s) : Proc A).1 → False.
Proof. intros H. inversion H. Qed.

Lemma in_or_fatal {A} e msg (m : Call A) :
  e ∈ (or_fatal msg m).1 →
  e ∈ m.1 ∨ ∃ err, m.2 = Return (inl err) ∧ e = ELog LFatal msg (Some err).
Proof.
  unfold or_fatal. intros [H|([err|a] & Hs & H)]%in_bind; [auto| |inversion H].
  apply in_Fatal in H. eauto.
Qed.

Lemma in_or_return {A} e msg (m : Call A) (k : A → Proc unit) :
  e ∈ (or_return msg m k).1 →
  e ∈ m.1
  ∨ (∃ err, m.2 = Return (inl err) ∧ e = ELog LError msg (Some err))
  ∨ (∃ a, m.2 = Return (inr a) ∧ e ∈ (k a).1).
Proof.
  unfold or_return. intros [H|([err|a] & Hs & H)]%in_bind; [auto| |eauto].
  apply in_emit in H. eauto.
Qed.

Lemma in_defer {A} e closing (m : Proc A) :
  e ∈ (defer closing m).1 → e ∈ m.1 ∨ (e ∈ closing ∧ ∃ a, m.2 = Return a).
Proof.
  unfold defer. destruct m as [t [a|code|]]; cbn [fst snd]; [|auto|auto].
  intros [H|H]%elem_of_app; eauto.
Qed.

Lemma in_fetch_passphrases e env msg keys : ∀ acc,
  e ∈ (fetch_passphrases env msg keys acc).1 → ∃ key, key ∈ keys ∧ e = EFetch key.
Proof.
  induction keys as [|key rest IH]; intros acc H; [inversion H|].
  rewrite fetch_passphrases_cons in H.
  destruct (secret env key) as [err|value]; cbn [fst] in H.
  - inversion H; subst; [|inversion H2]. exists key. split; [left|reflexivity].
  - apply elem_of_cons in H as [->|H].
    + exists key. split; [left|reflexivity].
    + apply IH in H as (k & Hk & ->). exists k. split; [right; exact Hk|reflexivity].
Qed.

Lemma in_endpoints_loop e entries : ∀ m,
  e ∈ (endpoints_loop entries m).1 →
  ∃ k err, k ∈ entries.*1 ∧ ParseUint k = inl err
           ∧ e = ELog LError "Invalid peer ID" (Some err).
Proof.
  induction entries as [|[k v] rest IH]; intros m H; [inversion H|].
  cbn [endpoints_loop] in H. destruct (ParseUint k) as [err|id] eqn:P.
  - apply in_mbind in H as [H|(_ & _ & H)].
    + apply in_emit in H. exists k, err. split; [left|auto].
    + apply IH in H as (k' & err' & Hk & Hp & ->).
      exists k', err'. split; [right; exact Hk|auto].
  - apply IH in H as (k' & err' & Hk & Hp & ->).
    exists k', err'. split; [right; exact Hk|auto].
Qed.

Lemma in_wait_for_signal e sigs :
  e ∈ (wait_for_signal sigs).1 → e = ECancel ∨ ∃ sig, e = ESignal sig.
Proof.
  intros H. pose proof (wait_for_signal_only sigs) as O. unfold only in O.
  rewrite forallb_forall in O. apply list_elem_of_In in H. specialize (O e H).
  destruct e; try discriminate; eauto.
Qed.

Lemma in_resolvePath e v env path :
  e ∈ (resolvePath v env path).1 →
  ∃ err, base_of v env = inl err ∧ IsAbs path = false
         ∧ e = ELog LFatal "Could not determine a home directory" (Some err).
Proof.
  destruct (IsAbs path) eqn:A.
  - rewrite resolvePath_absolute by exact A. intros H. inversion H.
  - rewrite resolvePath_relative by exact A.
    destruct (base_of v env) as [err|dir]; cbn [fst]; intros H; [|inversion H].
    inversion H; subst; [eauto|]. inversion H2.
Qed.

End Membership.

(** ** Runs of main *)

Section MainTrace.
Import Go Dirk.

(** Where an event of a trace comes from: the hypothesis [H] that an
    event occurs in the trace of a composed computation is split along
    the composition, one goal for each step that can have emitted it. *)
Ltac origin H :=
  repeat first
    [ apply in_nil in H; destruct H
    | match type of H with
      | _ ∈ (wrapped _ _).1 => apply in_wrapped in H
      | _ ∈ (lift _).1 => apply in_lift in H
      | _ ∈ (call _ _).1 => apply in_call in H
      | _ ∈ (emit _).1 => apply in_emit in H
      | _ ∈ (Fatal _ _).1 => apply in_Fatal in H
      | _ ∈ (Fetch _ _).1 => apply in_Fetch in H
      | _ ∈ (or_fatal _ _).1 => apply in_or_fatal in H as [H|(? & _ & H)]
      | _ ∈ (or_return _ _ _).1 =>
          apply in_or_return in H as [H|[(? & _ & H)|(? & _ & H)]]
      | _ ∈ (mbind _ _).1 =>
          first [ apply in_cbind in H as [H|(? & _ & H)]
                | apply in_mbind in H as [H|(? & _ & H)] ]
      | _ ∈ (try _ _).1 => apply in_try in H as [H|(? & _ & H)]
      | _ ∈ (Proc_bind _ _ _ _).1 => apply in_bind in H as [H|(? & _ & H)]
      | _ ∈ (if ?c then _ else _).1 => destruct c eqn:?
      | _ ∈ (match ?c with _ => _ end).1 => destruct c eqn:?
      end ].

Ltac in_list := apply list_elem_of_In; simpl; tauto.

Ltac in_keys := rewrite ?elem_of_app, ?elem_of_cons; auto 12.

Lemma in_main env e :
  e ∈ (main env).1 →
  e ∈ (main_preflight env).1
  ∨ (main_preflight env).2 = Return (configured env) ∧
    (e ∈ (main_initialise (configured env) env).1
     ∨ (∃ err, (main_initialise (configured env) env).2 = Return (inl err)
               ∧ e = ELog LError "Failed to initialise tracing" (Some err))
     ∨ (∃ closer, (main_initialise (configured env) env).2 = Return (inr closer)
          ∧ (e ∈ (main_deferred (configured env) env).1
             ∨ (e = EClose ∧ closer = Some tt
                ∧ ∃ a, (main_deferred (configured env) env).2 = Return a)))).
Proof.
  unfold main. intros [H|(v & Hv & H)]%in_mbind; [auto|].
  right. pose proof (main_preflight_returns env v Hv) as ->. split; [exact Hv|].
  apply in_or_return in H as [H|[(err & Hs & H)|(closer & Hs & H)]]; [auto|eauto|].
  right. right. exists closer. split; [exact Hs|].
  apply in_defer in H as [H|[H R]]; [auto|]. right.
  destruct closer as [[]|]; [|inversion H].
  inversion H; subst; [auto|]. inversion H2.
Qed.

Lemma GetString_configured env key :
  key ≠ "storage-path" → GetString (configured env) key = GetString (config env) key.
Proof. intros H. apply GetString_SetDefault_other. exact H. Qed.

Lemma bind_returns {A B} (m : Proc A) (f : A → Proc B) b :
  (Proc_bind A B f m).2 = Return b → ∃ a, m.2 = Return a ∧ (f a).2 = Return b.
Proof. rewrite bind_status. destruct m.2 as [a|code|]; [eauto|discriminate..]. Qed.

(** [main_preflight] works with the configuration [fetchConfig]
    returned, and initialises logging only when [runCommands]
    returned. *)
Lemma in_main_preflight env e :
  e ∈ (main_preflight env).1 →
  e ∈ (fetchConfig env).1
  ∨ (∃ err, e = ELog LFatal "Failed to fetch configuration" (Some err))
  ∨ (succeeds (fetchConfig env) ∧
     (e ∈ (initMajordomo (configured env) env).1
      ∨ (∃ err, e = ELog LFatal "Failed to initialise majordomo" (Some err))
      ∨ e ∈ (runCommands (configured env) env).1
      ∨ ((runCommands (configured env) env).2 = Return tt ∧
         (e = ECall InitLogging
          ∨ ∃ err, e = ELog LFatal "Failed to initialise logging" (Some err))))).
Proof.
  unfold main_preflight. intros [H|(v & Hv & H)]%in_mbind.
  - apply in_or_fatal in H as [H|(err & _ & H)]; eauto.
  - apply or_fatal_status in Hv. pose proof Hv as Hc.
    apply fetchConfig_default_storage_path in Hc as [-> _]. fold (configured env) in *.
    right. right. split; [eexists; exact Hv|].
    apply in_mbind in H as [H|(_ & _ & H)]; [origin H; subst; eauto|].
    apply in_mbind in H as [H|([] & Hr & H)]; [auto|].
    right. right. right. split; [exact Hr|].
    origin H; subst; eauto.
Qed.

Lemma in_fetchConfig env e :
  e ∈ (fetchConfig env).1 →
  e = ECall ParseFlags ∨ e = ECall BindPFlags ∨ e = ECall ReadInConfig.
Proof.
  unfold fetchConfig, pflag_Parse, read_configuration. intros H. origin H; auto.
Qed.

Lemma in_initMajordomo v env e :
  e ∈ (initMajordomo v env).1 →
  (∃ x, e = ECall x ∧ x ∈ [NewMajordomo; NewDirectConfidant; RegisterDirectConfidant;
                            NewFileConfidant; RegisterFileConfidant])
  ∨ (is_empty (GetString v "majordomo.gsm.credentials") = false ∧
     (e ∈ (resolvePath v env (GetString v "majordomo.gsm.credentials")).1
      ∨ e = ECall NewGSMConfidant ∨ e = ECall RegisterGSMConfidant)).
Proof.
  unfold initMajordomo. intros H.
  origin H; subst;
    try (left; eexists; split; [reflexivity|in_list]);
    right; (split; [apply negb_true_iff; assumption|auto]).
Qed.

Lemma in_runCommands v env e :
  e ∈ (runCommands v env).1 →
  (GetBool v "version" = true ∧ e = EPrintf (ReleaseVersion ++ newline))
  ∨ (GetBool v "version" = false ∧ GetBool v "show-certificates" = true ∧
     (e = ECall ShowCertificates
      ∨ ∃ err, e = ELog LFatal "show-certificates failed" (Some err)))
  ∨ (GetBool v "version" = false ∧ GetBool v "show-certificates" = false ∧
     GetBool v "show-permissions" = true ∧ e = ECall DumpPermissions)
  ∨ (GetBool v "version" = false ∧ GetBool v "show-certificates" = false ∧
     GetBool v "show-permissions" = false ∧
     (e = ECall ExportSlashingProtection ∨ e = ECall ImportSlashingProtection)).
Proof.
  unfold runCommands, run_to_exit. intros H.
  destruct (GetBool v "version"); [origin H; auto|].
  destruct (GetBool v "show-certificates");
    [origin H; right; left; (split; [reflexivity|split; [reflexivity|eauto]])|].
  destruct (GetBool v "show-permissions");
    [origin H; right; right; left; auto|].
  origin H; right; right; right; auto.
Qed.

(** [initProfiling] always returns nil; with a profile address it
    logs one line and starts the goroutine that serves, which logs
    when serving fails. *)
Lemma initProfiling_eq v env :
  initProfiling v env
  = ((if is_empty (GetString v "profile-address") then []
      else ELog LInfo "Starting profile server" None
             :: EGo (EServe (GetString v "profile-address"))
             :: match failure env ListenAndServe with
                | Some err =>
                    [EGo (ELog LError "Failed to start profile server" (Some err))]
                | None => []
                end),
     Return (inr tt)).
Proof.
  unfold initProfiling, serve, go, lift, emit, ok, fail, mbind, Call_bind, try.
  destruct (is_empty (GetString v "profile-address")); [reflexivity|]. cbn [negb].
  destruct (failure env ListenAndServe); reflexivity.
Qed.

Lemma initProfiling_returns v env : (initProfiling v env).2 = Return (inr tt).
Proof. rewrite initProfiling_eq. reflexivity. Qed.

Lemma in_initProfiling v env e :
  e ∈ (initProfiling v env).1 →
  is_empty (GetString v "profile-address") = false ∧
  (e = ELog LInfo "Starting profile server" None
   ∨ e = EGo (EServe (GetString v "profile-address"))
   ∨ ∃ err, failure env ListenAndServe = Some err
            ∧ e = EGo (ELog LError "Failed to start profile server" (Some err))).
Proof.
  rewrite initProfiling_eq. cbn [fst].
  destruct (is_empty (GetString v "profile-address")); [intros H; inversion H|].
  intros H. split; [reflexivity|].
  apply elem_of_cons in H as [H|H]; [auto|].
  apply elem_of_cons in H as [H|H]; [auto|].
  destruct (failure env ListenAndServe) as [err|]; [|inversion H].
  apply list_elem_of_singleton in H. eauto.
Qed.

Lemma in_initTracing v env e :
  e ∈ (initTracing v env).1 →
  is_empty (GetString v "tracing-address") = false ∧ e = ECall NewTracer.
Proof. unfold initTracing. intros H. origin H; auto. Qed.

Lemma in_main_initialise v env e :
  e ∈ (main_initialise v env).1 →
  (is_empty (GetString v "server.name") = true ∧
   e = ELog LFatal "No server name set; cannot start" None)
  ∨ (is_empty (GetString v "server.name") = false ∧
     (e = ELog LTrace "Main package" None
      ∨ e = ELog LInfo "Starting dirk" None
      ∨ e ∈ (initProfiling v env).1
      ∨ e ∈ (initTracing v env).1)).
Proof.
  destruct (is_empty (GetString v "server.name")) eqn:N.
  - rewrite (main_initialise_unnamed _ _ N). intros H. left.
    inversion H; subst; [auto|]. inversion H2.
  - unfold main_initialise, logModules. rewrite N. intros H. right.
    split; [reflexivity|].
    apply in_bind in H as [H|(_ & _ & H)]; [|auto].
    apply in_mbind in H as [H|(_ & _ & H)]; [origin H|].
    apply in_mbind in H as [H|(_ & _ & H)]; [origin H; auto|].
    apply in_mbind in H as [H|(_ & _ & H)]; [origin H; auto|].
    apply in_or_fatal in H as [H|(err & Hs & H)]; [auto|].
    rewrite initProfiling_returns in Hs. discriminate.
Qed.

Lemma in_startMonitor v env e :
  e ∈ (startMonitor v env).1 →
  e = ELog LTrace "Starting metrics service" None
  ∨ (is_empty (GetString v "metrics.listen-address") = true ∧
     e = ELog LDebug "No metrics listen address supplied; monitor not starting" None)
  ∨ (is_empty (GetString v "metrics.listen-address") = false ∧ e = ECall NewPrometheus).
Proof. unfold startMonitor. intros H. origin H; auto. Qed.

(** The events of [main] once initialisation has succeeded. *)
Lemma in_main_deferred v env e :
  e ∈ (main_deferred v env).1 →
  e ∈ [EGOMAXPROCS (int_mul (NumCPU env) 8); ECall InitBLS; ECall RegisterMetrics;
       ESetRelease ReleaseVersion; ESetReady false]
  ∨ (∃ msg err, e = ELog LError msg (Some err) ∧
       msg ∈ ["Failed to initialise BLS library"; "Failed to start metrics service";
              "Failed to register metrics"; "Failed to initialise services"])
  ∨ e ∈ (startMonitor v env).1
  ∨ e ∈ (startServices v env).1
  ∨ (succeeds (startServices v env) ∧
     (e ∈ [ESetReady true; ELog LInfo "All services operational" None;
           ELog LInfo "Stopping dirk" None; ESetReady false; ESleep (2 * Second)]
      ∨ e ∈ (wait_for_signal (sigCh env)).1)).
Proof.
  unfold main_deferred. intros H.
  apply in_mbind in H as [H|(_ & _ & H)]; [origin H; subst; left; in_list|].
  apply in_or_return in H as [H|[(err & _ & H)|(_ & _ & H)]];
    [origin H; subst; left; in_list
    |right; left; exists "Failed to initialise BLS library", err; split; [exact H|in_list]|].
  apply in_or_return in H as [H|[(err & _ & H)|(_ & _ & H)]];
    [auto
    |right; left; exists "Failed to start metrics service", err; split; [exact H|in_list]|].
  apply in_or_return in H as [H|[(err & _ & H)|(_ & _ & H)]];
    [origin H; subst; left; in_list
    |right; left; exists "Failed to register metrics", err; split; [exact H|in_list]|].
  apply in_mbind in H as [H|(_ & _ & H)]; [origin H; subst; left; in_list|].
  apply in_mbind in H as [H|(_ & _ & H)]; [origin H; subst; left; in_list|].
  apply in_or_return in H as [H|[(err & _ & H)|(u & Hs & H)]];
    [auto
    |right; left; exists "Failed to initialise services", err; split; [exact H|in_list]|].
  right. right. right. right. split; [eexists; exact Hs|].
  apply in_mbind in H as [H|(_ & _ & H)]; [origin H; subst; left; in_list|].
  apply in_mbind in H as [H|(_ & _ & H)]; [origin H; subst; left; in_list|].
  apply in_mbind in H as [H|(_ & _ & H)]; [auto|].
  apply in_mbind in H as [H|(_ & _ & H)]; [origin H; subst; left; in_list|].
  apply in_mbind in H as [H|(_ & _ & H)]; [origin H; subst; left; in_list|].
  origin H; subst; left; in_list.
Qed.

Lemma optional_key_elem key :
  negb (is_empty key) = true → key ∈ optional_key key.
Proof.
  unfold optional_key. destruct (is_empty key); [discriminate|]. intros _. left.
Qed.

(** The events of [startServices]: constructor calls, fetches of the
    configured secrets, and what [resolvePath] and the loop over the
    peers log. *)
Lemma in_startServices v env e :
  e ∈ (startServices v env).1 →
  (∃ x, e = ECall x ∧ x ∈ service_calls)
  ∨ (∃ key, e = EFetch key ∧
            key ∈ (unlocker_keys v ++ certificate_keys v ++ process_keys v)%list)
  ∨ e ∈ (resolvePath v env (GetString v "storage-path")).1
  ∨ (succeeds (startPeers v env) ∧
     e ∈ (endpoints_loop
            (visit env RangeStartServices (map_to_list (GetStringMapString v "peers")))
            ∅).1).
Proof.
  assert (C : ∀ x, x ∈ service_calls → e = ECall x →
              ∃ x, e = ECall x ∧ x ∈ service_calls) by eauto.
  unfold startServices, initStores, startUnlocker, startChecker, startFetcher,
    startLocker, startRuler, initRules, startLister, optional_secret.
  unfold unlocker_keys, certificate_keys, process_keys.
  intros H.
  apply in_cbind in H as [H|(? & _ & H)];
    [origin H; left; (eapply C; [|exact H]); in_list|].
  apply in_cbind in H as [H|(? & _ & H)].
  { apply in_wrapped in H.
    apply in_cbind in H as [H|(? & _ & H)].
    { apply in_fetch_passphrases in H as (k & Hk & ->).
      right. left. exists k. split; [reflexivity|in_keys]. }
    apply in_cbind in H as [H|(? & _ & H)].
    { apply in_fetch_passphrases in H as (k & Hk & ->).
      right. left. exists k. split; [reflexivity|in_keys]. }
    origin H; left; (eapply C; [|exact H]); in_list. }
  do 3 (apply in_cbind in H as [H|(? & _ & H)];
        [origin H; left; (eapply C; [|exact H]); in_list|]).
  apply in_cbind in H as [H|(? & _ & H)].
  { apply in_wrapped in H.
    apply in_cbind in H as [H|(? & _ & H)];
      [|origin H; left; (eapply C; [|exact H]); in_list].
    apply in_wrapped in H.
    apply in_cbind in H as [H|(? & _ & H)]; [apply in_lift in H; auto|].
    origin H; left; (eapply C; [|exact H]); in_list. }
  do 2 (apply in_cbind in H as [H|(? & _ & H)];
        [origin H; left; (eapply C; [|exact H]); in_list|]).
  apply in_cbind in H as [H|(peers & Hpeers & H)].
  { apply in_wrapped in H. unfold startPeers in H.
    origin H; left; (eapply C; [|exact H]); in_list. }
  apply wrapped_status in Hpeers.
  do 2 (apply in_cbind in H as [H|(? & _ & H)];
        [origin H; subst; right; left; eexists; split; [reflexivity|in_keys]|]).
  apply in_cbind in H as [H|(? & _ & H)].
  { origin H; subst. right. left. eexists. split; [reflexivity|].
    match goal with K : negb _ = true |- _ => apply optional_key_elem in K end.
    in_keys. }
  apply in_cbind in H as [H|(? & _ & H)];
    [origin H; left; (eapply C; [|exact H]); in_list|].
  apply in_cbind in H as [H|(? & _ & H)]; [origin H|].
  apply in_cbind in H as [H|(? & _ & H)].
  { apply in_lift in H. right. right. right. split; [eexists; exact Hpeers|exact H]. }
  apply in_cbind in H as [H|(? & _ & H)].
  { origin H; subst. right. left. eexists. split; [reflexivity|].
    match goal with K : negb _ = true |- _ => apply optional_key_elem in K end.
    in_keys. }
  origin H; left; (eapply C; [|exact H]); in_list.
Qed.

(** The events of a run of [main], by the step that emits them. *)
Ltac main_origin H :=
  apply in_main in H as [H|[? [H|[(? & _ & H)|(? & _ & [H|(H & ? & _)])]]]];
  [ apply in_main_preflight in H as [H|[(? & H)|[? [H|[(? & H)|[H|[? [H|(? & H)]]]]]]]];
    [ apply in_fetchConfig in H as [H|[H|H]]
    | idtac
    | apply in_initMajordomo in H as [(? & H & ?)|[? [H|[H|H]]]]
    | idtac
    | apply in_runCommands in H
        as [[? H]|[(? & ? & [H|(? & H)])|[(? & ? & ? & H)|(? & ? & ? & [H|H])]]]
    | idtac
    | idtac ]
  | apply in_main_initialise in H as [[? H]|[? [H|[H|[H|H]]]]];
    [ idtac | idtac | idtac
    | apply in_initProfiling in H as [? [H|[H|(? & ? & H)]]]
    | apply in_initTracing in H as [? H] ]
  | idtac
  | apply in_main_deferred in H as [H|[(? & ? & H & ?)|[H|[H|[? [H|H]]]]]];
    [ idtac | idtac
    | apply in_startMonitor in H as [H|[[? H]|[? H]]]
    | apply in_startServices in H as [(? & H & ?)|[(? & H & ?)|[H|[? H]]]]
    | idtac
    | apply in_wait_for_signal in H as [H|[? H]] ]
  | idtac ].

(** An event that the step at hand cannot have emitted. *)
Ltac elsewhere H :=
  first
    [ discriminate H
    | apply in_resolvePath in H as (? & ? & ? & H); discriminate H
    | apply in_endpoints_loop in H as (? & ? & ? & ? & H); discriminate H
    | apply in_fetch_passphrases in H as (? & ? & H); discriminate H
    | solve [apply list_elem_of_In in H; simpl in H; intuition discriminate]
    | solve [injection H as <-;
             match goal with
             | K : _ ∈ _ |- _ =>
                 apply list_elem_of_In in K; simpl in K; intuition discriminate
             end] ].

(** X10.  The Google secrets manager confidant, the profile server,
    the tracer and the metrics service are created only when their
    setting is not empty; the profile server listens on the
    configured address. *)
Theorem optional_subsystems_need_configuration (env : Env) :
  (ECall NewGSMConfidant ∈ (main env).1 →
   is_empty (GetString (config env) "majordomo.gsm.credentials") = false) ∧
  (∀ address, EGo (EServe address) ∈ (main env).1 →
   address = GetString (config env) "profile-address" ∧ is_empty address = false) ∧
  (ECall NewTracer ∈ (main env).1 →
   is_empty (GetString (config env) "tracing-address") = false) ∧
  (ECall NewPrometheus ∈ (main env).1 →
   is_empty (GetString (config env) "metrics.listen-address") = false).
Proof.
  split; [|split; [|split]].
  - intros H. main_origin H; try elsewhere H.
    rewrite <- (GetString_configured env) by discriminate. assumption.
  - intros address H. main_origin H; try elsewhere H.
    injection H as ->. rewrite <- (GetString_configured env) by discriminate. auto.
  - intros H. main_origin H; try elsewhere H.
    rewrite <- (GetString_configured env) by discriminate. assumption.
  - intros H. main_origin H; try elsewhere H.
    rewrite <- (GetString_configured env) by discriminate. assumption.
Qed.

(** X9.  Every secret [main] asks majordomo for is named in the
    configuration: an unlocker passphrase, the server certificate or
    key, the CA certificate, or the generation passphrase. *)
Theorem fetches_only_configured_secrets (env : Env) (key : string) :
  EFetch key ∈ (main env).1 →
  key ∈ (unlocker_keys (config env) ++ certificate_keys (config env)
           ++ process_keys (config env))%list.
Proof.
  intros H. main_origin H; try elsewhere H.
  injection H as ->.
  unfold unlocker_keys, certificate_keys, process_keys in *.
  unfold GetStringSlice in *. 
  rewrite !GetString_configured in * by discriminate. assumption.
Qed.

Lemma fetches_only_configured_secrets_witness :
  EFetch "wallet-a" ∈ (main (quiet_env three_passphrases)).1 ∧
  "wallet-a" ∈ (unlocker_keys three_passphrases ++ certificate_keys three_passphrases
                  ++ process_keys three_passphrases)%list.
Proof.
  assert (H : EFetch "wallet-a" ∈ (main (quiet_env three_passphrases)).1)
    by (apply list_elem_of_In; vm_compute; tauto).
  split; [exact H|].
  exact (fetches_only_configured_secrets (quiet_env three_passphrases) "wallet-a" H).
Defined.

Lemma startServices_peers_parse v env e :
  fair_ranges env →
  succeeds (startPeers v env) →
  e ∈ (endpoints_loop
         (visit env RangeStartServices (map_to_list (GetStringMapString v "peers")))
         ∅).1 →
  False.
Proof.
  intros Hfair S H. apply succeeds_startPeers in S as [F _].
  rewrite (forallb_permutation _ _ _ (Hfair RangeStartPeers _)) in F.
  rewrite <- (forallb_permutation _ _ _ (Hfair RangeStartServices _)) in F.
  rewrite (endpoints_loop_quiet _ _ F) in H. inversion H.
Qed.

(** X7.  The branch of [startServices] that logs "Invalid peer ID" and
    skips the entry is never taken in a run of [main]: a key that
    does not parse makes [startPeers] fail first. *)
Theorem invalid_peer_id_never_logged (env : Env) (err : option error) :
  fair_ranges env →
  ELog LError "Invalid peer ID" err ∉ (main env).1.
Proof.
  intros Hfair H. main_origin H; try elsewhere H.
  eapply startServices_peers_parse; eassumption.
Qed.

Lemma invalid_peer_id_never_logged_witness :
  fair_ranges (quiet_env one_peer_named) ∧
  ELog LError "Invalid peer ID" None ∉ (main (quiet_env one_peer_named)).1.
Proof.
  assert (F : fair_ranges (quiet_env one_peer_named)) by (intros site entries; reflexivity).
  split; [exact F|].
  exact (invalid_peer_id_never_logged (quiet_env one_peer_named) None F).
Defined.

(** A step that is reached only when everything before it succeeded
    decides the result when it is the last one. *)
Lemma last_step_seq {A B} e (r : error + B) (m : Call A) (k : Call B) :
  e ∉ m.1 →
  (e ∈ k.1 → (∃ t, k.1 = (t ++ [e])%list ∧ e ∉ t) ∧ k.2 = Return r) →
  e ∈ (m ;; k).1 →
  (∃ t, (m ;; k).1 = (t ++ [e])%list ∧ e ∉ t) ∧ (m ;; k).2 = Return r.
Proof.
  intros Hm Hk [H|(a & Hs & H)]%in_cbind; [contradiction|].
  destruct (Hk H) as [(t & E & Ht) R].
  assert (S : succeeds m) by (eexists; exact Hs). split.
  - exists (m.1 ++ t)%list. rewrite (seq_trace _ _ S), E, app_assoc.
    split; [reflexivity|]. intros [K|K]%elem_of_app; contradiction.
  - unfold mbind, Call_bind, try. rewrite bind_status, Hs. exact R.
Qed.

(** An event of a later step is there only when the step before it
    returned without error. *)
Lemma reached_seq {A B} e (m : Call A) (k : Call B) :
  e ∉ m.1 → e ∈ (m ;; k).1 → succeeds m ∧ e ∈ k.1.
Proof.
  intros Hm [H|(a & Hs & H)]%in_cbind; [contradiction|].
  split; [eexists; exact Hs|exact H].
Qed.

(** The constructor of the API service is called only when every
    step of [startServices] before it succeeded. *)
Lemma api_reached v env :
  ECall NewAPI ∈ (startServices v env).1 → api_can_be_built v env.
Proof.
  unfold startServices. intros H.
  repeat (apply reached_seq in H as [?S H];
          [|intros K;
            unfold initStores, startUnlocker, startChecker, startFetcher, startLocker,
              startRuler, initRules, startLister, startPeers, optional_secret in K;
            origin K; elsewhere K]).
  clear H. unfold startChecker, startFetcher, startLocker, startLister in *.
  repeat match goal with
         | K : succeeds (wrapped _ _) |- _ => apply succeeds_wrapped in K
         end.
  repeat match goal with
         | K : succeeds (call _ _) |- _ => apply succeeds_call in K
         | K : succeeds (Fetch _ _) |- _ => apply succeeds_Fetch in K
         | K : succeeds (optional_secret _ _ _) |- _ => apply succeeds_optional_secret in K
         | K : succeeds (initStores _ _) |- _ => apply succeeds_initStores in K
         | K : succeeds (startUnlocker _ _) |- _ => apply succeeds_startUnlocker in K
         | K : succeeds (startRuler _ _) |- _ => apply succeeds_startRuler in K
         | K : succeeds (startPeers _ _) |- _ => apply succeeds_startPeers in K
         | K : succeeds (mret (ParseUint _)) |- _ => apply succeeds_server_id in K
         end.
  unfold api_can_be_built, certificate_keys, process_keys. split.
  - intros x Hx Hne. apply list_elem_of_In in Hx. simpl in Hx.
    intuition (subst; solve [assumption | congruence]).
  - rewrite !forallb_app. cbn [forallb]. rewrite !andb_true_iff. tauto.
Qed.

(** X5.  The API service is constructed at most once and only as the
    very last step of [startServices]: when its constructor is
    called, every step before it has succeeded (the other
    constructors, the stores, the secrets, the storage path, the
    server id and the peers), and what [startServices] returns is
    that constructor's outcome. *)
Theorem api_is_built_last (v : Viper) (env : Env) :
  ECall NewAPI ∈ (startServices v env).1 →
  api_can_be_built v env ∧
  (∃ t, (startServices v env).1 = (t ++ [ECall NewAPI])%list ∧ ECall NewAPI ∉ t) ∧
  (startServices v env).2
  = Return (match failure env NewAPI with
            | Some err => inl (Wrap err "failed to create API service")
            | None => inr tt
            end).
Proof.
  intros H. split; [exact (api_reached v env H)|]. revert H.
  unfold startServices.
  repeat (apply last_step_seq;
          [intros K;
           unfold initStores, startUnlocker, startChecker, startFetcher, startLocker,
             startRuler, initRules, startLister, startPeers, optional_secret in K;
           origin K; elsewhere K|]).
  intros _. unfold mbind, Call_bind, try, wrapped. rewrite call_eq.
  destruct (failure env NewAPI) as [err|]; cbn;
    (split; [exists []; split; [reflexivity|apply not_elem_of_nil]|reflexivity]).
Qed.

Lemma api_is_built_last_witness :
  ECall NewAPI
    ∈ (startServices one_peer_named (failing NewAPI (New "no listener") one_peer_named)).1 ∧
  stores (failing NewAPI (New "no listener") one_peer_named) ≠ [] ∧
  failure (failing NewAPI (New "no listener") one_peer_named) NewWalletManager = None ∧
  (startServices one_peer_named (failing NewAPI (New "no listener") one_peer_named)).2
  = Return (inl (Wrap (New "no listener") "failed to create API service")).
Proof.
  assert (H : ECall NewAPI
              ∈ (startServices one_peer_named
                   (failing NewAPI (New "no listener") one_peer_named)).1)
    by (apply list_elem_of_In; vm_compute; tauto).
  split; [exact H|].
  destruct (api_is_built_last one_peer_named
              (failing NewAPI (New "no listener") one_peer_named) H)
    as ((C & S & _) & _ & E).
  split; [exact S|]. split; [|exact E].
  apply C; [|discriminate]. apply list_elem_of_In. simpl. tauto.
Defined.

Lemma exits_on_fatal_bind {A B} Q (m : Proc A) (f : A → Proc B) :
  exits_on_fatal Q m → (∀ a, m.2 = Return a → exits_on_fatal Q (f a)) →
  exits_on_fatal Q (Proc_bind A B f m).
Proof.
  unfold exits_on_fatal. intros [Hm Cm] Hf.
  rewrite bind_trace, bind_status, existsb_app.
  destruct m.2 as [a|code|] eqn:E.
  - destruct (Hf a eq_refl) as [Hfa Cfa].
    destruct (existsb is_fatal m.1); [destruct Hm as [Hm _]; discriminate (Hm eq_refl)|].
    exact (conj Hfa Cfa).
  - cbn [existsb]. rewrite orb_false_r. split.
    + rewrite Hm. split; intros [= ->]; reflexivity.
    + intros c [= <-]. apply Cm. reflexivity.
  - cbn [existsb]. rewrite orb_false_r. split; [|discriminate].
    rewrite Hm. split; discriminate.
Qed.

Lemma exits_on_fatal_mbind {A B} Q (m : Proc A) (f : A → Proc B) :
  exits_on_fatal Q m → (∀ a, m.2 = Return a → exits_on_fatal Q (f a)) →
  exits_on_fatal Q (m ≫= f).
Proof. apply exits_on_fatal_bind. Qed.

Lemma exits_on_fatal_returned {A} Q t (a : A) :
  existsb is_fatal t = false → exits_on_fatal Q ((t, Return a) : Proc A).
Proof.
  intros H. unfold exits_on_fatal. cbn [fst snd]. rewrite H.
  split; [split; discriminate|discriminate].
Qed.

Lemma exits_on_fatal_blocked {A} Q t :
  existsb is_fatal t = false → exits_on_fatal Q ((t, Blocked) : Proc A).
Proof.
  intros H. unfold exits_on_fatal. cbn [fst snd]. rewrite H.
  split; [split; discriminate|discriminate].
Qed.

Lemma exits_on_fatal_Fatal {A} Q msg err : exits_on_fatal Q (Fatal msg err : Proc A).
Proof.
  unfold exits_on_fatal. cbn. split; [split; reflexivity|].
  intros code [= <-]. auto.
Qed.

Lemma exits_on_fatal_exit0 {A} (Q : Z → Prop) :
  Q 0%Z → exits_on_fatal Q (os_Exit 0 : Proc A).
Proof.
  intros q. unfold exits_on_fatal. cbn. split; [split; discriminate|].
  intros code [= <-]. auto.
Qed.

Lemma exits_on_fatal_try {A B} Q (m : Call A) (k : A → Call B) :
  exits_on_fatal Q m → (∀ a, m.2 = Return (inr a) → exits_on_fatal Q (k a)) →
  exits_on_fatal Q (try m k).
Proof.
  intros Hm Hk. unfold try. apply exits_on_fatal_bind; [exact Hm|].
  intros [err|a] E; [apply exits_on_fatal_returned; reflexivity|apply Hk, E].
Qed.

Lemma exits_on_fatal_cbind {A B} Q (m : Call A) (k : A → Call B) :
  exits_on_fatal Q m → (∀ a, m.2 = Return (inr a) → exits_on_fatal Q (k a)) →
  exits_on_fatal Q (m ≫= k).
Proof. apply exits_on_fatal_try. Qed.

Lemma exits_on_fatal_wrapped {A} Q msg (m : Call A) :
  exits_on_fatal Q m → exits_on_fatal Q (wrapped msg m).
Proof.
  intros H. unfold wrapped. apply exits_on_fatal_bind; [exact H|].
  intros [err|a] _; apply exits_on_fatal_returned; reflexivity.
Qed.

Lemma exits_on_fatal_lift {A} Q (m : Proc A) :
  exits_on_fatal Q m → exits_on_fatal Q (lift m).
Proof.
  intros H. unfold lift. apply exits_on_fatal_bind; [exact H|].
  intros a _. apply exits_on_fatal_returned. reflexivity.
Qed.

Lemma exits_on_fatal_call Q env x : exits_on_fatal Q (call env x).
Proof. rewrite call_eq. apply exits_on_fatal_returned. reflexivity. Qed.

Lemma exits_on_fatal_Fetch Q env key : exits_on_fatal Q (Fetch env key).
Proof. apply exits_on_fatal_returned. reflexivity. Qed.

Lemma exits_on_fatal_emit Q e : is_fatal e = false → exits_on_fatal Q (emit e).
Proof. intros H. apply exits_on_fatal_returned. simpl. rewrite H. reflexivity. Qed.

Lemma exits_on_fatal_or_fatal {A} Q msg (m : Call A) :
  exits_on_fatal Q m → exits_on_fatal Q (or_fatal msg m).
Proof.
  intros H. unfold or_fatal. apply exits_on_fatal_bind; [exact H|].
  intros [err|a] _; [apply exits_on_fatal_Fatal|apply exits_on_fatal_returned; reflexivity].
Qed.

Lemma exits_on_fatal_or_return {A} Q msg (m : Call A) (k : A → Proc unit) :
  exits_on_fatal Q m → (∀ a, m.2 = Return (inr a) → exits_on_fatal Q (k a)) →
  exits_on_fatal Q (or_return msg m k).
Proof.
  intros Hm Hk. unfold or_return. apply exits_on_fatal_bind; [exact Hm|].
  intros [err|a] E; [apply exits_on_fatal_emit; reflexivity|apply Hk, E].
Qed.

Lemma exits_on_fatal_defer {A} Q closing (m : Proc A) :
  existsb is_fatal closing = false → exits_on_fatal Q m →
  exits_on_fatal Q (defer closing m).
Proof.
  unfold defer, exits_on_fatal. intros Hc [Hm Cm].
  destruct m as [t [a|code|]]; cbn [fst snd] in *; [|auto|auto].
  rewrite existsb_app, Hc, orb_false_r. auto.
Qed.

Lemma exits_on_fatal_weaken {A} (Q Q' : Z → Prop) (m : Proc A) :
  (∀ code, Q code → Q' code) → exits_on_fatal Q m → exits_on_fatal Q' m.
Proof.
  unfold exits_on_fatal. intros HQ [Hm Cm]. split; [exact Hm|].
  intros code E. destruct (Cm code E) as [->|q]; auto.
Qed.

Lemma exits_on_fatal_events {A} Q (m : Proc A) :
  (∀ e, e ∈ m.1 → is_fatal e = false) → returns m → exits_on_fatal Q m.
Proof.
  intros He [a Ha]. destruct m as [t s]. cbn [fst snd] in *. subst s.
  apply exits_on_fatal_returned.
  destruct (existsb is_fatal t) eqn:E; [|reflexivity].
  apply existsb_exists in E as (e & Hin & Hf).
  apply list_elem_of_In in Hin. rewrite (He e Hin) in Hf. discriminate.
Qed.

Lemma fetch_passphrases_returns env msg keys acc :
  returns (fetch_passphrases env msg keys acc).
Proof.
  destruct (forallb (fetches env) keys) eqn:F.
  - rewrite (fetch_passphrases_ok _ _ _ _ F). eexists. reflexivity.
  - destruct (fetch_passphrases_fail env msg keys acc F) as (f & err & -> & _).
    eexists. reflexivity.
Qed.

Lemma endpoints_loop_returns entries m : returns (endpoints_loop entries m).
Proof. destruct (endpoints_loop_result entries m) as [H _]. eexists. exact H. Qed.

Lemma exits_on_fatal_fetch_passphrases Q env msg keys acc :
  exits_on_fatal Q (fetch_passphrases env msg keys acc).
Proof.
  apply exits_on_fatal_events; [|apply fetch_passphrases_returns].
  intros e (k & _ & ->)%in_fetch_passphrases. reflexivity.
Qed.

Lemma exits_on_fatal_endpoints_loop Q entries m :
  exits_on_fatal Q (endpoints_loop entries m).
Proof.
  apply exits_on_fatal_events; [|apply endpoints_loop_returns].
  intros e (k & err & _ & _ & ->)%in_endpoints_loop. reflexivity.
Qed.

Lemma exits_on_fatal_wait_for_signal Q sigs : exits_on_fatal Q (wait_for_signal sigs).
Proof.
  assert (F : ∀ t, (∀ e, e ∈ t → e = ECancel ∨ ∃ sig, e = ESignal sig) →
              existsb is_fatal t = false).
  { intros t Ht. destruct (existsb is_fatal t) eqn:E; [|reflexivity].
    apply existsb_exists in E as (e & Hin & Hf). apply list_elem_of_In in Hin.
    destruct (Ht e Hin) as [->|[sig ->]]; discriminate. }
  pose proof (in_wait_for_signal) as I.
  destruct (wait_for_signal sigs) as [t [[]|code|]] eqn:E.
  - apply exits_on_fatal_returned, F. intros e He. apply (I e sigs). rewrite E. exact He.
  - rewrite wait_for_signal_eq in E. destruct (existsb stops sigs); discriminate.
  - apply exits_on_fatal_blocked, F. intros e He. apply (I e sigs). rewrite E. exact He.
Qed.

Lemma exits_on_fatal_resolvePath Q v env path : exits_on_fatal Q (resolvePath v env path).
Proof.
  destruct (IsAbs path) eqn:A.
  - rewrite resolvePath_absolute by exact A. apply exits_on_fatal_returned. reflexivity.
  - rewrite resolvePath_relative by exact A.
    destruct (base_of v env); [apply (exits_on_fatal_Fatal Q)|].
    apply exits_on_fatal_returned. reflexivity.
Qed.

Ltac exit_step :=
  first
    [ apply exits_on_fatal_Fatal
    | apply exits_on_fatal_call
    | apply exits_on_fatal_Fetch
    | apply exits_on_fatal_resolvePath
    | apply exits_on_fatal_fetch_passphrases
    | apply exits_on_fatal_endpoints_loop
    | apply exits_on_fatal_wait_for_signal
    | apply exits_on_fatal_returned; reflexivity
    | apply exits_on_fatal_emit; reflexivity
    | match goal with
      | |- exits_on_fatal _ (wrapped _ _) => apply exits_on_fatal_wrapped
      | |- exits_on_fatal _ (lift _) => apply exits_on_fatal_lift
      | |- exits_on_fatal _ (or_fatal _ _) => apply exits_on_fatal_or_fatal
      | |- exits_on_fatal _ (or_return _ _ _) => apply exits_on_fatal_or_return; [|intros ? _]
      | |- exits_on_fatal _ (mbind _ _) =>
          first [ apply exits_on_fatal_cbind; [|intros ? _]
                | apply exits_on_fatal_mbind; [|intros ? _] ]
      | |- exits_on_fatal _ (try _ _) => apply exits_on_fatal_try; [|intros ? _]
      | |- exits_on_fatal _ (Proc_bind _ _ _ _) => apply exits_on_fatal_bind; [|intros ? _]
      | |- exits_on_fatal _ (if ?c then _ else _) => destruct c
      | |- exits_on_fatal _ (match ?c with _ => _ end) => destruct c
      end ].

Lemma exits_on_fatal_startServices Q v env : exits_on_fatal Q (startServices v env).
Proof.
  unfold startServices, initStores, startUnlocker, startChecker, startFetcher,
    startLocker, startRuler, initRules, startLister, startPeers, optional_secret.
  repeat exit_step.
Qed.

Lemma exits_on_fatal_main_deferred Q v env : exits_on_fatal Q (main_deferred v env).
Proof.
  unfold main_deferred, startMonitor.
  repeat first [apply exits_on_fatal_startServices | exit_step].
Qed.

Lemma exits_on_fatal_initProfiling Q v env : exits_on_fatal Q (initProfiling v env).
Proof.
  rewrite initProfiling_eq. apply exits_on_fatal_returned.
  destruct (is_empty _); [reflexivity|].
  destruct (failure env ListenAndServe); reflexivity.
Qed.

Lemma exits_on_fatal_main_initialise Q v env : exits_on_fatal Q (main_initialise v env).
Proof.
  unfold main_initialise, initTracing, logModules.
  repeat first [apply exits_on_fatal_initProfiling | exit_step].
Qed.

Lemma exits_on_fatal_runCommands v env :
  GetBool v "export-slashing-protection" = false →
  GetBool v "import-slashing-protection" = false →
  exits_on_fatal (λ code, code = 0%Z ∧ one_shot v = true) (runCommands v env).
Proof.
  intros He Hi. unfold runCommands, one_shot. rewrite He, Hi.
  destruct (GetBool v "version"), (GetBool v "show-certificates"),
    (GetBool v "show-permissions"); cbn [orb];
    try (apply exits_on_fatal_returned; reflexivity);
    repeat first [apply exits_on_fatal_exit0; split; reflexivity | exit_step].
Qed.

(** [fetchConfig] ends the process only when the command line does
    not parse, and then with status 2 and without a fatal log line. *)
Lemma exits_on_fatal_fetchConfig env : exits_on_fatal (other_exit env) (fetchConfig env).
Proof.
  rewrite fetchConfig_eq. destruct (failure env ParseFlags) eqn:P.
  - split; [split; discriminate|]. intros code [= <-].
    right. right. split; [reflexivity|congruence].
  - destruct (failure env BindPFlags); [apply exits_on_fatal_returned; reflexivity|].
    destruct (base_of (config env) env); apply exits_on_fatal_returned; reflexivity.
Qed.

Lemma GetBool_configured env key : GetBool (configured env) key = GetBool (config env) key.
Proof. reflexivity. Qed.

Lemma exits_on_fatal_main_preflight env :
  GetBool (config env) "export-slashing-protection" = false →
  GetBool (config env) "import-slashing-protection" = false →
  exits_on_fatal (other_exit env) (main_preflight env).
Proof.
  intros He Hi. unfold main_preflight.
  apply exits_on_fatal_mbind.
  { apply exits_on_fatal_or_fatal, exits_on_fatal_fetchConfig. }
  intros v Hv. apply or_fatal_status in Hv.
  apply fetchConfig_default_storage_path in Hv as [-> _].
  fold (configured env).
  apply exits_on_fatal_mbind; [unfold initMajordomo; repeat exit_step|]. intros _ _.
  apply exits_on_fatal_mbind; [|intros _ _; repeat exit_step].
  apply (exits_on_fatal_weaken (λ code, code = 0%Z ∧ one_shot (configured env) = true));
    [intros code Hc; left; exact Hc|].
  apply (exits_on_fatal_runCommands (configured env) env); assumption.
Qed.

(** X14.  Unless slashing protection is exported or imported, a run of
    [main] ends with exit status 1 exactly when it logged a fatal
    error; the only other statuses it exits with are 0, after a
    one-shot command, and 2, when [pflag.Parse] rejects the command
    line, which ends the run there and then. *)
Theorem exit_status_1_iff_fatal_log (env : Env) :
  GetBool (config env) "export-slashing-protection" = false →
  GetBool (config env) "import-slashing-protection" = false →
  (existsb is_fatal (main env).1 = true ↔ (main env).2 = Exited 1) ∧
  (∀ code, (main env).2 = Exited code →
           code = 1%Z
           ∨ (code = 0%Z ∧ one_shot (config env) = true)
           ∨ (code = 2%Z ∧ failure env ParseFlags ≠ None)) ∧
  (failure env ParseFlags ≠ None → main env = ([ECall ParseFlags], Exited 2)).
Proof.
  intros He Hi.
  assert (X : exits_on_fatal (other_exit env) (main env)).
  { rewrite main_unfold.
    apply exits_on_fatal_bind; [apply exits_on_fatal_main_preflight; assumption|].
    intros v _.
    apply exits_on_fatal_bind; [apply exits_on_fatal_main_initialise|].
    intros [err|closer] _; [apply exits_on_fatal_emit; reflexivity|].
    apply exits_on_fatal_defer; [destruct closer; reflexivity|].
    apply exits_on_fatal_main_deferred. }
  destruct X as [X1 X2]. split; [exact X1|]. split; [exact X2|].
  intros P. rewrite main_unfold. unfold main_preflight, or_fatal, mbind.
  rewrite fetchConfig_eq. destruct (failure env ParseFlags); [reflexivity|contradiction].
Qed.

Lemma exit_status_1_iff_fatal_log_witness :
  GetBool (config (quiet_env unnamed)) "export-slashing-protection" = false ∧
  GetBool (config (quiet_env unnamed)) "import-slashing-protection" = false ∧
  existsb is_fatal (main (quiet_env unnamed)).1 = true ∧
  main (failing ParseFlags (New "unknown flag: --foo") unnamed)
  = ([ECall ParseFlags], Exited 2).
Proof.
  split; [reflexivity|]. split; [reflexivity|].
  destruct (exit_status_1_iff_fatal_log (quiet_env unnamed) eq_refl eq_refl) as [[_ H] _].
  destruct (exit_status_1_iff_fatal_log
              (failing ParseFlags (New "unknown flag: --foo") unnamed) eq_refl eq_refl)
    as (_ & _ & P).
  split; [apply H; vm_compute; reflexivity|].
  apply P. discriminate.
Defined.

Lemma runCommands_exits v env :
  one_shot v = true → ∃ code, (runCommands v env).2 = Exited code.
Proof.
  unfold one_shot, runCommands.
  destruct (GetBool v "version"); [intros _; eexists; reflexivity|].
  destruct (GetBool v "show-certificates").
  - intros _. unfold or_fatal, mbind. rewrite call_eq, bind_return.
    destruct (failure env ShowCertificates); eexists; reflexivity.
  - destruct (GetBool v "show-permissions"); [|discriminate].
    intros _. eexists. reflexivity.
Qed.

(** With a one-shot command on the command line the preflight ends
    the process. *)
Lemma main_preflight_one_shot env :
  one_shot (config env) = true → ∃ code, (main_preflight env).2 = Exited code.
Proof.
  intros O. pose proof (main_preflight_finishes env) as F. unfold finishes in F.
  destruct (main_preflight env).2 as [v|code|] eqn:E; [exfalso|eauto|contradiction].
  unfold main_preflight in E.
  change (?m ≫= ?f) with (Proc_bind _ _ f m) in E.
  apply bind_returns in E as (v0 & Hv & E).
  apply or_fatal_status in Hv.
  apply fetchConfig_default_storage_path in Hv as [-> _].
  change (?m ≫= ?f) with (Proc_bind _ _ f m) in E.
  apply bind_returns in E as (_ & _ & E).
  change (?m ≫= ?f) with (Proc_bind _ _ f m) in E.
  apply bind_returns in E as (u & R & _).
  destruct (runCommands_exits (SetDefault (config env) "storage-path" "storage") env O)
    as [code X].
  rewrite X in R. discriminate.
Qed.

Lemma main_stops_in_preflight env code :
  (main_preflight env).2 = Exited code →
  main env = ((main_preflight env).1, Exited code).
Proof.
  intros E. rewrite main_unfold.
  destruct (main_preflight env) as [t s]. cbn [fst snd] in *. subst s. reflexivity.
Qed.

Lemma main_preflight_version env :
  GetBool (config env) "version" = true →
  succeeds (fetchConfig env) → succeeds (initMajordomo (configured env) env) →
  main_preflight env
  = (((fetchConfig env).1 ++ (initMajordomo (configured env) env).1
        ++ [EPrintf (ReleaseVersion ++ newline)])%list,
     Exited 0).
Proof.
  intros V [v Hf] [[] Hm].
  pose proof Hf as Hc. apply fetchConfig_default_storage_path in Hc as [-> _].
  fold (configured env) in *.
  unfold main_preflight, or_fatal, mbind, mret, Proc_ret.
  destruct (fetchConfig env) as [t1 s1]. cbn [fst snd] in *. subst s1.
  rewrite bind_return. cbn [fst snd]. rewrite bind_return. cbn [fst snd].
  destruct (initMajordomo (configured env) env) as [t2 s2]. cbn [fst snd] in *.
  subst s2. rewrite !bind_return. cbn [fst snd].
  unfold runCommands. rewrite GetBool_configured, V.
  cbn. rewrite !app_nil_r. reflexivity.
Qed.

(** The preflight when nothing fails and no command is requested. *)
Lemma main_preflight_completes env :
  succeeds (fetchConfig env) → succeeds (initMajordomo (configured env) env) →
  command_requested (config env) = false → failure env InitLogging = None →
  main_preflight env
  = (((fetchConfig env).1 ++ (initMajordomo (configured env) env).1
        ++ [ECall InitLogging])%list,
     Return (configured env)).
Proof.
  intros [v Hf] [[] Hm] C L.
  pose proof Hf as Hc. apply fetchConfig_default_storage_path in Hc as [-> _].
  fold (configured env) in *.
  unfold command_requested, one_shot in C.
  repeat (apply orb_false_iff in C as [C ?]).
  unfold main_preflight, or_fatal, mbind, mret, Proc_ret.
  destruct (fetchConfig env) as [t1 s1]. cbn [fst snd] in *. subst s1.
  rewrite bind_return. cbn [fst snd]. rewrite bind_return. cbn [fst snd].
  destruct (initMajordomo (configured env) env) as [t2 s2]. cbn [fst snd] in *.
  subst s2. rewrite !bind_return. cbn [fst snd].
  unfold runCommands. rewrite !GetBool_configured.
  repeat match goal with K : GetBool _ _ = false |- _ => rewrite K; clear K end.
  cbn. rewrite L. cbn. rewrite ?app_nil_r. reflexivity.
Qed.

(** What the preflight does not do when a one-shot command is
    requested: it neither initialises logging nor complains about
    the server name. *)
Lemma one_shot_preflight env e :
  one_shot (config env) = true → e ∈ (main_preflight env).1 →
  e ≠ ECall InitLogging ∧
  ∀ err, e ≠ ELog LFatal "No server name set; cannot start" err.
Proof.
  intros O H.
  apply in_main_preflight in H
    as [H|[(? & H)|[_ [H|[(? & H)|[H|[R [H|(? & H)]]]]]]]].
  - apply in_fetchConfig in H as [H|[H|H]]; subst e; split; intros; discriminate.
  - subst e. split; intros; discriminate.
  - apply in_initMajordomo in H as [(x & H & Hx)|[_ [H|[H|H]]]].
    + subst e. split; [|intros; discriminate]. intros [= ->].
      apply list_elem_of_In in Hx. simpl in Hx. intuition discriminate.
    + apply in_resolvePath in H as (? & _ & _ & H). subst e. split; intros; discriminate.
    + subst e. split; intros; discriminate.
    + subst e. split; intros; discriminate.
  - subst e. split; intros; discriminate.
  - apply in_runCommands in H
      as [[_ H]|[(_ & _ & [H|(? & H)])|[(_ & _ & _ & H)|(_ & _ & _ & [H|H])]]];
      subst e; split; intros; discriminate.
  - destruct (runCommands_exits (configured env) env O) as [c X].
    rewrite X in R. discriminate.
  - destruct (runCommands_exits (configured env) env O) as [c X].
    rewrite X in R. discriminate.
Qed.

(** X13.  With [--version], [--show-certificates] or
    [--show-permissions] the process exits in [runCommands] at the
    latest: logging is not initialised and no subsystem is started.
    With [--version], once configuration and majordomo are there,
    the version is printed and the exit status is 0. *)
Theorem one_shot_commands_exit (env : Env) :
  one_shot (config env) = true →
  (∃ code, (main env).2 = Exited code) ∧
  (ECall InitLogging ∉ (main env).1) ∧
  forallb (λ e, negb (starts_subsystem e)) (main env).1 = true ∧
  (GetBool (config env) "version" = true →
   succeeds (fetchConfig env) → succeeds (initMajordomo (configured env) env) →
   main env
   = (((fetchConfig env).1 ++ (initMajordomo (configured env) env).1
         ++ [EPrintf (ReleaseVersion ++ newline)])%list,
      Exited 0)).
Proof.
  intros O. destruct (main_preflight_one_shot env O) as [code E].
  rewrite (main_stops_in_preflight env code E). cbn [fst snd].
  split; [eauto|]. split; [|split].
  - intros H. destruct (one_shot_preflight env _ O H) as [N _]. contradiction.
  - pose proof (main_preflight_only env) as H0. unfold only in H0.
    exact (forallb_imp _ _ _ H0 preflight_starts_nothing).
  - intros V Hf Hm. pose proof (main_preflight_version env V Hf Hm) as P.
    rewrite P in E |- *. cbn [fst snd] in *. injection E as <-. reflexivity.
Qed.

Lemma one_shot_commands_exit_witness :
  one_shot (config (quiet_env version_only)) = true ∧
  (ECall InitLogging ∉ (main (quiet_env version_only)).1) ∧
  main (quiet_env version_only)
  = ([ECall ParseFlags; ECall BindPFlags; ECall ReadInConfig; ECall NewMajordomo;
      ECall NewDirectConfidant; ECall RegisterDirectConfidant; ECall NewFileConfidant;
      ECall RegisterFileConfidant; EPrintf (ReleaseVersion ++ newline)],
     Exited 0).
Proof.
  split; [reflexivity|].
  destruct (one_shot_commands_exit (quiet_env version_only) eq_refl) as (_ & H & _ & V).
  split; [exact H|].
  rewrite V; [reflexivity|reflexivity|eexists; reflexivity|eexists; reflexivity].
Defined.

(** C8 (as the code behaves).  With an empty server name every run
    of [main] ends in an exit of the process, and starts neither the
    profile server, tracing, BLS, metrics nor any service before it
    does.  When [fetchConfig], [initMajordomo] and [initLogging]
    succeed and no command is requested, the run ends with the fatal
    log line "No server name set; cannot start" and exit status 1.
    With [--version], [--show-certificates] or [--show-permissions]
    the process exits in [runCommands] instead: that line is not
    logged, and logging is not even initialised. *)
Theorem empty_server_name_stops_startup (env : Env) :
  is_empty (GetString (config env) "server.name") = true →
  (∃ code, (main env).2 = Exited code) ∧
  forallb (λ e, negb (starts_subsystem e)) (main env).1 = true ∧
  (succeeds (fetchConfig env) → succeeds (initMajordomo (configured env) env) →
   command_requested (config env) = false → failure env InitLogging = None →
   main env
   = (((fetchConfig env).1 ++ (initMajordomo (configured env) env).1
         ++ [ECall InitLogging; ELog LFatal "No server name set; cannot start" None])%list,
      Exited 1)) ∧
  (one_shot (config env) = true →
   (∀ err, ELog LFatal "No server name set; cannot start" err ∉ (main env).1) ∧
   ECall InitLogging ∉ (main env).1).
Proof.
  intros Hname.
  assert (Hn : is_empty (GetString (configured env) "server.name") = true).
  { unfold configured. rewrite GetString_SetDefault_other by discriminate. exact Hname. }
  split; [|split; [|split]].
  - rewrite main_unfold.
    pose proof (main_preflight_returns env) as Hv.
    pose proof (main_preflight_finishes env) as Hf. unfold finishes in Hf.
    destruct (main_preflight env) as [t0 [v|code|]]; cbn [fst snd] in *.
    + specialize (Hv v eq_refl). subst v.
      rewrite bind_return, (main_initialise_unnamed _ _ Hn), bind_exited.
      eexists. reflexivity.
    + rewrite bind_exited. eexists. reflexivity.
    + congruence.
  - rewrite main_unfold.
    pose proof (main_preflight_only env) as H0. unfold only in H0.
    pose proof (main_preflight_returns env) as Hv.
    pose proof (forallb_imp _ _ _ H0 preflight_starts_nothing) as Hq.
    destruct (main_preflight env) as [t0 [v|code|]]; cbn [fst snd] in *.
    + specialize (Hv v eq_refl). subst v.
      rewrite bind_return, (main_initialise_unnamed _ _ Hn), bind_exited. cbn [fst snd].
      rewrite forallb_app, Hq. reflexivity.
    + rewrite bind_exited. exact Hq.
    + rewrite bind_blocked. exact Hq.
  - intros Sf Sm C L. rewrite main_unfold, (main_preflight_completes env Sf Sm C L).
    rewrite bind_return, (main_initialise_unnamed _ _ Hn), bind_exited. cbn [fst snd].
    rewrite <- !app_assoc. reflexivity.
  - intros O. destruct (main_preflight_one_shot env O) as [code E].
    rewrite (main_stops_in_preflight env code E). cbn [fst].
    split.
    + intros err H. destruct (one_shot_preflight env _ O H) as [_ N].
      exact (N err eq_refl).
    + intros H. destruct (one_shot_preflight env _ O H) as [N _]. contradiction.
Qed.

Lemma empty_server_name_stops_startup_witness :
  is_empty (GetString (config (quiet_env unnamed)) "server.name") = true
  ∧ main (quiet_env unnamed)
    = ([ECall ParseFlags; ECall BindPFlags; ECall ReadInConfig; ECall NewMajordomo;
        ECall NewDirectConfidant; ECall RegisterDirectConfidant; ECall NewFileConfidant;
        ECall RegisterFileConfidant; ECall InitLogging;
        ELog LFatal "No server name set; cannot start" None],
       Exited 1).
Proof.
  assert (H : is_empty (GetString (config (quiet_env unnamed)) "server.name") = true)
    by (vm_compute; reflexivity).
  split; [exact H|].
  destruct (empty_server_name_stops_startup (quiet_env unnamed) H) as (_ & _ & E & _).
  rewrite E; [reflexivity|eexists; reflexivity|eexists; reflexivity
             |reflexivity|reflexivity].
Defined.

(** With an empty server name and the version flag set, the process
    prints the version and exits with status 0: no fatal error is
    logged. *)
Lemma version_flag_exits_without_fatal :
  is_empty (GetString (config (quiet_env version_only)) "server.name") = true
  ∧ (main (quiet_env version_only)).2 = Exited 0
  ∧ existsb is_fatal (main (quiet_env version_only)).1 = false
  ∧ EPrintf (ReleaseVersion ++ newline) ∈ (main (quiet_env version_only)).1.
Proof.
  split; [vm_compute; reflexivity|]. split; [vm_compute; reflexivity|].
  split; [vm_compute; reflexivity|].
  apply list_elem_of_In. vm_compute. tauto.
Qed.

(** X6.  Without any store [initStores] fails: [startServices] does no
    more than read the stores configuration, returns the error "no
    stores" (unwrapped) when that reading succeeds, and [main] never
    sets the readiness flag to true. *)
Theorem no_stores_no_services (v : Viper) (env : Env) :
  stores env = [] →
  ¬ succeeds (initStores v env) ∧
  (∀ e, e ∈ (startServices v env).1 →
        e = ECall UnmarshalStores ∨ e = ECall InitStores) ∧
  (failure env UnmarshalStores = None → failure env InitStores = None →
   startServices v env
   = ([ECall UnmarshalStores; ECall InitStores], Return (inl (New "no stores")))) ∧
  (ESetReady true ∉ (main env).1).
Proof.
  intros Hs.
  assert (N : ∀ v, ¬ succeeds (initStores v env)).
  { intros v0 S. apply succeeds_initStores in S as (_ & _ & S). contradiction. }
  split; [apply N|split; [|split]].
  - intros e H. unfold startServices in H.
    apply in_cbind in H as [H|(a & Ha & _)].
    + unfold initStores in H.
      apply in_cbind in H as [H|(_ & _ & H)];
        [apply in_wrapped, in_call in H; auto|].
      apply in_cbind in H as [H|(_ & _ & H)];
        [apply in_wrapped, in_call in H; auto|].
      rewrite Hs in H. inversion H.
    + exfalso. apply (N v). eexists. exact Ha.
  - intros H1 H2. unfold startServices, initStores, wrapped, mbind, Call_bind, try.
    rewrite !call_eq, H1, H2, Hs. reflexivity.
  - intros H. apply ready_needs_services in H.
    apply (N (configured env)).
    assert (S : succeeds (startServices (configured env) env)) by (eexists; exact H).
    apply succeeds_startServices in S as ((U & I & S) & _).
    apply succeeds_initStores. auto.
Qed.

Lemma no_stores_no_services_witness :
  stores (mkEnv unnamed (λ _, None) (inr "/home/dirk") 4 (λ key, inr key) []
                (λ _ entries, entries) [SIGTERM]) = [] ∧
  startServices unnamed
    (mkEnv unnamed (λ _, None) (inr "/home/dirk") 4 (λ key, inr key) []
           (λ _ entries, entries) [SIGTERM])
  = ([ECall UnmarshalStores; ECall InitStores], Return (inl (New "no stores"))).
Proof.
  split; [reflexivity|].
  apply (no_stores_no_services unnamed
           (mkEnv unnamed (λ _, None) (inr "/home/dirk") 4 (λ key, inr key) []
                  (λ _ entries, entries) [SIGTERM]));
    reflexivity.
Defined.

(** X12.  [initMajordomo] succeeds exactly when the majordomo service
    and the direct and file confidants are created and registered
    and, if credentials for it are configured, so is the Google
    secrets manager confidant; on success these were its calls, in
    this order. *)
Theorem initMajordomo_registers_confidants (v : Viper) (env : Env) :
  let credentials := GetString v "majordomo.gsm.credentials" in
  (succeeds (initMajordomo v env) ↔
     (∀ x, x ∈ [NewMajordomo; NewDirectConfidant; RegisterDirectConfidant;
                NewFileConfidant; RegisterFileConfidant] → failure env x = None) ∧
     (is_empty credentials = false →
      (IsAbs credentials = true ∨ ∃ dir, base_of v env = inr dir) ∧
      failure env NewGSMConfidant = None ∧ failure env RegisterGSMConfidant = None)) ∧
  (succeeds (initMajordomo v env) →
   (initMajordomo v env).1
   = ECall <$> ([NewMajordomo; NewDirectConfidant; RegisterDirectConfidant;
                 NewFileConfidant; RegisterFileConfidant]
                  ++ if is_empty credentials then []
                     else [NewGSMConfidant; RegisterGSMConfidant])%list).
Proof.
  cbv zeta. unfold initMajordomo.
  rewrite <- Forall_forall, !Forall_cons, Forall_nil.
  split.
  - rewrite !succeeds_seq, !succeeds_wrapped, !succeeds_call.
    destruct (is_empty (GetString v "majordomo.gsm.credentials")) eqn:G; cbn [negb].
    + pose proof (succeeds_ok (A := unit) tt). intuition discriminate.
    + rewrite !succeeds_seq, !succeeds_wrapped, !succeeds_call, succeeds_lift.
      rewrite resolvePath_returns_iff.
      pose proof (succeeds_ok (A := unit) tt). intuition.
  - intros H.
    repeat (apply succeeds_seq in H as [?H H]; rewrite seq_trace by assumption).
    rewrite !wrapped_trace, !call_trace.
    destruct (is_empty (GetString v "majordomo.gsm.credentials")) eqn:G; cbn [negb] in *.
    + reflexivity.
    + match goal with K : succeeds (lift _ ;; _) |- _ => rename K into S end.
      apply succeeds_seq in S as [S1 S]. rewrite (seq_trace _ _ S1).
      apply succeeds_seq in S as [S2 S]. rewrite (seq_trace _ _ S2).
      rewrite !wrapped_trace, !call_trace, lift_trace.
      apply succeeds_lift, resolvePath_returns_iff, (resolvePath_quiet v env) in S1
        as [p ->].
      reflexivity.
Qed.

Lemma initTracing_eq v env :
  initTracing v env
  = if is_empty (GetString v "tracing-address") then ([], Return (inr None))
    else ([ECall NewTracer],
          Return (match failure env NewTracer with
                  | Some err => inl err
                  | None => inr (Some tt)
                  end)).
Proof.
  unfold initTracing. destruct (is_empty _); [reflexivity|].
  unfold mbind, Call_bind, try. rewrite call_eq.
  destruct (failure env NewTracer); reflexivity.
Qed.

Lemma main_initialise_eq v env :
  is_empty (GetString v "server.name") = false →
  main_initialise v env
  = ((ELog LTrace "Main package" None :: ELog LInfo "Starting dirk" None
        :: (initProfiling v env).1 ++ (initTracing v env).1)%list,
     (initTracing v env).2).
Proof.
  intros N. unfold main_initialise, or_fatal, logModules, emit, mbind, mret, Proc_ret.
  rewrite N. pose proof (initProfiling_returns v env) as P.
  destruct (initProfiling v env) as [tp sp]. cbn [fst snd] in *. subst sp.
  rewrite !bind_return. cbn [fst snd app]. rewrite app_nil_r. reflexivity.
Qed.

(** The run of [main] once initialisation has returned. *)
Lemma main_run env closer :
  (main_preflight env).2 = Return (configured env) →
  (main_initialise (configured env) env).2 = Return (inr closer) →
  main env
  = (((main_preflight env).1 ++ (main_initialise (configured env) env).1
        ++ (defer (match closer with Some _ => [EClose] | None => [] end)
                  (main_deferred (configured env) env)).1)%list,
     (defer (match closer with Some _ => [EClose] | None => [] end)
            (main_deferred (configured env) env)).2).
Proof.
  intros E0 E1. rewrite main_unfold.
  destruct (main_preflight env) as [t0 s0]. cbn [fst snd] in *. subst s0.
  rewrite bind_return. cbn [fst snd].
  destruct (main_initialise (configured env) env) as [t1 s1]. cbn [fst snd] in *.
  subst s1. rewrite bind_return. cbn [fst snd]. rewrite <- ?app_assoc. reflexivity.
Qed.

Lemma returns_preflight env :
  returns (main_preflight env) → (main_preflight env).2 = Return (configured env).
Proof. intros [v E]. rewrite E, (main_preflight_returns env v E). reflexivity. Qed.

Ltac run_main :=
  repeat (first [ rewrite bind_return | rewrite bind_exited | rewrite bind_blocked
                | rewrite defer_return | rewrite defer_exited | rewrite defer_blocked ];
          cbn [fst snd app]).

(** The readiness flag is not set to true in a trace made of the
    pieces at hand. *)
Ltac never_ready Om Os :=
  let K := fresh "K" in
  intros K;
  repeat first [ apply elem_of_app in K as [K|K] | apply elem_of_cons in K as [K|K] ];
  first [ discriminate K
        | exact (not_in_only _ _ (ESetReady true) Om eq_refl K)
        | exact (not_in_only _ _ (ESetReady true) Os eq_refl K)
        | inversion K ].

(** The run of [main_deferred] up to the failure of one of its steps. *)
Lemma main_deferred_failure v env msg err :
  startup_failure v env msg err →
  msg ≠ "Failed to initialise tracing" →
  ∃ t, main_deferred v env = ((t ++ [ELog LError msg (Some err)])%list, Return tt)
       ∧ ESetReady true ∉ t.
Proof.
  intros F Hmsg.
  pose proof (startMonitor_only v env) as Om. unfold only in Om.
  pose proof (startServices_only v env) as Os. unfold only in Os.
  unfold main_deferred, or_return, call, fail, ok, mbind, emit.
  destruct F as [err T|err T B|err T B M|err T B [monitor M] R|err T B [monitor M] R S];
    [contradiction|..]; run_main; rewrite B; run_main.
  - exists [EGOMAXPROCS (int_mul (NumCPU env) 8); ECall InitBLS].
    split; [reflexivity|never_ready Om Os].
  - destruct (startMonitor v env) as [t2 s2]. cbn [fst snd] in *. subst s2. run_main.
    exists ([EGOMAXPROCS (int_mul (NumCPU env) 8); ECall InitBLS] ++ t2)%list.
    split; [rewrite <- app_assoc; reflexivity|never_ready Om Os].
  - destruct (startMonitor v env) as [t2 s2]. cbn [fst snd] in *. subst s2. run_main.
    rewrite R. run_main.
    exists ([EGOMAXPROCS (int_mul (NumCPU env) 8); ECall InitBLS] ++ t2
              ++ [ECall RegisterMetrics])%list.
    split; [rewrite <- !app_assoc; reflexivity|never_ready Om Os].
  - destruct (startMonitor v env) as [t2 s2]. cbn [fst snd] in *. subst s2. run_main.
    rewrite R. run_main.
    destruct (startServices v env) as [t3 s3]. cbn [fst snd] in *. subst s3. run_main.
    exists ([EGOMAXPROCS (int_mul (NumCPU env) 8); ECall InitBLS] ++ t2
              ++ [ECall RegisterMetrics; ESetRelease ReleaseVersion; ESetReady false]
              ++ t3)%list.
    split; [rewrite <- !app_assoc; reflexivity|never_ready Om Os].
Qed.

(** X16.  When the preflight has returned, the server has a name, and
    [initTracing], [InitBLS], [startMonitor], [registerMetrics] or
    [startServices] fails, [main] logs that error at error level and
    returns: nothing follows the line but the deferred close of the
    tracer (if one was created), the readiness flag is never set to
    true, and [main] returns rather than calling [os.Exit]. *)
Theorem startup_failure_returns_from_main (env : Env) (msg : string) (err : error) :
  returns (main_preflight env) →
  is_empty (GetString (config env) "server.name") = false →
  startup_failure (configured env) env msg err →
  (main env).2 = Return tt ∧
  (ESetReady true ∉ (main env).1) ∧
  ∃ t, (main env).1
       = (t ++ ELog LError msg (Some err) :: deferred_close (configured env) env)%list.
Proof.
  intros R Hname F. apply returns_preflight in R.
  assert (N : is_empty (GetString (configured env) "server.name") = false).
  { rewrite GetString_configured by discriminate. exact Hname. }
  pose proof (main_preflight_only env) as O0. unfold only in O0.
  pose proof (main_initialise_only (configured env) env) as O1. unfold only in O1.
  assert (R0 : ESetReady true ∉ (main_preflight env).1)
    by exact (not_in_only _ _ (ESetReady true) O0 eq_refl).
  assert (R1 : ESetReady true ∉ (main_initialise (configured env) env).1)
    by exact (not_in_only _ _ (ESetReady true) O1 eq_refl).
  destruct (decide (msg = "Failed to initialise tracing")) as [->|Hmsg].
  - assert (T : (initTracing (configured env) env).2 = Return (inl err)).
    { inversion F; subst; try assumption;
        match goal with K : "Failed to initialise tracing" = _ |- _ => discriminate K end. }
    assert (E1 : (main_initialise (configured env) env).2 = Return (inl err)).
    { rewrite (main_initialise_eq _ _ N). exact T. }
    unfold deferred_close. rewrite T. rewrite main_unfold.
    destruct (main_preflight env) as [t0 s0]. cbn [fst snd] in *. subst s0.
    rewrite bind_return. cbn [fst snd].
    destruct (main_initialise (configured env) env) as [t1 s1]. cbn [fst snd] in *.
    subst s1. rewrite bind_return. cbn [fst snd emit].
    split; [reflexivity|]. split.
    + intros [K|[K|K]%elem_of_app]%elem_of_app; try contradiction.
      apply list_elem_of_singleton in K. discriminate K.
    + exists (t0 ++ t1)%list. rewrite <- app_assoc. reflexivity.
  - assert (T : succeeds (initTracing (configured env) env)).
    { inversion F; subst; try assumption. contradiction. }
    destruct T as [closer T].
    assert (E1 : (main_initialise (configured env) env).2 = Return (inr closer)).
    { rewrite (main_initialise_eq _ _ N). exact T. }
    destruct (main_deferred_failure _ _ _ _ F Hmsg) as (t & D & Rt).
    rewrite (main_run env closer R E1), D. unfold defer, deferred_close. rewrite T.
    cbn [fst snd].
    assert (C : ESetReady true ∉ match closer with Some _ => [EClose] | None => [] end).
    { destruct closer; intros K; [|inversion K].
      apply list_elem_of_singleton in K. discriminate K. }
    split; [reflexivity|]. split.
    + intros [K|[K|[[K|K]%elem_of_app|K]%elem_of_app]%elem_of_app]%elem_of_app;
        try contradiction.
      apply list_elem_of_singleton in K. discriminate K.
    + exists ((main_preflight env).1 ++ (main_initialise (configured env) env).1 ++ t)%list.
      rewrite <- !app_assoc. reflexivity.
Qed.

Lemma startup_failure_returns_from_main_witness :
  returns (main_preflight (failing InitBLS (New "no BLS") traced)) ∧
  startup_failure (configured (failing InitBLS (New "no BLS") traced))
    (failing InitBLS (New "no BLS") traced)
    "Failed to initialise BLS library" (New "no BLS") ∧
  main (failing InitBLS (New "no BLS") traced)
  = ([ECall ParseFlags; ECall BindPFlags; ECall ReadInConfig; ECall NewMajordomo;
      ECall NewDirectConfidant; ECall RegisterDirectConfidant; ECall NewFileConfidant;
      ECall RegisterFileConfidant; ECall InitLogging;
      ELog LTrace "Main package" None; ELog LInfo "Starting dirk" None;
      ECall NewTracer; EGOMAXPROCS 32; ECall InitBLS;
      ELog LError "Failed to initialise BLS library" (Some (New "no BLS")); EClose],
     Return tt).
Proof.
  assert (R : returns (main_preflight (failing InitBLS (New "no BLS") traced)))
    by (eexists; vm_compute; reflexivity).
  assert (F : startup_failure (configured (failing InitBLS (New "no BLS") traced))
                (failing InitBLS (New "no BLS") traced)
                "Failed to initialise BLS library" (New "no BLS"))
    by (apply bls_failed; [eexists; vm_compute; reflexivity|reflexivity]).
  split; [exact R|]. split; [exact F|].
  destruct (startup_failure_returns_from_main _ _ _ R eq_refl F) as (S & _ & t & E).
  destruct (main (failing InitBLS (New "no BLS") traced)) as [tr st] eqn:M.
  cbn [fst snd] in S. subst st. f_equal.
  vm_compute in M. injection M as <-. reflexivity.
Defined.

(** The tracer is there to be closed exactly when [initTracing]
    created it. *)
Lemma main_initialise_tracer v env :
  (main_initialise v env).2 = Return (inr (Some tt))
  ↔ ECall NewTracer ∈ (main_initialise v env).1 ∧ failure env NewTracer = None.
Proof.
  destruct (is_empty (GetString v "server.name")) eqn:N.
  - rewrite (main_initialise_unnamed _ _ N). cbn [fst snd]. split; [discriminate|].
    intros [H _]. apply list_elem_of_singleton in H. discriminate H.
  - rewrite (main_initialise_eq _ _ N), initTracing_eq. cbn [fst snd].
    destruct (is_empty (GetString v "tracing-address")) eqn:T; cbn [fst snd].
    + split; [discriminate|]. intros [H _]. rewrite app_nil_r in H.
      apply elem_of_cons in H as [H|H]; [discriminate H|].
      apply elem_of_cons in H as [H|H]; [discriminate H|].
      apply in_initProfiling in H as [_ [H|[H|(? & _ & H)]]]; discriminate H.
    + destruct (failure env NewTracer) as [err|]; split.
      * discriminate.
      * intros [_ H]. discriminate H.
      * intros _. split; [|reflexivity].
        rewrite !elem_of_cons, elem_of_app, list_elem_of_singleton. auto.
      * reflexivity.
Qed.

Lemma main_deferred_no_close v env : EClose ∉ (main_deferred v env).1.
Proof.
  intros H. apply in_main_deferred in H as [H|[(? & ? & H & _)|[H|[H|[_ [H|H]]]]]];
    try elsewhere H.
  - apply in_startMonitor in H as [H|[[_ H]|[_ H]]]; discriminate H.
  - apply in_startServices in H as [(? & H & _)|[(? & H & _)|[H|[_ H]]]];
      try elsewhere H.
  - apply in_wait_for_signal in H as [H|[? H]]; discriminate H.
Qed.

(** X11.  The tracer is closed exactly when [main] returns after
    [initTracing] has created it, and closing it is then the last
    thing [main] does; it is not closed when the process exits or
    keeps waiting for a signal. *)
Theorem tracer_closed_when_main_returns (env : Env) :
  (EClose ∈ (main env).1
   ↔ (main env).2 = Return tt ∧ ECall NewTracer ∈ (main env).1
     ∧ failure env NewTracer = None) ∧
  (EClose ∈ (main env).1 → ∃ t, (main env).1 = (t ++ [EClose])%list ∧ EClose ∉ t).
Proof.
  pose proof (main_preflight_only env) as O0. unfold only in O0.
  pose proof (main_initialise_only (configured env) env) as O1. unfold only in O1.
  pose proof (main_deferred_no_close (configured env) env) as O2.
  assert (Closed : EClose ∈ (main env).1 →
            (main_preflight env).2 = Return (configured env) ∧
            (main_initialise (configured env) env).2 = Return (inr (Some tt)) ∧
            (main_deferred (configured env) env).2 = Return tt).
  { intros H. apply in_main in H as [H|[E0 [H|[(? & _ & H)|(closer & E1 & [H|H])]]]].
    - exfalso. exact (not_in_only _ _ EClose O0 eq_refl H).
    - exfalso. exact (not_in_only _ _ EClose O1 eq_refl H).
    - discriminate H.
    - contradiction.
    - destruct H as (_ & -> & [[] R]). auto. }
  split; [split|].
  - intros H. destruct (Closed H) as (E0 & E1 & E2).
    rewrite (main_run env _ E0 E1). unfold defer. rewrite E2. cbn [fst snd].
    apply main_initialise_tracer in E1 as [T F].
    split; [reflexivity|]. split; [|exact F].
    apply elem_of_app. right. apply elem_of_app. left. exact T.
  - intros (R & T & F).
    apply in_main in T as [T|[E0 [T|[(? & _ & T)|(closer & E1 & [T|T])]]]].
    + apply in_main_preflight in T
        as [T|[(? & T)|[_ [T|[(? & T)|[T|[_ [T|(? & T)]]]]]]]]; try discriminate T.
      * apply in_fetchConfig in T as [T|[T|T]]; discriminate T.
      * apply in_initMajordomo in T as [(? & T & ?)|[_ [T|[T|T]]]]; try elsewhere T.
      * apply in_runCommands in T
          as [[_ T]|[(_ & _ & [T|(? & T)])|[(_ & _ & _ & T)|(_ & _ & _ & [T|T])]]];
          discriminate T.
    + assert (E1 : (main_initialise (configured env) env).2 = Return (inr (Some tt)))
        by (apply main_initialise_tracer; auto).
      rewrite (main_run env _ E0 E1) in R |- *. cbn [fst snd] in *.
      unfold defer in *.
      destruct (main_deferred (configured env) env) as [td [[]|code|]];
        cbn [fst snd] in *; try discriminate R.
      rewrite !elem_of_app. right. right. right. left.
    + discriminate T.
    + exfalso. apply in_main_deferred in T
        as [T|[(? & ? & T & _)|[T|[T|[_ [T|T]]]]]]; try elsewhere T.
      * apply in_startMonitor in T as [T|[[_ T]|[_ T]]]; discriminate T.
      * apply in_startServices in T as [(? & T & ?)|[(? & T & _)|[T|[_ T]]]];
          try elsewhere T.
      * apply in_wait_for_signal in T as [T|[? T]]; discriminate T.
    + destruct T as [T _]. discriminate T.
  - intros H. destruct (Closed H) as (E0 & E1 & E2).
    rewrite (main_run env _ E0 E1). unfold defer. rewrite E2. cbn [fst snd].
    exists ((main_preflight env).1 ++ (main_initialise (configured env) env).1
              ++ (main_deferred (configured env) env).1)%list.
    split; [rewrite <- !app_assoc; reflexivity|].
    intros [K|[K|K]%elem_of_app]%elem_of_app.
    + exact (not_in_only _ _ EClose O0 eq_refl K).
    + exact (not_in_only _ _ EClose O1 eq_refl K).
    + contradiction.
Qed.

Lemma digit_bound c d : digit c = Some d → (d ≤ 9)%N.
Proof.
  unfold digit. destruct (_ && _) eqn:E; [|discriminate].
  intros [= <-]. apply andb_true_iff in E as [E1 E2].
  apply N.leb_le in E1, E2. lia.
Qed.

Lemma decimal_ge s : ∀ n id, decimal s n = Some id → (n ≤ id)%N.
Proof.
  induction s as [|c rest IH]; intros n id; cbn [decimal].
  - intros [= <-]. lia.
  - destruct (digit c) as [d|]; [|discriminate].
    intros H. apply IH in H. lia.
Qed.

Lemma parse_digits_decimal s0 s : ∀ n id,
  (n < 2 ^ 64)%N →
  parse_digits s0 s n = inr id ↔ decimal s n = Some id ∧ (id < 2 ^ 64)%N.
Proof.
  assert (C : cutoff = 1844674407370955162%N) by reflexivity.
  assert (M : maxUint64 = 18446744073709551615%N) by reflexivity.
  change (2 ^ 64)%N with 18446744073709551616%N.
  induction s as [|c rest IH]; intros n id Hn; cbn [parse_digits decimal].
  - split; [intros [= <-]; auto|]. intros [[= <-] _]. reflexivity.
  - destruct (digit c) as [d|] eqn:D; [|split; [discriminate|intros [[=] _]]].
    pose proof (digit_bound _ _ D) as Hd.
    change (2 ^ 64)%N with 18446744073709551616%N.
    destruct (N.leb_spec cutoff n) as [Hc|Hc].
    + split; [discriminate|]. intros [H Hid]. apply decimal_ge in H. lia.
    + rewrite (N.mod_small (n * 10)) by lia.
      destruct (N.lt_ge_cases (n * 10 + d) 18446744073709551616) as [Hs|Hs].
      * rewrite (N.mod_small (n * 10 + d)) by lia.
        destruct (N.ltb_spec (n * 10 + d) (n * 10)); [lia|].
        destruct (N.ltb_spec maxUint64 (n * 10 + d)); [lia|].
        cbn [orb]. apply IH. exact Hs.
      * assert (E : ((n * 10 + d) mod 18446744073709551616
                     = n * 10 + d - 18446744073709551616)%N).
        { symmetry. apply (N.mod_unique _ _ 1); lia. }
        rewrite E.
        destruct (N.ltb_spec (n * 10 + d - 18446744073709551616) (n * 10)); [|lia].
        cbn [orb]. split; [discriminate|].
        intros [K Hid]. apply decimal_ge in K. lia.
Qed.

Lemma ParseUint_decimal s id :
  ParseUint s = inr id
  ↔ is_empty s = false ∧ decimal s 0 = Some id ∧ (id < 2 ^ 64)%N.
Proof.
  unfold ParseUint. destruct (is_empty s).
  - split; [discriminate|]. intros [[=] _].
  - rewrite parse_digits_decimal by reflexivity. tauto.
Qed.

(** X8.  [strconv.ParseUint(s, 10, 64)] succeeds exactly on the
    non-empty strings of decimal digits whose value is below 2^64,
    and returns that value; so when [startServices] succeeds,
    [server.id] and every key of the peers map are such strings. *)
Theorem ids_are_decimal_uint64 :
  (∀ s id, ParseUint s = inr id
           ↔ is_empty s = false ∧ decimal s 0 = Some id ∧ (id < 2 ^ 64)%N) ∧
  (∀ v env, fair_ranges env → succeeds (startServices v env) →
     (∃ id, is_empty (GetString v "server.id") = false ∧
            decimal (GetString v "server.id") 0 = Some id ∧ (id < 2 ^ 64)%N) ∧
     (∀ key endpoint, GetStringMapString v "peers" !! key = Some endpoint →
        ∃ id, is_empty key = false ∧ decimal key 0 = Some id ∧ (id < 2 ^ 64)%N)).
Proof.
  split; [exact ParseUint_decimal|].
  intros v env Hfair S. apply succeeds_startServices in S.
  destruct S as (_ & _ & _ & _ & _ & _ & _ & _ & [Hp _] & _ & _ & _ & _ & Hid & _).
  assert (P : ∀ s, parses s = true →
              ∃ id, is_empty s = false ∧ decimal s 0 = Some id ∧ (id < 2 ^ 64)%N).
  { intros s. unfold parses. destruct (ParseUint s) as [err|id] eqn:E; [discriminate|].
    intros _. exists id. apply ParseUint_decimal. exact E. }
  split; [apply P, Hid|].
  intros key endpoint Hk. apply P.
  rewrite (forallb_permutation _ _ _ (Hfair RangeStartPeers _)) in Hp.
  rewrite forallb_forall in Hp.
  apply (Hp (key, endpoint)). apply list_elem_of_In, elem_of_map_to_list. exact Hk.
Qed.

(** Once [fetchConfig] has returned nil there is a base directory:
    the configured one, or the home directory it looked up. *)
Lemma base_after_fetchConfig env :
  succeeds (fetchConfig env) → ∃ dir, base_of (configured env) env = inr dir.
Proof.
  intros [v H]. apply fetchConfig_returns_nil in H as (_ & _ & _ & [dir B] & _).
  exists dir. unfold base_of in *.
  rewrite GetString_configured by discriminate. exact B.
Qed.

Lemma base_after_preflight env v :
  (main_preflight env).2 = Return v → ∃ dir, base_of (configured env) env = inr dir.
Proof.
  intros E. apply base_after_fetchConfig.
  unfold main_preflight in E.
  change (?m ≫= ?f) with (Proc_bind _ _ f m) in E.
  apply bind_returns in E as (v0 & Hv & _).
  apply or_fatal_status in Hv. eexists. exact Hv.
Qed.

(** X15.  The fatal errors a run of [main] can log are these five.
    "Failed to initialise profiling" is never logged, since
    [initProfiling] always returns nil; and the fatal error of
    [resolvePath], "Could not determine a home directory", is never
    logged either, since [fetchConfig] has by then failed on a home
    directory that cannot be determined. *)
Theorem fatal_errors_of_main (env : Env) (msg : string) (err : option error) :
  ELog LFatal msg err ∈ (main env).1 →
  msg ∈ ["Failed to fetch configuration"; "Failed to initialise majordomo";
         "show-certificates failed"; "Failed to initialise logging";
         "No server name set; cannot start"].
Proof.
  intros H. main_origin H; try elsewhere H;
    first
      [ injection H as -> _; in_list
      | exfalso; apply in_resolvePath in H as (e' & B & _ & _);
        match goal with
        | S : succeeds (fetchConfig env) |- _ =>
            destruct (base_after_fetchConfig env S) as [dir D]
        | S : (main_preflight env).2 = Return _ |- _ =>
            destruct (base_after_preflight env _ S) as [dir D]
        end;
        congruence ].
Qed.

Lemma fatal_errors_of_main_witness :
  ELog LFatal "Failed to fetch configuration"
       (Some (Wrap (New "no home") "failed to obtain home directory"))
    ∈ (main (mkEnv unnamed (λ _, None) (inl (New "no home")) 4 (λ key, inr key)
                   ["store"] (λ _ entries, entries) [SIGTERM])).1 ∧
  "Failed to fetch configuration"
    ∈ ["Failed to fetch configuration"; "Failed to initialise majordomo";
       "show-certificates failed"; "Failed to initialise logging";
       "No server name set; cannot start"].
Proof.
  assert (H : ELog LFatal "Failed to fetch configuration"
                (Some (Wrap (New "no home") "failed to obtain home directory"))
              ∈ (main (mkEnv unnamed (λ _, None) (inl (New "no home")) 4
                             (λ key, inr key) ["store"] (λ _ entries, entries)
                             [SIGTERM])).1)
    by (apply list_elem_of_In; vm_compute; tauto).
  split; [exact H|].
  exact (fatal_errors_of_main _ _ _ H).
Defined.

Lemma fetchConfig_without_file env :
  failure env ReadInConfig = Some ConfigFileNotFoundError →
  fetchConfig env = fetchConfig (with_configuration_file env).
Proof.
  intros H. rewrite !fetchConfig_eq. unfold base_of, configured, with_configuration_file.
  cbn [failure config home]. rewrite H.
  destruct (failure env ParseFlags); [reflexivity|].
  destruct (failure env BindPFlags); reflexivity.
Qed.

Lemma bind_ext {A B} (f g : A → Proc B) (m : Proc A) :
  (∀ a, f a = g a) → Proc_bind A B f m = Proc_bind A B g m.
Proof.
  intros H. unfold Proc_bind. destruct m.2 as [a|code|]; [rewrite H|..]; reflexivity.
Qed.

Lemma fetch_passphrases_with_file env msg keys : ∀ acc,
  fetch_passphrases (with_configuration_file env) msg keys acc
  = fetch_passphrases env msg keys acc.
Proof.
  induction keys as [|key rest IH]; intros acc; [reflexivity|].
  rewrite !fetch_passphrases_cons.
  change (secret (with_configuration_file env) key) with (secret env key).
  destruct (secret env key); [reflexivity|]. rewrite IH. reflexivity.
Qed.

Lemma startServices_with_file v env :
  startServices v (with_configuration_file env) = startServices v env.
Proof.
  unfold startServices.
  unfold mbind at 1 3. unfold Call_bind, try. apply bind_ext. intros [err|stores]; [reflexivity|].
  assert (U : startUnlocker v (with_configuration_file env) = startUnlocker v env).
  { rewrite !startUnlocker_unfold, !fetch_passphrases_with_file. reflexivity. }
  rewrite U. reflexivity.
Qed.

Lemma main_deferred_with_file v env :
  main_deferred v (with_configuration_file env) = main_deferred v env.
Proof.
  unfold main_deferred, or_return, mbind.
  apply bind_ext. intros _.
  apply bind_ext. intros [err|_]; [reflexivity|].
  apply bind_ext. intros [err|monitor]; [reflexivity|].
  apply bind_ext. intros [err|_]; [reflexivity|].
  apply bind_ext. intros _.
  apply bind_ext. intros _.
  rewrite startServices_with_file. reflexivity.
Qed.

(** X17.  A configuration file that is not there is not an error: the
    run is the one with a configuration file that is read without
    error. *)
Theorem missing_configuration_file_is_tolerated (env : Env) :
  failure env ReadInConfig = Some ConfigFileNotFoundError →
  main env = main (with_configuration_file env).
Proof.
  intros H. rewrite !main_unfold.
  assert (P : main_preflight (with_configuration_file env) = main_preflight env).
  { unfold main_preflight. rewrite (fetchConfig_without_file env H). reflexivity. }
  rewrite P. apply bind_ext. intros v.
  apply bind_ext. intros [err|closer]; [reflexivity|].
  rewrite main_deferred_with_file. reflexivity.
Qed.

Lemma missing_configuration_file_is_tolerated_witness :
  failure (mkEnv unnamed
                 (λ x, if decide (x = ReadInConfig) then Some ConfigFileNotFoundError
                       else None)
                 (inr "/home/dirk") 4 (λ key, inr key) ["store"]
                 (λ _ entries, entries) [SIGTERM]) ReadInConfig
  = Some ConfigFileNotFoundError ∧
  main (mkEnv unnamed
              (λ x, if decide (x = ReadInConfig) then Some ConfigFileNotFoundError
                    else None)
              (inr "/home/dirk") 4 (λ key, inr key) ["store"]
              (λ _ entries, entries) [SIGTERM])
  = main (quiet_env unnamed).
Proof.
  split; [reflexivity|].
  rewrite (missing_configuration_file_is_tolerated
             (mkEnv unnamed
                    (λ x, if decide (x = ReadInConfig) then Some ConfigFileNotFoundError
                          else None)
                    (inr "/home/dirk") 4 (λ key, inr key) ["store"]
                    (λ _ entries, entries) [SIGTERM]));
    [|reflexivity].
  vm_compute. reflexivity.
Defined.

End MainTrace.

(** ** Resolved paths *)

Section ResolvedPaths.
Import Go Dirk.

Lemma elements_no_separator path :
  Forall (λ e, has_separator e = false) (elements path).
Proof.
  induction path as [|c rest IH]; cbn [elements].
  - repeat constructor.
  - destruct (Ascii.eqb c "/") eqn:E.
    + constructor; [reflexivity|exact IH].
    + destruct (elements rest) as [|e es].
      * repeat constructor. cbn. rewrite E. reflexivity.
      * inversion IH; subst. constructor; [|assumption].
        cbn. rewrite E. assumption.
Qed.

Lemma clean_step_rooted out e :
  Forall proper_name out → has_separator e = false →
  Forall proper_name (clean_step true out e).
Proof.
  intros Hout He. unfold clean_step.
  destruct (is_empty e) eqn:E; [exact Hout|].
  destruct (String.eqb_spec e ".") as [->|Hd]; [exact Hout|]. cbn [orb].
  destruct (String.eqb_spec e "..") as [->|Hdd].
  - destruct out as [|top below]; [constructor|].
    inversion Hout as [|? ? Htop Hbelow]; subst.
    destruct (String.eqb_spec top "..") as [->|_]; [|exact Hbelow].
    destruct Htop as (_ & _ & Htop & _). contradiction.
  - constructor; [|exact Hout]. repeat split; assumption.
Qed.

Lemma clean_fold_rooted es : ∀ out,
  Forall proper_name out → Forall (λ e, has_separator e = false) es →
  Forall proper_name (fold_left (clean_step true) es out).
Proof.
  induction es as [|e es IH]; intros out Hout Hes; [exact Hout|].
  inversion Hes; subst. cbn [fold_left]. apply IH; [|assumption].
  apply clean_step_rooted; assumption.
Qed.

Lemma Clean_rooted_canonical path :
  IsAbs path = true →
  ∃ names, Clean path = "/" ++ String.concat "/" names ∧ Forall proper_name names.
Proof.
  intros A. unfold Clean. rewrite (IsAbs_not_empty _ A), A.
  eexists. split; [reflexivity|].
  apply Forall_rev, clean_fold_rooted; [constructor|apply elements_no_separator].
Qed.


(** A string without separator is a path of one element. *)
Lemma elements_name a : has_separator a = false → elements a = [a].
Proof.
  induction a as [|c rest IH]; [reflexivity|]. cbn [has_separator elements].
  intros [E H]%orb_false_iff. rewrite E, (IH H). reflexivity.
Qed.

Lemma elements_app a b :
  has_separator a = false → elements (a ++ "/" ++ b) = a :: elements b.
Proof.
  induction a as [|c rest IH]; [reflexivity|]. cbn [has_separator].
  intros [E H]%orb_false_iff.
  change (String c rest ++ "/" ++ b) with (String c (rest ++ "/" ++ b)).
  cbn [elements]. rewrite E, (IH H). reflexivity.
Qed.

Lemma append_assoc (a b c : string) : (a ++ b) ++ c = a ++ b ++ c.
Proof.
  induction a as [|x a IH]; [reflexivity|].
  change (String x ((a ++ b) ++ c) = String x (a ++ b ++ c)). f_equal. exact IH.
Qed.

(** The elements of names joined by separators are the names; no
    name at all reads as one empty element. *)
Lemma elements_concat names :
  Forall proper_name names →
  elements (String.concat "/" names)
  = match names with [] => [EmptyString] | _ => names end.
Proof.
  induction names as [|x [|y rest] IH]; intros H; [reflexivity| |].
  - inversion H as [|? ? (_ & _ & _ & Hx) _]; subst. apply elements_name, Hx.
  - inversion H as [|? ? (_ & _ & _ & Hx) Hrest]; subst.
    change (String.concat "/" (x :: y :: rest))
      with (x ++ "/" ++ String.concat "/" (y :: rest)).
    rewrite (elements_app _ _ Hx), (IH Hrest). reflexivity.
Qed.

Lemma elements_concat_app names tail :
  Forall proper_name names →
  elements (String.concat "/" names ++ "/" ++ tail)
  = (match names with [] => [EmptyString] | _ => names end ++ elements tail)%list.
Proof.
  induction names as [|x [|y rest] IH]; intros H; [reflexivity| |].
  - inversion H as [|? ? (_ & _ & _ & Hx) _]; subst. apply elements_app, Hx.
  - inversion H as [|? ? (_ & _ & _ & Hx) Hrest]; subst.
    change (String.concat "/" (x :: y :: rest))
      with (x ++ "/" ++ String.concat "/" (y :: rest)).
    rewrite !append_assoc, (elements_app _ _ Hx), (IH Hrest). reflexivity.
Qed.

Lemma clean_step_name rooted out e :
  proper_name e → clean_step rooted out e = e :: out.
Proof.
  intros (E & Hd & Hdd & _). unfold clean_step. rewrite E.
  destruct (String.eqb_spec e ".") as [->|_]; [contradiction|].
  destruct (String.eqb_spec e "..") as [->|_]; [contradiction|]. reflexivity.
Qed.

Lemma clean_fold_names rooted names : ∀ out,
  Forall proper_name names →
  fold_left (clean_step rooted) names out = (rev names ++ out)%list.
Proof.
  induction names as [|e names IH]; intros out H; [reflexivity|].
  inversion H; subst. cbn [fold_left rev].
  rewrite clean_step_name by assumption. rewrite IH by assumption.
  rewrite <- app_assoc. reflexivity.
Qed.

Lemma clean_fold_segment rooted names out :
  Forall proper_name names →
  fold_left (clean_step rooted) (match names with [] => [EmptyString] | _ => names end) out
  = (rev names ++ out)%list.
Proof.
  intros H. destruct names as [|e names]; [reflexivity|].
  apply clean_fold_names, H.
Qed.

Lemma IsAbs_concat names :
  Forall proper_name names → IsAbs (String.concat "/" names) = false.
Proof.
  intros H. destruct names as [|x rest]; [reflexivity|].
  inversion H as [|? ? (E & _ & _ & S) _]; subst.
  destruct x as [|c x]; [discriminate|]. cbn [has_separator] in S.
  apply orb_false_iff in S as [S _].
  destruct rest; cbn; exact S.
Qed.

Lemma Clean_rooted_eq body :
  Clean (String "/" body)
  = "/" ++ String.concat "/" (rev (fold_left (clean_step true) (elements body) [])).
Proof. reflexivity. Qed.

(** Joining plain names onto a directory of plain names appends them. *)
Lemma Join_names ds ps :
  Forall proper_name ds → Forall proper_name ps →
  Join ("/" ++ String.concat "/" ds) (String.concat "/" ps)
  = "/" ++ String.concat "/" (ds ++ ps).
Proof.
  intros Hd Hp. unfold Join.
  change ("/" ++ String.concat "/" ds) with (String "/" (String.concat "/" ds)).
  cbn [is_empty negb].
  change (String "/" (String.concat "/" ds) ++ "/" ++ String.concat "/" ps)
    with (String "/" (String.concat "/" ds ++ "/" ++ String.concat "/" ps)).
  rewrite Clean_rooted_eq.
  rewrite (elements_concat_app _ _ Hd), (elements_concat _ Hp), fold_left_app.
  rewrite (clean_fold_segment _ _ _ Hd), (clean_fold_segment _ _ _ Hp).
  rewrite app_nil_r, rev_app_distr, !rev_involutive. reflexivity.
Qed.

(** X18.  An absolute path is returned as it is.  A relative path is
    joined onto the base directory in force and, when that directory
    is absolute, comes out in canonical form: a rooted path whose
    elements are names, none of them empty, [.] or [..]; when the
    directory and the path are made of such names already, the
    result is the names of the directory followed by the names of
    the path. *)
Theorem resolvePath_relative_is_canonical (v : Viper) (env : Env) (path dir : string) :
  (IsAbs path = true → resolvePath v env path = ([], Return path)) ∧
  (base_of v env = inr dir → IsAbs dir = true → IsAbs path = false →
   resolvePath v env path = ([], Return (Join dir path)) ∧
   ∃ names, Join dir path = "/" ++ String.concat "/" names ∧ Forall proper_name names) ∧
  (∀ ds ps, Forall proper_name ds → Forall proper_name ps →
     base_of v env = inr ("/" ++ String.concat "/" ds) →
     path = String.concat "/" ps →
     resolvePath v env path = ([], Return ("/" ++ String.concat "/" (ds ++ ps)))).
Proof.
  split; [apply resolvePath_absolute|]. split.
  - intros B A P. rewrite (resolvePath_relative _ _ _ P), B.
    split; [reflexivity|].
    unfold Join. rewrite (IsAbs_not_empty _ A). cbn [negb].
    destruct (Clean_rooted_canonical (dir ++ "/" ++ path)) as (names & -> & H).
    + apply IsAbs_app, A.
    + exists names. auto.
  - intros ds ps Hd Hp B ->.
    rewrite (resolvePath_relative _ _ _ (IsAbs_concat _ Hp)), B.
    rewrite (Join_names _ _ Hd Hp). reflexivity.
Qed.

Lemma resolvePath_relative_is_canonical_witness :
  base_of unnamed (quiet_env unnamed) = inr "/home/dirk" ∧
  resolvePath unnamed (quiet_env unnamed) "./keys/../storage/"
  = ([], Return "/home/dirk/storage") ∧
  resolvePath unnamed (quiet_env unnamed) "keys/ca.crt"
  = ([], Return "/home/dirk/keys/ca.crt") ∧
  resolvePath unnamed (quiet_env unnamed) "/etc/dirk/ca.crt"
  = ([], Return "/etc/dirk/ca.crt").
Proof.
  assert (N : ∀ e, is_empty e = false → e ≠ "." → e ≠ ".." → has_separator e = false →
              proper_name e) by (intros e H1 H2 H3 H4; repeat split; assumption).
  split; [reflexivity|].
  destruct (resolvePath_relative_is_canonical unnamed (quiet_env unnamed)
              "./keys/../storage/" "/home/dirk") as (_ & R & _).
  destruct (resolvePath_relative_is_canonical unnamed (quiet_env unnamed)
              "keys/ca.crt" "/home/dirk") as (_ & _ & P).
  destruct (resolvePath_relative_is_canonical unnamed (quiet_env unnamed)
              "/etc/dirk/ca.crt" "/home/dirk") as (A & _).
  split; [|split].
  - destruct R as [R _]; [reflexivity..|]. exact R.
  - apply (P ["home"; "dirk"] ["keys"; "ca.crt"]); try reflexivity;
      repeat constructor; apply N; (reflexivity || discriminate).
  - apply A. reflexivity.
Defined.

(** The dots and the trailing separator of a relative path are gone. *)
Example resolvePath_cleans :
  resolvePath unnamed (quiet_env unnamed) "./keys/../storage/"
  = ([], Return "/home/dirk/storage").
Proof. vm_compute. reflexivity. Qed.

End ResolvedPaths.
